(** * go-migrate: planner, executor and file-name parser

    A shallow embedding of the Go package in Rocq.

    - [plan] is [Migrator.plan]: it reconciles the provider's migrations
      with the versions recorded by the database and returns the actions
      needed to reach a version.
    - [Migrate] is [SQLDatabase.Migrate]: it runs the actions one by one,
      each in its own transaction.
    - [parseFileName] and [List] are the file-name convention of
      [FilesystemProvider].

    Go's [int] is modelled by [Z]: the planner only compares versions, it
    never does arithmetic on them.  Slices are lists, slice indices and
    lengths are [nat].  A method that returns [(T, error)] returns a
    [result T]. *)

From Stdlib Require Import ZArith List Bool Lia String Ascii.
From Stdlib Require Import Sorting.Sorted Sorting.Permutation.
Import ListNotations.

Local Open Scope string_scope.
Local Open Scope list_scope.
Local Open Scope Z_scope.

(** ** Errors and results *)

(** The three places where [plan] wraps an error with [xerrors.New]. *)
Inductive LoadKind : Type :=
| LoadSnapshot  (* "unable to load snapshot from migration %d" *)
| LoadUp        (* "unable to load %d up migration" *)
| LoadDown.     (* "unable to load %d down migration" *)

(** An [error] value: a message of a collaborator, or one of the wrapped
    errors the package builds. *)
Inductive error : Type :=
| Message (msg : string)
| Unable (k : LoadKind) (version : Z) (cause : error)
| Wrap (sentinel : string) (msg : string) (cause : error).

Inductive result (A : Type) : Type :=
| Ok (a : A)
| Err (e : error).

Arguments Ok {A} a.
Arguments Err {A} e.

Definition bind {A B : Type} (r : result A) (k : A -> result B) : result B :=
  match r with
  | Ok a => k a
  | Err e => Err e
  end.

Definition is_ok {A : Type} (r : result A) : bool :=
  match r with
  | Ok _ => true
  | Err _ => false
  end.

(** ** Data model *)

(** [type Direction uint8] with the constants [Up = 1] and [Down = 2];
    [Other] stands for the remaining values of [uint8], which the planner
    never produces. *)
Module Direction.
Inductive t : Type :=
| Up
| Down
| Other (n : N).
End Direction.

(** [type Action struct]. *)
Module Action.
Record t : Type := mk {
  Version : Z;
  Migration : string;
  Direction : Direction.t
}.
End Action.

Definition Action : Type := Action.t.

(** [type Migration interface]: a version and three payloads, each of
    which may fail to load.  The payloads are values: a migration answers
    the same on every call. *)
Record Migration : Type := {
  Version : Z;
  Up : result string;
  Down : result string;
  Snapshot : result string
}.

(** ** The standard library functions the planner calls *)

(** [sort.Search(n, f)]: binary search for the smallest index in [0, n)
    at which [f] holds, [n] if there is none.  Every iteration shrinks
    the interval [i, j), so [n] rounds of [fuel] are enough
    ([search_loop_fuel]). *)
Fixpoint search_loop (fuel : nat) (f : nat -> bool) (i j : nat) : nat :=
  match fuel with
  | O => i
  | S fuel' =>
      if (i <? j)%nat then
        let h := Nat.div2 (i + j) in
        if negb (f h) then search_loop fuel' f (S h) j
        else search_loop fuel' f i h
      else i
  end.

Definition Search (n : nat) (f : nat -> bool) : nat :=
  search_loop n f 0%nat n.

(** [sort.SearchInts(a, x)]. *)
Definition SearchInts (a : list Z) (x : Z) : nat :=
  Search (List.length a) (fun i => x <=? nth i a 0).

(** [sort.Ints] and [sort.Slice].  On a slice of at most 12 elements Go
    runs the insertion sort below: an element moves left while it is
    strictly less than its left neighbour, so equal elements keep their
    order.  On a longer slice it runs another algorithm, which is not
    stable: it returns the same list whenever the keys identify the
    elements, a list having one sorted permutation only then
    ([sorted_perm_unique]); the order it gives to elements of one key on
    a slice of more than 12 elements is not modelled. *)
Fixpoint insert_by {A : Type} (key : A -> Z) (x : A) (l : list A) : list A :=
  match l with
  | [] => [x]
  | y :: l' => if key x <? key y then x :: y :: l' else y :: insert_by key x l'
  end.

Definition sort_by {A : Type} (key : A -> Z) (l : list A) : list A :=
  fold_left (fun sorted x => insert_by key x sorted) l [].

Definition sortInts (a : list Z) : list Z := sort_by (fun x => x) a.

Definition sortMigrations (ms : list Migration) : list Migration :=
  sort_by Version ms.

(** The order the sort works with: by key. *)
Definition le_by {A : Type} (key : A -> Z) (a b : A) : Prop := key a <= key b.

(** ** Migrator *)

(** The loop of [LatestVersion] and [CurrentVersion]. *)
Definition max_from_zero (vs : list Z) : Z :=
  fold_left (fun latest v => if latest <? v then v else latest) vs 0.

Definition LatestVersion (provList : list Migration) : Z :=
  max_from_zero (map Version provList).

Definition CurrentVersion (dbList : list Z) : Z :=
  max_from_zero dbList.

(** [latest] in [plan]: the last element of the sorted list, 0 when the
    list is empty. *)
Definition latestApplied (dbList : list Z) : Z :=
  last (sortInts dbList) 0.

(** The test [idx >= len(dbList) || dbList[idx] != pm.Version(ctx)],
    negated: the version is in the sorted list [dbList]. *)
Definition is_applied (dbList : list Z) (v : Z) : bool :=
  let idx := SearchInts dbList v in
  negb ((List.length dbList <=? idx)%nat || negb (nth idx dbList 0 =? v)).

Definition upAction (v : Z) (text : string) : Action :=
  Action.mk v text Direction.Up.

Definition downAction (v : Z) (text : string) : Action :=
  Action.mk v text Direction.Down.

(** The "migrate up" loop over the sorted [provList]; [dbList] is sorted.
    Returning [Ok actions] before the end of the list is the [break]. *)
Fixpoint walk_up (dbList : list Z) (version : Z) (actions : list Action)
    (provList : list Migration) : result (list Action) :=
  match provList with
  | [] => Ok actions
  | pm :: rest =>
      if version <? Version pm then Ok actions
      else if negb (is_applied dbList (Version pm)) then
        let add_up :=
          match Up pm with
          | Err e => Err (Unable LoadUp (Version pm) e)
          | Ok up =>
              walk_up dbList version (actions ++ [upAction (Version pm) up]) rest
          end in
        if (List.length dbList =? 0)%nat then
          match Snapshot pm with
          | Err e => Err (Unable LoadSnapshot (Version pm) e)
          | Ok snapshot =>
              if (0 <? String.length snapshot)%nat then
                walk_up dbList version [upAction (Version pm) snapshot] rest
              else add_up
          end
        else add_up
      else walk_up dbList version [] rest
  end.

(** The lookup of the "migrate down" loop: binary search for the first
    migration whose version is at least [v], kept when its version is [v]. *)
Definition find_migration (provList : list Migration) (v : Z) : option Migration :=
  let idx := Search (List.length provList)
               (fun i => match nth_error provList i with
                         | Some m => v <=? Version m
                         | None => false
                         end) in
  match nth_error provList idx with
  | Some m => if Version m =? v then Some m else None
  | None => None
  end.

(** The "migrate down" loop; [vs] is the sorted [dbList] read from its
    last element to its first. *)
Fixpoint walk_down (provList : list Migration) (version : Z)
    (actions : list Action) (vs : list Z) : result (list Action) :=
  match vs with
  | [] => Ok actions
  | v :: rest =>
      if v <=? version then Ok actions
      else
        match find_migration provList v with
        | Some m =>
            match Down m with
            | Err e => Err (Unable LoadDown (Version m) e)
            | Ok down =>
                walk_down provList version
                  (actions ++ [downAction (Version m) down]) rest
            end
        | None => walk_down provList version actions rest
        end
  end.

(** [Migrator.plan], after the two lists were fetched. *)
Definition plan (provList : list Migration) (dbList : list Z) (version : Z)
  : result (list Action) :=
  match provList with
  | [] => Ok []
  | _ :: _ =>
      let provList := sortMigrations provList in
      let dbList := sortInts dbList in
      let latest := last dbList 0 in
      bind (if latest <? version then walk_up dbList version [] provList
            else Ok [])
        (fun actions =>
           if version <? latest
           then walk_down provList version actions (rev dbList)
           else Ok actions)
  end.

(** [Migrator.plan] with the answers of the two collaborators: the
    database is asked only when the provider returned migrations. *)
Definition Migrator_plan (prov : result (list Migration))
    (db : result (list Z)) (version : Z) : result (list Action) :=
  match prov with
  | Err e => Err e
  | Ok [] => Ok []
  | Ok provList =>
      match db with
      | Err e => Err e
      | Ok dbList => plan provList dbList version
      end
  end.

(** [Migrator.Plan]. *)
Definition Plan (prov : result (list Migration)) (db : result (list Z))
    (version : Z) : result (list Action) :=
  match Migrator_plan prov db version with
  | Err e => Err (Wrap "migrator" "unable to prepare migration plan" e)
  | Ok a => Ok a
  end.

(** ** Notions the properties of the planner are stated with *)

(** [len(snapshot) > 0]. *)
Definition nonempty (s : string) : bool := (0 <? String.length s)%nat.

(** The part of the list the forward loop goes through before its
    [break]. *)
Fixpoint walked (version : Z) (ms : list Migration) : list Migration :=
  match ms with
  | [] => []
  | pm :: rest => if version <? Version pm then [] else pm :: walked version rest
  end.

Definition versions (actions : list Action) : list Z :=
  map Action.Version actions.

Definition all_dir (d : Direction.t) (actions : list Action) : Prop :=
  Forall (fun a => Action.Direction a = d) actions.

(** All the texts of a migration load. *)
Definition resolves (m : Migration) : bool :=
  is_ok (Up m) && is_ok (Down m) && is_ok (Snapshot m).

(** The bookkeeping of [SQLDatabase.up] ([insertMigrationSQL]) and
    [SQLDatabase.down] ([deleteMigrationSQL]) on the recorded versions,
    for actions that all succeed. *)
Definition apply_action (applied : list Z) (a : Action) : list Z :=
  match Action.Direction a with
  | Direction.Up => Action.Version a :: applied
  | Direction.Down => filter (fun v => negb (v =? Action.Version a)) applied
  | Direction.Other _ => applied
  end.

Definition apply_plan (acts : list Action) (applied : list Z) : list Z :=
  fold_left apply_action acts applied.

(** ** The migrations of the package's tests *)

Definition testMigration (v : Z) (up down snapshot : string) : Migration :=
  {| Version := v; Up := Ok up; Down := Ok down; Snapshot := Ok snapshot |}.

Definition tm1 := testMigration 1 "up1" "down1" "".
Definition tm2 := testMigration 2 "up2" "down2" "".
Definition tm3 := testMigration 3 "up3" "down3" "".
Definition tm4 := testMigration 4 "up4" "down4" "".
Definition tm5 := testMigration 5 "up5" "down5" "".
Definition tm2s := testMigration 2 "up2" "down2" "snapshot2".
Definition tm4s := testMigration 4 "up4" "down4" "snapshot4".

Definition tm2_broken : Migration :=
  {| Version := 2; Up := Err (Message "read error"); Down := Ok "down2";
     Snapshot := Ok "" |}.

Definition tm1a := testMigration 1 "up1a" "down1a" "".
Definition tm1b := testMigration 1 "up1b" "down1b" "".

(** ** The properties as the specification words them *)

(** The invariant as the data model words it: one direction; a forward
    plan has strictly increasing versions, all above the latest recorded
    version unless nothing was recorded (the snapshot case); a backward
    plan has strictly decreasing versions, all recorded. *)
Definition stated_plan_invariant (catalog : list Migration) (applied : list Z)
    (target : Z) : Prop :=
  forall acts,
    plan catalog applied target = Ok acts ->
    (all_dir Direction.Up acts \/ all_dir Direction.Down acts)
    /\ (acts <> [] -> all_dir Direction.Up acts ->
        StronglySorted Z.lt (versions acts)
        /\ (applied <> [] ->
            Forall (fun a => latestApplied applied < Action.Version a) acts))
    /\ (acts <> [] -> all_dir Direction.Down acts ->
        StronglySorted Z.gt (versions acts)
        /\ Forall (fun a => In (Action.Version a) applied) acts).

(** The plan does not depend on the order of the two lists. *)
Definition stated_order_insensitive : Prop :=
  forall catalog catalog' applied applied' target,
    Permutation catalog catalog' -> Permutation applied applied' ->
    plan catalog applied target = plan catalog' applied' target.

(** Planning again after the plan was applied gives the empty plan. *)
Definition stated_idempotence (catalog : list Migration) (applied : list Z)
    (target : Z) : Prop :=
  forall P,
    plan catalog applied target = Ok P ->
    plan catalog (apply_plan P applied) target = Ok [].

(** ** Notions the amended idempotence is stated with *)

(** A version the forward loop applies: a catalog version at most the
    target that is not recorded and is above every recorded version of
    the catalog that is at most the target. *)
Definition open_version (catalog : list Migration) (applied : list Z)
    (target v : Z) : Prop :=
  In v (map Version catalog) /\ v <= target /\ ~ In v applied
  /\ forall u, In u applied -> In u (map Version catalog) -> u <= target ->
               u < v.

(** The plan [P] moved backward and left the latest recorded version
    below the target, with a version for the forward loop to apply. *)
Definition gap_left (catalog : list Migration) (applied : list Z)
    (target : Z) (P : list Action) : Prop :=
  target < latestApplied applied
  /\ latestApplied (apply_plan P applied) < target
  /\ exists v, open_version catalog applied target v.

(** ** SQLDatabase *)

(** The calls [ExecContext] receives.  The timestamp of
    [insertMigrationSQL] is left out. *)
Inductive Query : Type :=
| CreateTable                    (* createTableSQL *)
| Statement (sql : string)       (* action.Migration *)
| InsertMigration (version : Z)  (* insertMigrationSQL *)
| DeleteMigration (version : Z). (* deleteMigrationSQL *)

(** How a call on the database ends: it returns, with an error or with
    nil, or it panics with a value that is not nil. *)
Inductive outcome : Type :=
| Returned (err : option error)
| Panicked (r : string).

(** The calls the executor makes on the database. *)
Inductive Call : Type :=
| CallExec (q : Query)     (* sqldb.ExecContext *)
| CallBeginTx              (* sqldb.BeginTx *)
| CallTxExec (q : Query)   (* tx.ExecContext *)
| CallCommit               (* tx.Commit *)
| CallRollback.            (* tx.Rollback *)

(** The [sqldb] behind [SQLDatabase], over any type of database states:
    each call gives the state it leaves and how it ended.  [has_tx]
    tells whether the value implements [sqldbBeginTx]; [tx_exec],
    [commit] and [rollback] are the methods of the transaction that
    [begin] opens. *)
Record Driver (St : Type) : Type := {
  exec : Query -> St -> St * outcome;
  has_tx : bool;
  begin : St -> St * outcome;
  tx_exec : Query -> St -> St * outcome;
  commit : St -> St * outcome;
  rollback : St -> St * outcome
}.

Arguments exec {St} d q s.
Arguments has_tx {St} d.
Arguments begin {St} d s.
Arguments tx_exec {St} d q s.
Arguments commit {St} d s.
Arguments rollback {St} d s.

(** What the executor acts on: the database state, and every call made
    on the database so far. *)
Record World (St : Type) : Type := {
  store : St;
  trace : list Call
}.

Arguments store {St} w.
Arguments trace {St} w.

Definition query_of (c : Call) : list Query :=
  match c with
  | CallExec q | CallTxExec q => [q]
  | _ => []
  end.

(** The queries [ExecContext] received so far, on the database or in a
    transaction. *)
Definition calls {St : Type} (w : World St) : list Query :=
  flat_map query_of (trace w).

Section Executor.
Variable St : Type.
Variable d : Driver St.

(** A call on the database, recorded. *)
Definition call (c : Call) (f : St -> St * outcome) (w : World St)
  : World St * outcome :=
  let (s, r) := f (store w) in
  ({| store := s; trace := trace w ++ [c] |}, r).

Definition ExecContext (q : Query) := call (CallExec q) (exec d q).
Definition BeginTx := call CallBeginTx (begin d).
Definition TxExecContext (q : Query) := call (CallTxExec q) (tx_exec d q).
Definition Commit := call CallCommit (commit d).
Definition Rollback := call CallRollback (rollback d).

(** The deferred function of [transaction], once [recover] is done: the
    [err] it tests is the variable that [tx, err := sqldb.BeginTx]
    declares, which hides the result of the function.  When that [err]
    is not nil the transaction is rolled back; an error of [Rollback] is
    appended to the hidden [err] and lost.  The function then returns
    [result], unless [Rollback] panics. *)
Definition deferred (hidden_err : bool) (result : option error)
    (w : World St) : World St * outcome :=
  if hidden_err then
    let (w', r) := Rollback w in
    match r with
    | Panicked p => (w', Panicked p)
    | Returned _ => (w', Returned result)
    end
  else (w, Returned result).

(** [transaction]; [fn] is given the [ExecContext] of the value it is
    called with.  With [BeginTx]:
    - a panic of [BeginTx] comes before the [defer] and goes on;
    - an error of [BeginTx] is returned;
    - an error of [fn] is assigned to the hidden [err] and returned, and
      the deferred function rolls back;
    - when [fn] returns nil the result is that of [Commit], and the
      hidden [err] is nil, so that nothing is rolled back;
    - a panic in [fn] or in [Commit] is recovered: the deferred function
      stores it in the hidden [err] and rolls back, and the function
      returns its result, which was never assigned: nil.
    Without [BeginTx], [fn] runs on the database itself. *)
Definition transaction
    (fn : (Query -> World St -> World St * outcome) ->
          World St -> World St * outcome)
    (w : World St) : World St * outcome :=
  if has_tx d then
    let (w0, r0) := BeginTx w in
    match r0 with
    | Panicked p => (w0, Panicked p)
    | Returned (Some e) => (w0, Returned (Some e))
    | Returned None =>
        let (w1, r1) := fn TxExecContext w0 in
        match r1 with
        | Panicked _ => deferred true None w1
        | Returned (Some e) => deferred true (Some e) w1
        | Returned None =>
            let (w2, r2) := Commit w1 in
            match r2 with
            | Panicked _ => deferred true None w2
            | Returned e => deferred false e w2
            end
        end
    end
  else fn ExecContext w.

(** The function [up] and [down] pass to [transaction]: the statement,
    then the bookkeeping unless the statement returned an error. *)
Definition then_exec (q1 q2 : Query)
    (db : Query -> World St -> World St * outcome) (w : World St)
  : World St * outcome :=
  let (w1, r) := db q1 w in
  match r with
  | Returned None => db q2 w1
  | _ => (w1, r)
  end.

(** [SQLDatabase.up] and [SQLDatabase.down]. *)
Definition up (action : Action) : World St -> World St * outcome :=
  transaction
    (then_exec (Statement (Action.Migration action))
       (InsertMigration (Action.Version action))).

Definition down (action : Action) : World St -> World St * outcome :=
  transaction
    (then_exec (Statement (Action.Migration action))
       (DeleteMigration (Action.Version action))).

(** The body of the loop of [Migrate]: the [switch] has no default. *)
Definition run_action (action : Action) (w : World St) : World St * outcome :=
  match Action.Direction action with
  | Direction.Up => up action w
  | Direction.Down => down action w
  | Direction.Other _ => (w, Returned None)
  end.

(** The loop of [Migrate]: it goes on while the actions return nil. *)
Fixpoint migrate_loop (actions : list Action) (w : World St)
  : World St * outcome :=
  match actions with
  | [] => (w, Returned None)
  | action :: rest =>
      let (w', r) := run_action action w in
      match r with
      | Returned None => migrate_loop rest w'
      | _ => (w', r)
      end
  end.

(** [type SQLDatabase struct]. *)
Record SQLDatabase : Type := {
  sqldb : World St;
  inited : bool
}.

(** [SQLDatabase.init]: the flag is set before the table is created. *)
Definition init (s : SQLDatabase) : SQLDatabase * outcome :=
  if inited s then (s, Returned None)
  else
    let (w, r) := ExecContext CreateTable (sqldb s) in
    ({| sqldb := w; inited := true |}, r).

(** [SQLDatabase.Migrate]. *)
Definition Migrate (s : SQLDatabase) (actions : list Action)
  : SQLDatabase * outcome :=
  let (s1, r) := init s in
  match r with
  | Returned None =>
      let (w, r') := migrate_loop actions (sqldb s1) in
      ({| sqldb := w; inited := inited s1 |}, r')
  | _ => (s1, r)
  end.

End Executor.

Arguments sqldb {St} s.
Arguments inited {St} s.
Arguments Build_SQLDatabase {St} sqldb inited.
Arguments call {St} c f w.
Arguments ExecContext {St} d q w.
Arguments BeginTx {St} d w.
Arguments TxExecContext {St} d q w.
Arguments Commit {St} d w.
Arguments Rollback {St} d w.
Arguments deferred {St} d hidden_err result w.
Arguments transaction {St} d fn w.
Arguments then_exec {St} q1 q2 db w.
Arguments up {St} d action w.
Arguments down {St} d action w.
Arguments run_action {St} d action w.
Arguments migrate_loop {St} d actions w.
Arguments init {St} d s.
Arguments Migrate {St} d s actions.

(** A database in memory: the statements that ran, the versions of the
    [migrations] table, whose [version] column is a primary key, and,
    while a transaction is open, what the database held when it was
    opened.  The statement ["fail"] returns an error. *)
Record MemDB : Type := {
  executed : list string;
  recorded : list Z;
  saved : option (list string * list Z)
}.

Definition mem_exec (q : Query) (s : MemDB) : MemDB * outcome :=
  match q with
  | CreateTable => (s, Returned None)
  | Statement sql =>
      if (sql =? "fail")%string
      then (s, Returned (Some (Message "statement failed")))
      else ({| executed := executed s ++ [sql];
               recorded := recorded s;
               saved := saved s |}, Returned None)
  | InsertMigration v =>
      if existsb (Z.eqb v) (recorded s)
      then (s, Returned (Some (Message "duplicate key")))
      else ({| executed := executed s;
               recorded := recorded s ++ [v];
               saved := saved s |}, Returned None)
  | DeleteMigration v =>
      ({| executed := executed s;
          recorded := filter (fun u => negb (u =? v)) (recorded s);
          saved := saved s |}, Returned None)
  end.

Definition mem_begin (s : MemDB) : MemDB * outcome :=
  ({| executed := executed s;
      recorded := recorded s;
      saved := match saved s with
               | Some p => Some p
               | None => Some (executed s, recorded s)
               end |}, Returned None).

Definition ErrTxDone : error :=
  Message "transaction has already been committed or rolled back".

Definition mem_tx_exec (q : Query) (s : MemDB) : MemDB * outcome :=
  match saved s with
  | None => (s, Returned (Some ErrTxDone))
  | Some _ => mem_exec q s
  end.

Definition mem_commit (s : MemDB) : MemDB * outcome :=
  match saved s with
  | None => (s, Returned (Some ErrTxDone))
  | Some _ =>
      ({| executed := executed s; recorded := recorded s; saved := None |},
       Returned None)
  end.

Definition mem_rollback (s : MemDB) : MemDB * outcome :=
  match saved s with
  | None => (s, Returned (Some ErrTxDone))
  | Some (e, r) =>
      ({| executed := e; recorded := r; saved := None |}, Returned None)
  end.

(** What the database in memory holds for good. *)
Definition mem_committed (s : MemDB) : list string * list Z :=
  match saved s with
  | Some p => p
  | None => (executed s, recorded s)
  end.

Definition memDriver : Driver MemDB :=
  {| exec := mem_exec;
     has_tx := true;
     begin := mem_begin;
     tx_exec := mem_tx_exec;
     commit := mem_commit;
     rollback := mem_rollback |}.

(** The same database behind a value without [BeginTx]. *)
Definition memDriverNoTx : Driver MemDB :=
  {| exec := mem_exec;
     has_tx := false;
     begin := mem_begin;
     tx_exec := mem_tx_exec;
     commit := mem_commit;
     rollback := mem_rollback |}.

(** The same database with a transaction in which the statement
    ["panic"] panics. *)
Definition mem_tx_exec_panic (q : Query) (s : MemDB) : MemDB * outcome :=
  match q with
  | Statement "panic" => (s, Panicked "statement panicked")
  | _ => mem_tx_exec q s
  end.

Definition memDriverPanic : Driver MemDB :=
  {| exec := mem_exec;
     has_tx := true;
     begin := mem_begin;
     tx_exec := mem_tx_exec_panic;
     commit := mem_commit;
     rollback := mem_rollback |}.

Definition memNew : SQLDatabase MemDB :=
  {| sqldb := {| store := {| executed := []; recorded := []; saved := None |};
                 trace := [] |};
     inited := false |}.

(** ** Notions the properties of the executor are stated with *)

(** The queries of an action that goes through: its text, then its
    bookkeeping. *)
Definition queries (a : Action) : list Query :=
  match Action.Direction a with
  | Direction.Up =>
      [Statement (Action.Migration a); InsertMigration (Action.Version a)]
  | Direction.Down =>
      [Statement (Action.Migration a); DeleteMigration (Action.Version a)]
  | Direction.Other _ => []
  end.

(** The actions a [case] of the [switch] of [Migrate] is for. *)
Definition has_case (a : Action) : bool :=
  match Action.Direction a with
  | Direction.Other _ => false
  | _ => true
  end.

(** The calls of an action that goes through without a panic, with and
    without [BeginTx]. *)
Definition unit_calls (tx : bool) (a : Action) : list Call :=
  match queries a with
  | [] => []
  | qs =>
      if tx then CallBeginTx :: map CallTxExec qs ++ [CallCommit]
      else map CallExec qs
  end.

(** The calls of an action that returns an error, when no call panics:
    the calls up to the one that returned the error, and then the
    rollback when that one was made in the transaction and was not
    [Commit]. *)
Definition failed_calls (tx : bool) (a : Action) : list (list Call) :=
  match queries a with
  | [q1; q2] =>
      if tx
      then [[CallBeginTx];
            [CallBeginTx; CallTxExec q1; CallRollback];
            [CallBeginTx; CallTxExec q1; CallTxExec q2; CallRollback];
            [CallBeginTx; CallTxExec q1; CallTxExec q2; CallCommit]]
      else [[CallExec q1]; [CallExec q1; CallExec q2]]
  | _ => []
  end.

(** No call on the database panics. *)
Definition never_panics {St : Type} (d : Driver St) : Prop :=
  forall s,
    (forall q p, snd (exec d q s) <> Panicked p)
    /\ (forall p, snd (begin d s) <> Panicked p)
    /\ (forall q p, snd (tx_exec d q s) <> Panicked p)
    /\ (forall p, snd (commit d s) <> Panicked p)
    /\ (forall p, snd (rollback d s) <> Panicked p).

(** The transactions of a database are atomic, [committed] being what
    the database holds for good: opening a transaction, the calls made
    in it and its rollback do not change that, and neither does a
    [Commit] that does not return nil. *)
Definition atomic {St C : Type} (d : Driver St) (committed : St -> C) : Prop :=
  (forall s, committed (fst (begin d s)) = committed s)
  /\ (forall q s, committed (fst (tx_exec d q s)) = committed s)
  /\ (forall s, committed (fst (rollback d s)) = committed s)
  /\ (forall s,
         snd (commit d s) <> Returned None ->
         committed (fst (commit d s)) = committed s).

(** C5 as it is worded, for one database: when the actions of [pre]
    went through and the next action returns an error, [Migrate] returns
    that error, nothing is done after the failed action, and the
    database holds what the actions of [pre] left. *)
Definition stated_halt_on_failure {St : Type} (d : Driver St) : Prop :=
  forall (s s1 : SQLDatabase St) (pre post : list Action) (a : Action)
         (w2 : World St) (e : error),
    Migrate d s pre = (s1, Returned None) ->
    run_action d a (sqldb s1) = (w2, Returned (Some e)) ->
    exists s',
      Migrate d s (pre ++ a :: post) = (s', Returned (Some e))
      /\ sqldb s' = w2
      /\ store w2 = store (sqldb s1).

(** ** FilesystemProvider: file names *)

(** [strings.Split(s, sep)] for a separator of one byte. *)
Fixpoint Split (sep : ascii) (s : string) : list string :=
  match s with
  | EmptyString => [EmptyString]
  | String c rest =>
      if Ascii.eqb c sep then EmptyString :: Split sep rest
      else
        match Split sep rest with
        | h :: t => String c h :: t
        | [] => [String c EmptyString]
        end
  end.

(** [strings.SplitN(s, sep, 2)] for a separator of one byte: the text
    before the first separator and the text after it, or the whole
    string. *)
Fixpoint SplitN2 (sep : ascii) (s : string) : list string :=
  match s with
  | EmptyString => [EmptyString]
  | String c rest =>
      if Ascii.eqb c sep then [EmptyString; rest]
      else
        match SplitN2 sep rest with
        | h :: t => String c h :: t
        | [] => [String c EmptyString]
        end
  end.

(** The loop of [path.Base] that strips trailing slashes. *)
Fixpoint strip_trailing_slashes (s : string) : string :=
  match s with
  | EmptyString => EmptyString
  | String c rest =>
      match strip_trailing_slashes rest with
      | EmptyString => if Ascii.eqb c "/"%char then EmptyString
                       else String c EmptyString
      | rest' => String c rest'
      end
  end.

(** [path.Base]. *)
Definition Base (path : string) : string :=
  if (path =? "")%string then "."%string
  else
    let path := strip_trailing_slashes path in
    let path := last (Split "/"%char path) EmptyString in
    if (path =? "")%string then "/"%string else path.

(** [path.Join(dir, name)] for a directory path that [path.Clean] leaves
    as it is and the name of a directory entry.  For another directory
    path, such as ["."], the path the code builds is the cleaned one;
    its last element, which is all [parseFileName] reads, is the
    same. *)
Definition Join (dir name : string) : string :=
  if (dir =? "")%string then name else (dir ++ "/" ++ name)%string.

(** The digits of [strconv.Atoi]: [ch -= '0'; if ch > 9] is a syntax
    error, else [n = n*10 + int(ch)]. *)
Fixpoint parse_digits (s : string) (n : Z) : option Z :=
  match s with
  | EmptyString => Some n
  | String ch rest =>
      let c := nat_of_ascii ch in
      if ((48 <=? c) && (c <=? 57))%nat
      then parse_digits rest (n * 10 + Z.of_nat (c - 48))
      else None
  end.

Definition maxInt : Z := 2 ^ 63 - 1.
Definition minInt : Z := - 2 ^ 63.

(** The end of [strconv.Atoi], once the sign is read: at least one
    digit, only digits, and a value that fits in a 64-bit [int]. *)
Definition Atoi_digits (neg : bool) (digits : string) : option Z :=
  match digits with
  | EmptyString => None
  | _ =>
      match parse_digits digits 0 with
      | None => None
      | Some n =>
          let v := if neg then - n else n in
          if (minInt <=? v) && (v <=? maxInt) then Some v else None
      end
  end.

(** [strconv.Atoi] for a 64-bit [int]: an optional sign, then the
    digits. *)
Definition Atoi (s : string) : option Z :=
  match s with
  | String "-"%char rest => Atoi_digits true rest
  | String "+"%char rest => Atoi_digits false rest
  | _ => Atoi_digits false s
  end.

(** [parseFileName]; [None] is the result [(0, false)]. *)
Definition parseFileName (filepath : string) : option Z :=
  let p := Split "."%char (Base filepath) in
  if negb (List.length p =? 2)%nat || negb (nth 1 p EmptyString =? "sql")%string
  then None
  else Atoi (nth 0 (SplitN2 "_"%char (nth 0 p EmptyString)) EmptyString).

(** A directory entry, as far as [List] looks at it. *)
Record DirEntry : Type := {
  Name : string;
  IsDir : bool
}.

(** [type fileMigration struct], before its file is read. *)
Record fileMigration : Type := {
  filepath : string;
  version : Z
}.

(** The loop of [List]. *)
Fixpoint list_entries (path : string) (dir : list DirEntry)
    (ms : list fileMigration) : result (list fileMigration) :=
  match dir with
  | [] => Ok ms
  | e :: rest =>
      if IsDir e then list_entries path rest ms
      else
        let fp := Join path (Name e) in
        match parseFileName fp with
        | None => Err (Message "invalid file name")
        | Some v =>
            list_entries path rest (ms ++ [{| filepath := fp; version := v |}])
        end
  end.

(** [FilesystemProvider.List], given what [ReadDir] returned. *)
Definition List (path : string) (readDir : result (list DirEntry))
  : result (list fileMigration) :=
  match readDir with
  | Err e => Err e
  | Ok dir => list_entries path dir []
  end.

(** [c] occurs in [s]. *)
Fixpoint has_char (c : ascii) (s : string) : bool :=
  match s with
  | EmptyString => false
  | String c' rest => Ascii.eqb c' c || has_char c rest
  end.

(** Decimal numerals. *)
Definition digit_string (ds : list nat) : string :=
  fold_right (fun d s => String (ascii_of_nat (48 + d)) s) EmptyString ds.

Definition decimal (ds : list nat) : Z :=
  fold_left (fun n d => n * 10 + Z.of_nat d) ds 0.

Definition is_digit (ch : ascii) : Prop :=
  (48 <= nat_of_ascii ch <= 57)%nat.

(** What may stand between the integer and [.sql]: nothing, or an
    underscore and a label in which there is no dot. *)
Definition label_suffix (suffix : string) : Prop :=
  suffix = EmptyString
  \/ exists label, suffix = String "_" label /\ has_char "." label = false.

Definition signed (sign : string) (n : Z) : Z :=
  if (sign =? "-")%string then - n else n.

(** The names [parseFileName] accepts, with the version each gives: an
    optional sign, decimal digits, a label suffix and [.sql], the signed
    value of the digits fitting in an [int]. *)
Definition accepted_name (name : string) (v : Z) : Prop :=
  exists sign ds suffix,
    name = (sign ++ digit_string ds ++ suffix ++ ".sql")%string
    /\ (sign = EmptyString \/ sign = "+"%string \/ sign = "-"%string)
    /\ ds <> [] /\ Forall (fun d => (d < 10)%nat) ds
    /\ label_suffix suffix
    /\ v = signed sign (decimal ds)
    /\ minInt <= v <= maxInt.

(** The migrations [List] returns: one for each entry that is not a
    directory, in the order of the entries. *)
Inductive listed (path : string) : list DirEntry -> list fileMigration -> Prop :=
| listed_nil : listed path [] []
| listed_dir e dir ms :
    IsDir e = true -> listed path dir ms -> listed path (e :: dir) ms
| listed_file e dir ms v :
    IsDir e = false ->
    parseFileName (Join path (Name e)) = Some v ->
    listed path dir ms ->
    listed path (e :: dir)
      ({| filepath := Join path (Name e); version := v |} :: ms).

(** The convention as the interface section words it: an integer, then
    nothing or an underscore and a label, then a dot and an extension. *)
Definition follows_convention (name : string) : Prop :=
  exists ds label ext,
    ds <> [] /\ Forall (fun d => (d < 10)%nat) ds /\ ext <> EmptyString
    /\ (name = (digit_string ds ++ "." ++ ext)%string
        \/ name = (digit_string ds ++ "_" ++ label ++ "." ++ ext)%string).

Definition stated_file_convention : Prop :=
  forall dir name,
    follows_convention name ->
    exists v, parseFileName (Join dir name) = Some v.

(** ** FilesystemProvider: file contents *)

Definition sqlUpSeparator : string := "--UP--".
Definition sqlDownSeparator : string := "--DOWN--".
Definition sqlSnapshotSeparator : string := "--SNAPSHOT--".

Definition LF : ascii := "010"%char.
Definition CR : ascii := "013"%char.

(** The lines [bufio.ScanLines] finds, before it drops a carriage
    return: the text up to each newline, and the text after the last
    newline if there is some. *)
Fixpoint split_lines (s : string) : list string :=
  match s with
  | EmptyString => []
  | String c rest =>
      if Ascii.eqb c LF then EmptyString :: split_lines rest
      else
        match split_lines rest with
        | h :: t => String c h :: t
        | [] => [String c EmptyString]
        end
  end.

(** [dropCR]: a carriage return at the end of the line is dropped, one
    only. *)
Fixpoint dropCR (s : string) : string :=
  match s with
  | EmptyString => EmptyString
  | String c rest =>
      match rest with
      | EmptyString => if Ascii.eqb c CR then EmptyString else s
      | _ => String c (dropCR rest)
      end
  end.

(** [bufio.MaxScanTokenSize], the size the buffer of a [Scanner] grows
    to. *)
Definition MaxScanTokenSize : Z := 64 * 1024.

(** The lines the calls of [s.Scan()] give to the loop of
    [parseFileContent], for a reader that reports the end of the data by
    a read of its own, as the files of [embed.FS] and [os] do.  A line
    that fills the buffer before its end is seen makes [Scan] return
    false with [ErrTooLong]: the loop ends there, and the function never
    looks at [s.Err()]. *)
Fixpoint scan_tokens (lines : list string) : list string :=
  match lines with
  | [] => []
  | l :: rest =>
      if Z.of_nat (String.length l) <? MaxScanTokenSize
      then dropCR l :: scan_tokens rest
      else []
  end.

Definition Scan (content : string) : list string :=
  scan_tokens (split_lines content).

(** The table [asciiSpace] of package [bytes]. *)
Definition asciiSpace (c : ascii) : bool :=
  let n := nat_of_ascii c in
  ((9 <=? n) && (n <=? 13) || (n =? 32))%nat.

(** The white space of [unicode.IsSpace] that UTF-8 writes with two
    bytes, U+0085 and U+00A0, and with three: U+1680, U+2000 to U+200A,
    U+2028, U+2029, U+202F, U+205F and U+3000. *)
Definition space2 (c1 c2 : ascii) : bool :=
  let n1 := nat_of_ascii c1 in
  let n2 := nat_of_ascii c2 in
  ((n1 =? 194) && ((n2 =? 133) || (n2 =? 160)))%nat.

Definition space3 (c1 c2 c3 : ascii) : bool :=
  let n1 := nat_of_ascii c1 in
  let n2 := nat_of_ascii c2 in
  let n3 := nat_of_ascii c3 in
  ((n1 =? 225) && (n2 =? 154) && (n3 =? 128)
   || (n1 =? 226) && (n2 =? 128)
      && ((128 <=? n3) && (n3 <=? 138)
          || (n3 =? 168) || (n3 =? 169) || (n3 =? 175))
   || (n1 =? 226) && (n2 =? 129) && (n3 =? 159)
   || (n1 =? 227) && (n2 =? 128) && (n3 =? 128))%nat.

(** The bytes that are left once the white space at the head is removed;
    [sp2] and [sp3] say which sequences of two and three bytes are white
    space. *)
Fixpoint trim_runes (sp2 : ascii -> ascii -> bool)
    (sp3 : ascii -> ascii -> ascii -> bool) (s : list ascii) : list ascii :=
  match s with
  | [] => []
  | c1 :: r1 =>
      if asciiSpace c1 then trim_runes sp2 sp3 r1
      else
        match r1 with
        | [] => s
        | c2 :: r2 =>
            if sp2 c1 c2 then trim_runes sp2 sp3 r2
            else
              match r2 with
              | [] => s
              | c3 :: r3 =>
                  if sp3 c1 c2 c3 then trim_runes sp2 sp3 r3 else s
              end
        end
  end.

(** [bytes.TrimLeftFunc(s, unicode.IsSpace)]. *)
Definition TrimLeft (s : list ascii) : list ascii :=
  trim_runes space2 space3 s.

(** [bytes.TrimRightFunc(s, unicode.IsSpace)]: the same from the end,
    where the bytes of a character are met last byte first. *)
Definition TrimRight (s : list ascii) : list ascii :=
  rev (trim_runes (fun c1 c2 => space2 c2 c1)
                  (fun c1 c2 c3 => space3 c3 c2 c1) (rev s)).

(** [bytes.TrimSpace]. *)
Definition TrimSpace (s : string) : string :=
  string_of_list_ascii (TrimRight (TrimLeft (list_ascii_of_string s))).

Module Loc.
Inductive t : Type := outside | up | down | snapshot.
End Loc.

(** The three buffers of [parseFileContent]. *)
Record Buffers : Type := {
  bUp : string;
  bDown : string;
  bSnapshot : string
}.

(** [b.Write(line); b.WriteByte('\n')]. *)
Definition write_line (b line : string) : string :=
  (b ++ line ++ String LF EmptyString)%string.

(** The body of the loop of [parseFileContent]. *)
Definition scan_step (st : Loc.t * Buffers) (line : string) : Loc.t * Buffers :=
  let (loc, b) := st in
  if (line =? sqlUpSeparator)%string then (Loc.up, b)
  else if (line =? sqlDownSeparator)%string then (Loc.down, b)
  else if (line =? sqlSnapshotSeparator)%string then (Loc.snapshot, b)
  else
    match loc with
    | Loc.up =>
        (loc, {| bUp := write_line (bUp b) line;
                 bDown := bDown b;
                 bSnapshot := bSnapshot b |})
    | Loc.down =>
        (loc, {| bUp := bUp b;
                 bDown := write_line (bDown b) line;
                 bSnapshot := bSnapshot b |})
    | Loc.snapshot =>
        (loc, {| bUp := bUp b;
                 bDown := bDown b;
                 bSnapshot := write_line (bSnapshot b) line |})
    | Loc.outside => (loc, b)
    end.

Definition no_text : Buffers :=
  {| bUp := EmptyString; bDown := EmptyString; bSnapshot := EmptyString |}.

(** [parseFileContent], given the bytes the reader delivers: the texts
    of the up, down and snapshot sections. *)
Definition parseFileContent (content : string) : string * string * string :=
  let b := snd (fold_left scan_step (Scan content) (Loc.outside, no_text)) in
  (TrimSpace (bUp b), TrimSpace (bDown b), TrimSpace (bSnapshot b)).

(** The file system as [read] uses it: for a path, the error of [Open]
    or the bytes of the file. *)
Definition FS : Type := string -> result string.

Module FileMigration.

(** [type fileMigration struct], with what [read] stores in it. *)
Record t : Type := mk {
  filepath : string;
  version : Z;
  isRead : bool;
  up : string;
  down : string;
  snapshot : string
}.

Definition Version (m : t) : Z := version m.

(** [read]; the file system is the one at the time of the call. *)
Definition read (fsys : FS) (m : t) : t * option error :=
  if isRead m then (m, None)
  else
    match fsys (filepath m) with
    | Err err => (m, Some err)
    | Ok content =>
        let '(u, d, s) := parseFileContent content in
        ({| filepath := filepath m;
            version := version m;
            isRead := true;
            up := u;
            down := d;
            snapshot := s |}, None)
    end.

Definition Up (fsys : FS) (m : t) : t * result string :=
  match read fsys m with
  | (m', Some err) => (m', Err err)
  | (m', None) => (m', Ok (up m'))
  end.

Definition Down (fsys : FS) (m : t) : t * result string :=
  match read fsys m with
  | (m', Some err) => (m', Err err)
  | (m', None) => (m', Ok (down m'))
  end.

Definition Snapshot (fsys : FS) (m : t) : t * result string :=
  match read fsys m with
  | (m', Some err) => (m', Err err)
  | (m', None) => (m', Ok (snapshot m'))
  end.

End FileMigration.

(** The value [List] appends for a file: [&fileMigration{fs, filepath,
    version}], nothing read yet. *)
Definition newFileMigration (m : fileMigration) : FileMigration.t :=
  {| FileMigration.filepath := filepath m;
     FileMigration.version := version m;
     FileMigration.isRead := false;
     FileMigration.up := EmptyString;
     FileMigration.down := EmptyString;
     FileMigration.snapshot := EmptyString |}.

(** The text of each line followed by a newline. *)
Definition unlines (ls : list string) : string :=
  fold_right (fun l s => (l ++ String LF s)%string) EmptyString ls.

(** [testdata/1_test.sql]. *)
Definition testdata_1 : string :=
  unlines
    [ "/*";
      "   Everything before --UP-- must be ignored";
      " */";
      "";
      "SELECT *";
      "FROM test;";
      "";
      "--UP--";
      "";
      "CREATE TABLE test";
      "(";
      "    id   bigint    NOT NULL,";
      "    time timestamp NOT NULL,";
      "    PRIMARY KEY (id)";
      ");";
      "";
      "--DOWN--";
      "";
      "DROP TABLE test;" ]%string.

(** The constants [sqlUp1[1:]] and [sqlDown1[1:]] of the test. *)
Definition sqlUp1 : string :=
  ("CREATE TABLE test" ++ String LF
   ("(" ++ String LF
   ("    id   bigint    NOT NULL," ++ String LF
   ("    time timestamp NOT NULL," ++ String LF
   ("    PRIMARY KEY (id)" ++ String LF
    ");")))))%string.

Definition sqlDown1 : string := "DROP TABLE test;".

(** ** Notions the further properties are stated with *)

(** The text of a migration that a wrapped error names. *)
Definition payload (k : LoadKind) (m : Migration) : result string :=
  match k with
  | LoadSnapshot => Snapshot m
  | LoadUp => Up m
  | LoadDown => Down m
  end.

(** The catalog has a migration with this version. *)
Definition has_version (catalog : list Migration) (v : Z) : bool :=
  existsb (fun m => Version m =? v) catalog.

(** One of the three separator lines. *)
Definition is_separator (l : string) : bool :=
  ((l =? sqlUpSeparator) || (l =? sqlDownSeparator)
   || (l =? sqlSnapshotSeparator))%string.

(** A line the scanner returns whole: it has no newline in it and is
    shorter than the buffer. *)
Definition fits (l : string) : Prop :=
  has_char LF l = false /\ Z.of_nat (String.length l) < MaxScanTokenSize.

(** A line of text: it fits, does not end with a carriage return and is
    no separator. *)
Definition text_line (l : string) : Prop :=
  fits l /\ dropCR l = l /\ is_separator l = false.

Definition separator (k : LoadKind) : string :=
  match k with
  | LoadSnapshot => sqlSnapshotSeparator
  | LoadUp => sqlUpSeparator
  | LoadDown => sqlDownSeparator
  end.

Definition same_kind (k k' : LoadKind) : bool :=
  match k, k' with
  | LoadSnapshot, LoadSnapshot | LoadUp, LoadUp | LoadDown, LoadDown => true
  | _, _ => false
  end.

(** A file written as a sequence of sections, each a separator line
    and the lines that follow it. *)
Definition render (sections : list (LoadKind * list string)) : string :=
  unlines (flat_map (fun s => separator (fst s) :: snd s) sections).

(** The lines of the sections of one kind, in the order of the file. *)
Definition section_lines (k : LoadKind)
    (sections : list (LoadKind * list string)) : list string :=
  flat_map (fun s => if same_kind k (fst s) then snd s else []) sections.

(** [s] begins with a white space character. *)
Definition starts_with_space (sp2 : ascii -> ascii -> bool)
    (sp3 : ascii -> ascii -> ascii -> bool) (s : list ascii) : bool :=
  match s with
  | [] => false
  | c1 :: r1 =>
      asciiSpace c1
      || match r1 with
         | [] => false
         | c2 :: r2 =>
             sp2 c1 c2
             || match r2 with
                | [] => false
                | c3 :: _ => sp3 c1 c2 c3
                end
         end
  end.

(** The text a file migration holds for one kind of payload. *)
Definition stored (k : LoadKind) (m : FileMigration.t) : string :=
  match k with
  | LoadSnapshot => FileMigration.snapshot m
  | LoadUp => FileMigration.up m
  | LoadDown => FileMigration.down m
  end.

(** The method of a file migration that loads one kind of payload. *)
Definition load (k : LoadKind) (fsys : FS) (m : FileMigration.t)
  : FileMigration.t * result string :=
  match k with
  | LoadSnapshot => FileMigration.Snapshot fsys m
  | LoadUp => FileMigration.Up fsys m
  | LoadDown => FileMigration.Down fsys m
  end.

(** A sequence of calls of these methods on one file migration, each
    with the file system of its time; the results, in order. *)
Fixpoint load_all (calls : list (FS * LoadKind)) (m : FileMigration.t)
  : list (result string) :=
  match calls with
  | [] => []
  | (fsys, k) :: rest =>
      let (m', r) := load k fsys m in
      r :: load_all rest m'
  end.

(** A file migration as the planner sees it, when the file system does
    not change. *)
Definition fileAsMigration (fsys : FS) (m : FileMigration.t) : Migration :=
  {| Version := FileMigration.Version m;
     Up := snd (FileMigration.Up fsys m);
     Down := snd (FileMigration.Down fsys m);
     Snapshot := snd (FileMigration.Snapshot fsys m) |}.

(** * Properties *)

Ltac break_match :=
  repeat match goal with
    | |- context [if ?c then _ else _] => destruct c eqn:?
    | |- context [match ?r with Ok _ => _ | Err _ => _ end] => destruct r eqn:?
    | H : context [if ?c then _ else _] |- _ => destruct c eqn:?
    | H : context [match ?r with Ok _ => _ | Err _ => _ end] |- _ =>
        destruct r eqn:?
    end.

(** ** The tests of the package *)

Example TestMigrate_Plan_Up_3 :
  plan [tm1; tm2] [] 3 = Ok [upAction 1 "up1"; upAction 2 "up2"].
Proof. reflexivity. Qed.

Example TestMigrate_Plan_Down_0 :
  plan [tm1; tm2; tm3] [1; 2; 3] 0
  = Ok [downAction 3 "down3"; downAction 2 "down2"; downAction 1 "down1"].
Proof. reflexivity. Qed.

Example TestMigrate_Plan_Up_SkipGaps :
  plan [tm1; tm2; tm3; tm4] [1; 3] 4 = Ok [upAction 4 "up4"].
Proof. reflexivity. Qed.

Example TestMigrate_Plan_Up_SkipToSnapshot :
  plan [tm1; tm2s; tm3; tm4s; tm5] [] 5
  = Ok [upAction 4 "snapshot4"; upAction 5 "up5"].
Proof. reflexivity. Qed.

Example parseFileName_testdata_1 : parseFileName "testdata/1_init.sql" = Some 1.
Proof. reflexivity. Qed.

Example parseFileName_testdata_2 : parseFileName "testdata/2.sql" = Some 2.
Proof. reflexivity. Qed.

Example parseFileName_two_dots : parseFileName "testdata/3_a.b.sql" = None.
Proof. reflexivity. Qed.

Example parseFileName_no_number : parseFileName "testdata/init.sql" = None.
Proof. reflexivity. Qed.

Example parseFileName_too_big :
  parseFileName "testdata/9223372036854775808_x.sql" = None.
Proof. reflexivity. Qed.

(** ** Insertion sort: a sorted permutation, the only one *)

Section Sorting.
Variable A : Type.
Variable key : A -> Z.

Lemma insert_by_perm (x : A) (l : list A) :
  Permutation (insert_by key x l) (x :: l).
Proof.
  induction l as [|y l IH]; simpl.
  - apply Permutation_refl.
  - destruct (key x <? key y).
    + apply Permutation_refl.
    + eapply perm_trans; [apply perm_skip, IH | apply perm_swap].
Qed.

Lemma insert_by_In (x y : A) (l : list A) :
  In y (insert_by key x l) <-> y = x \/ In y l.
Proof.
  split; intro H.
  - apply (Permutation_in _ (insert_by_perm x l)) in H.
    destruct H as [H|H]; auto.
  - apply (Permutation_in _ (Permutation_sym (insert_by_perm x l))).
    destruct H as [H|H]; [left; auto | right; auto].
Qed.

Lemma insert_by_sorted (x : A) (l : list A) :
  StronglySorted (le_by key) l -> StronglySorted (le_by key) (insert_by key x l).
Proof.
  induction 1 as [|y l Hs IH Hall]; simpl.
  - constructor; constructor.
  - destruct (key x <? key y) eqn:E.
    + apply Z.ltb_lt in E.
      constructor; [constructor; assumption|].
      constructor; [unfold le_by; lia|].
      eapply Forall_impl; [|exact Hall].
      unfold le_by; intros; lia.
    + apply Z.ltb_ge in E.
      constructor; [assumption|].
      apply Forall_forall; intros z Hz.
      apply insert_by_In in Hz; destruct Hz as [->|Hz].
      * exact E.
      * rewrite Forall_forall in Hall; auto.
Qed.

Lemma fold_insert_perm (l acc : list A) :
  Permutation (fold_left (fun s x => insert_by key x s) l acc) (acc ++ l).
Proof.
  revert acc; induction l as [|x l IH]; intro acc; simpl.
  - rewrite app_nil_r; apply Permutation_refl.
  - eapply perm_trans; [apply IH|].
    eapply perm_trans;
      [apply Permutation_app_tail, insert_by_perm|].
    simpl. apply Permutation_cons_app, Permutation_refl.
Qed.

Lemma fold_insert_sorted (l acc : list A) :
  StronglySorted (le_by key) acc ->
  StronglySorted (le_by key) (fold_left (fun s x => insert_by key x s) l acc).
Proof.
  revert acc; induction l as [|x l IH]; intros acc H; simpl; auto.
  apply IH, insert_by_sorted, H.
Qed.

Lemma sort_by_perm (l : list A) : Permutation (sort_by key l) l.
Proof. apply (fold_insert_perm l []). Qed.

Lemma sort_by_sorted (l : list A) : StronglySorted (le_by key) (sort_by key l).
Proof. apply fold_insert_sorted; constructor. Qed.

Lemma sort_by_In (l : list A) (x : A) : In x (sort_by key l) <-> In x l.
Proof.
  split; apply Permutation_in;
    [apply sort_by_perm | apply Permutation_sym, sort_by_perm].
Qed.

Lemma sort_by_nil (l : list A) : sort_by key l = [] <-> l = [].
Proof.
  split; intro H.
  - apply Permutation_nil. rewrite <- H. apply sort_by_perm.
  - subst; reflexivity.
Qed.

(** Two sorted permutations of a list whose keys identify its elements
    are the same list. *)
Lemma sorted_perm_unique (l1 l2 : list A) :
  Permutation l1 l2 ->
  StronglySorted (le_by key) l1 -> StronglySorted (le_by key) l2 ->
  (forall a b, In a l1 -> In b l1 -> key a = key b -> a = b) ->
  l1 = l2.
Proof.
  revert l2; induction l1 as [|x l1 IH]; intros l2 Hp H1 H2 Hinj.
  - apply Permutation_nil in Hp; subst; reflexivity.
  - destruct l2 as [|y l2].
    + apply Permutation_sym, Permutation_nil in Hp; discriminate.
    + inversion H1 as [|? ? Hs1 Ha1]; subst.
      inversion H2 as [|? ? Hs2 Ha2]; subst.
      rewrite Forall_forall in Ha1, Ha2.
      assert (Hxy : x = y).
      { assert (Hy : In y (x :: l1))
          by (apply (Permutation_in _ (Permutation_sym Hp)); left; auto).
        assert (Hx : In x (y :: l2))
          by (apply (Permutation_in _ Hp); left; auto).
        destruct Hy as [Hy|Hy]; [auto|].
        destruct Hx as [Hx|Hx]; [auto|].
        apply Hinj; [left; auto | right; auto |].
        specialize (Ha1 _ Hy); specialize (Ha2 _ Hx).
        unfold le_by in *; lia. }
      subst y. f_equal.
      apply IH; auto.
      * eapply Permutation_cons_inv; eauto.
      * intros a b Ha Hb; apply Hinj; right; auto.
Qed.

Lemma sort_by_perm_eq (l1 l2 : list A) :
  Permutation l1 l2 ->
  (forall a b, In a l1 -> In b l1 -> key a = key b -> a = b) ->
  sort_by key l1 = sort_by key l2.
Proof.
  intros Hp Hinj. apply sorted_perm_unique.
  - eapply perm_trans; [apply sort_by_perm|].
    eapply perm_trans; [exact Hp|].
    apply Permutation_sym, sort_by_perm.
  - apply sort_by_sorted.
  - apply sort_by_sorted.
  - intros a b Ha Hb. apply Hinj; apply sort_by_In; assumption.
Qed.

Lemma sorted_by_map (l : list A) :
  StronglySorted (le_by key) l <-> StronglySorted Z.le (map key l).
Proof.
  induction l as [|x l IH]; simpl; split; intro H; try constructor;
    inversion H as [|? ? Hs Ha]; subst.
  - apply IH, Hs.
  - rewrite Forall_map. exact Ha.
  - apply IH, Hs.
  - rewrite Forall_map in Ha. exact Ha.
Qed.
End Sorting.

Lemma StronglySorted_app_inv {A : Type} (R : A -> A -> Prop) (l1 l2 : list A) :
  StronglySorted R (l1 ++ l2) ->
  StronglySorted R l1 /\ StronglySorted R l2
  /\ (forall a b, In a l1 -> In b l2 -> R a b).
Proof.
  induction l1 as [|x l1 IH]; simpl; intro H.
  - repeat split; [constructor | assumption | intros a b []].
  - inversion H as [|? ? Hs Ha]; subst.
    destruct (IH Hs) as (H1 & H2 & H12).
    rewrite Forall_app in Ha; destruct Ha as [Ha1 Ha2].
    rewrite Forall_forall in Ha2.
    repeat split; auto.
    + constructor; auto.
    + intros a b [->|Ha] Hb; auto.
Qed.

Lemma StronglySorted_app {A : Type} (R : A -> A -> Prop) (l1 l2 : list A) :
  StronglySorted R l1 -> StronglySorted R l2 ->
  (forall a b, In a l1 -> In b l2 -> R a b) ->
  StronglySorted R (l1 ++ l2).
Proof.
  induction l1 as [|x l1 IH]; simpl; intros H1 H2 H12; auto.
  inversion H1 as [|? ? Hs Ha]; subst.
  constructor.
  - apply IH; auto.
  - apply Forall_app; split; auto.
    apply Forall_forall; intros b Hb; apply H12; auto.
Qed.

(** A list sorted for [<=] without repeated elements is sorted for [<]. *)
Lemma sorted_le_NoDup_lt (l : list Z) :
  StronglySorted Z.le l -> NoDup l -> StronglySorted Z.lt l.
Proof.
  induction 1 as [|x l Hs IH Ha]; intro Hnd; constructor.
  - apply IH. inversion Hnd; assumption.
  - inversion Hnd as [|? ? Hnin _]; subst.
    rewrite Forall_forall in *. intros y Hy.
    specialize (Ha _ Hy).
    assert (x <> y) by (intros ->; contradiction).
    lia.
Qed.

Lemma sortInts_sorted (l : list Z) : StronglySorted Z.le (sortInts l).
Proof.
  pose proof (sort_by_sorted Z (fun x : Z => x) l) as H.
  apply sorted_by_map in H. rewrite map_id in H. exact H.
Qed.

Lemma sortInts_In (l : list Z) (v : Z) : In v (sortInts l) <-> In v l.
Proof. apply sort_by_In. Qed.

Lemma sortInts_perm (l : list Z) : Permutation (sortInts l) l.
Proof. apply sort_by_perm. Qed.

Lemma sortMigrations_sorted (ms : list Migration) :
  StronglySorted Z.le (map Version (sortMigrations ms)).
Proof. apply (proj1 (sorted_by_map _ Version _)), sort_by_sorted. Qed.

Lemma sortMigrations_In (ms : list Migration) (m : Migration) :
  In m (sortMigrations ms) <-> In m ms.
Proof. apply sort_by_In. Qed.

Lemma sortMigrations_versions (ms : list Migration) (v : Z) :
  In v (map Version (sortMigrations ms)) <-> In v (map Version ms).
Proof.
  rewrite !in_map_iff; split; intros (m & <- & Hm); exists m; split; auto;
    apply sortMigrations_In; assumption.
Qed.

(** ** Binary search *)

(** The loop ends before its fuel does: more fuel changes nothing. *)
Lemma search_loop_fuel (f : nat -> bool) (fuel fuel' i j : nat) :
  (j - i <= fuel)%nat -> (j - i <= fuel')%nat ->
  search_loop fuel f i j = search_loop fuel' f i j.
Proof.
  revert fuel' i j; induction fuel as [|fuel IH]; intros fuel' i j H H'.
  - destruct fuel' as [|fuel']; simpl; auto.
    replace (i <? j)%nat with false; auto.
    symmetry; apply Nat.ltb_ge; lia.
  - destruct fuel' as [|fuel']; simpl.
    + replace (i <? j)%nat with false; auto.
      symmetry; apply Nat.ltb_ge; lia.
    + destruct (i <? j)%nat eqn:E; auto.
      apply Nat.ltb_lt in E.
      assert (Hh : (i <= Nat.div2 (i + j) < j)%nat).
      { rewrite Nat.div2_div.
        split; [apply Nat.div_le_lower_bound
               | apply Nat.Div0.div_lt_upper_bound]; lia. }
      destruct (f (Nat.div2 (i + j))); simpl; apply IH; lia.
Qed.

Section BinarySearch.
Variable n : nat.
Variable f : nat -> bool.
Hypothesis f_mono :
  forall a b, (a <= b)%nat -> (b < n)%nat -> f a = true -> f b = true.

Lemma search_loop_spec (fuel i j : nat) :
  (i <= j)%nat -> (j <= n)%nat -> (j - i <= fuel)%nat ->
  (forall k, (k < i)%nat -> f k = false) ->
  (forall k, (j <= k)%nat -> (k < n)%nat -> f k = true) ->
  (i <= search_loop fuel f i j <= j)%nat
  /\ (forall k, (k < search_loop fuel f i j)%nat -> f k = false)
  /\ (forall k, (search_loop fuel f i j <= k)%nat -> (k < n)%nat -> f k = true).
Proof.
  revert i j; induction fuel as [|fuel IH]; intros i j Hij Hjn Hfuel Hlo Hhi;
    simpl.
  - assert (i = j) by lia; subst. repeat split; auto; lia.
  - destruct (i <? j)%nat eqn:E.
    + apply Nat.ltb_lt in E.
      assert (Hh : (i <= Nat.div2 (i + j) < j)%nat).
      { rewrite Nat.div2_div.
        split; [apply Nat.div_le_lower_bound | apply Nat.Div0.div_lt_upper_bound];
          lia. }
      set (h := Nat.div2 (i + j)) in *.
      destruct (f h) eqn:Fh; simpl.
      * destruct (IH i h) as (Hr & Hl & Hu); try lia; auto.
        { intros k Hk Hkn. apply (f_mono h); auto. }
        repeat split; auto; lia.
      * destruct (IH (S h) j) as (Hr & Hl & Hu); try lia; auto.
        { intros k Hk. destruct (f k) eqn:Fk; auto.
          rewrite (f_mono k h) in Fh; try lia; auto. }
        repeat split; auto; lia.
    + apply Nat.ltb_ge in E. assert (i = j) by lia; subst.
      repeat split; auto; lia.
Qed.

Lemma Search_spec :
  (Search n f <= n)%nat
  /\ (forall k, (k < Search n f)%nat -> f k = false)
  /\ (forall k, (Search n f <= k)%nat -> (k < n)%nat -> f k = true).
Proof.
  unfold Search.
  destruct (search_loop_spec n 0%nat n) as (Hr & Hl & Hu);
    try lia.
  repeat split; auto; lia.
Qed.
End BinarySearch.

Lemma sorted_nth_le (l : list Z) (i j : nat) :
  StronglySorted Z.le l -> (i <= j)%nat -> (j < List.length l)%nat ->
  nth i l 0 <= nth j l 0.
Proof.
  intro Hs; revert i j; induction Hs as [|x l Hs IH Ha]; intros i j Hij Hj.
  - simpl in Hj; lia.
  - destruct i as [|i], j as [|j]; simpl in *; try lia.
    + rewrite Forall_forall in Ha. apply Ha, nth_In; lia.
    + apply IH; lia.
Qed.

(** On a sorted list the planner's test is membership. *)
Lemma is_applied_In (l : list Z) (v : Z) :
  StronglySorted Z.le l -> (is_applied l v = true <-> In v l).
Proof.
  intro Hs. unfold is_applied, SearchInts.
  set (f := fun i : nat => v <=? nth i l 0).
  assert (Hmono : forall a b, (a <= b)%nat -> (b < List.length l)%nat ->
                              f a = true -> f b = true).
  { unfold f; intros a b Hab Hb Ha. apply Z.leb_le in Ha. apply Z.leb_le.
    pose proof (sorted_nth_le _ _ _ Hs Hab Hb). lia. }
  destruct (@Search_spec _ _ Hmono) as (Hr & Hl & Hu).
  set (idx := Search (List.length l) f) in *.
  rewrite negb_true_iff, orb_false_iff, negb_false_iff.
  rewrite Nat.leb_gt, Z.eqb_eq.
  split.
  - intros [Hlt Heq]. rewrite <- Heq. apply nth_In; assumption.
  - intro Hin. destruct (In_nth _ _ 0 Hin) as (k & Hk & Hnth).
    assert (Hfk : f k = true) by (unfold f; apply Z.leb_le; lia).
    assert (Hik : (idx <= k)%nat).
    { destruct (Nat.le_gt_cases idx k) as [|Hgt]; auto.
      rewrite (Hl _ Hgt) in Hfk; discriminate. }
    split; [lia|].
    assert (Hfi : f idx = true) by (apply Hu; lia).
    unfold f in Hfi; apply Z.leb_le in Hfi.
    pose proof (sorted_nth_le _ _ _ Hs Hik Hk). lia.
Qed.

Lemma is_applied_sortInts (l : list Z) (v : Z) :
  is_applied (sortInts l) v = true <-> In v l.
Proof.
  rewrite is_applied_In by apply sortInts_sorted. apply sortInts_In.
Qed.

Lemma sorted_nth_error_le (ms : list Migration) (i j : nat) (a b : Migration) :
  StronglySorted Z.le (map Version ms) -> (i <= j)%nat ->
  nth_error ms i = Some a -> nth_error ms j = Some b ->
  Version a <= Version b.
Proof.
  intros Hs Hij Ha Hb.
  assert (Hj : (j < List.length ms)%nat)
    by (apply nth_error_Some; congruence).
  pose proof (sorted_nth_le (map Version ms) i j Hs Hij) as H.
  rewrite length_map in H. specialize (H Hj).
  rewrite (nth_error_nth _ _ 0 (map_nth_error Version _ _ Ha)) in H.
  rewrite (nth_error_nth _ _ 0 (map_nth_error Version _ _ Hb)) in H.
  exact H.
Qed.

(** On a list sorted by version, [find_migration] returns a migration of
    the list with the version asked for, and finds one when there is one. *)
Lemma find_migration_Some (ms : list Migration) (v : Z) (m : Migration) :
  find_migration ms v = Some m -> In m ms /\ Version m = v.
Proof.
  unfold find_migration.
  destruct (nth_error ms _) as [m'|] eqn:E; [|discriminate].
  destruct (Version m' =? v) eqn:Ev; [|discriminate].
  intros [= <-]. split.
  - eapply nth_error_In; eauto.
  - apply Z.eqb_eq; assumption.
Qed.

Lemma find_migration_In (ms : list Migration) (v : Z) :
  StronglySorted Z.le (map Version ms) ->
  In v (map Version ms) -> exists m, find_migration ms v = Some m.
Proof.
  intros Hs Hin. unfold find_migration.
  set (f := fun i : nat => match nth_error ms i with
                           | Some m => v <=? Version m
                           | None => false
                           end).
  assert (Hmono : forall a b, (a <= b)%nat -> (b < List.length ms)%nat ->
                              f a = true -> f b = true).
  { unfold f; intros a b Hab Hb Ha.
    destruct (nth_error ms a) as [ma|] eqn:Ea; [|discriminate].
    destruct (nth_error ms b) as [mb|] eqn:Eb.
    - apply Z.leb_le in Ha; apply Z.leb_le.
      pose proof (sorted_nth_error_le _ _ _ _ _ Hs Hab Ea Eb). lia.
    - apply nth_error_None in Eb; lia. }
  destruct (@Search_spec _ _ Hmono) as (Hr & Hl & Hu).
  set (idx := Search (List.length ms) f) in *.
  apply in_map_iff in Hin; destruct Hin as (m & Hv & Hm).
  destruct (In_nth_error _ _ Hm) as (k & Hk).
  assert (Hkn : (k < List.length ms)%nat)
    by (apply nth_error_Some; congruence).
  assert (Hfk : f k = true) by (unfold f; rewrite Hk; apply Z.leb_le; lia).
  assert (Hik : (idx <= k)%nat).
  { destruct (Nat.le_gt_cases idx k) as [|Hgt]; auto.
    rewrite (Hl _ Hgt) in Hfk; discriminate. }
  assert (Hfi : f idx = true) by (apply Hu; lia).
  unfold f in Hfi.
  destruct (nth_error ms idx) as [mi|] eqn:Ei; [|discriminate].
  apply Z.leb_le in Hfi.
  pose proof (sorted_nth_error_le _ _ _ _ _ Hs Hik Ei Hk).
  replace (Version mi =? v) with true by (symmetry; apply Z.eqb_eq; lia).
  eauto.
Qed.

Lemma find_migration_None (ms : list Migration) (v : Z) :
  StronglySorted Z.le (map Version ms) ->
  (find_migration ms v = None <-> ~ In v (map Version ms)).
Proof.
  intro Hs; split.
  - intros Hn Hin. destruct (find_migration_In _ _ Hs Hin) as (m & Hm).
    congruence.
  - intro Hnin. destruct (find_migration ms v) as [m|] eqn:E; auto.
    apply find_migration_Some in E. destruct E as [Hm Hv].
    exfalso; apply Hnin. apply in_map_iff; eauto.
Qed.

(** ** The forward walk *)

Lemma nonempty_true (s : string) : nonempty s = true <-> s <> "".
Proof.
  unfold nonempty; destruct s; simpl; split; intro H;
    try reflexivity; try discriminate; congruence.
Qed.

Section ForwardWalk.
Variable dbList : list Z.
Variable version : Z.

Let walk := walk_up dbList version.

Lemma walk_up_break (actions : list Action) (pm : Migration) rest :
  version < Version pm -> walk actions (pm :: rest) = Ok actions.
Proof.
  intro H; unfold walk; simpl.
  apply Z.ltb_lt in H; rewrite H; reflexivity.
Qed.

Lemma walk_up_applied (actions : list Action) (pm : Migration) rest :
  Version pm <= version -> is_applied dbList (Version pm) = true ->
  walk actions (pm :: rest) = walk [] rest.
Proof.
  intros H Ha; unfold walk; simpl.
  apply Z.ltb_ge in H; rewrite H, Ha; reflexivity.
Qed.

Lemma walk_up_snapshot (actions : list Action) (pm : Migration) rest s :
  Version pm <= version -> dbList = [] ->
  Snapshot pm = Ok s -> s <> "" ->
  walk actions (pm :: rest) = walk [upAction (Version pm) s] rest.
Proof.
  intros H Hdb Hs Hne; unfold walk; subst dbList; simpl.
  apply Z.ltb_ge in H; rewrite H, Hs.
  apply nonempty_true in Hne; unfold nonempty in Hne; rewrite Hne.
  reflexivity.
Qed.

Lemma walk_up_add (actions : list Action) (pm : Migration) rest up :
  Version pm <= version -> is_applied dbList (Version pm) = false ->
  dbList <> [] \/ Snapshot pm = Ok "" ->
  Up pm = Ok up ->
  walk actions (pm :: rest) = walk (actions ++ [upAction (Version pm) up]) rest.
Proof.
  intros H Ha Hc Hu; unfold walk; simpl.
  apply Z.ltb_ge in H; rewrite H, Ha, Hu; simpl.
  destruct Hc as [Hc|Hc].
  - destruct dbList; [congruence | reflexivity].
  - rewrite Hc; simpl. destruct (List.length dbList =? 0)%nat; reflexivity.
Qed.

(** The walk over a list goes through a prefix below the target first. *)
Lemma walk_up_app (pre rest : list Migration) (actions : list Action) :
  Forall (fun m => Version m <= version) pre ->
  walk actions (pre ++ rest)
  = bind (walk actions pre) (fun a => walk a rest).
Proof.
  unfold walk; intro H; revert actions.
  induction H as [|pm pre Hpm _ IH]; intro actions; simpl; auto.
  apply Z.ltb_ge in Hpm; rewrite Hpm.
  break_match; simpl; auto.
Qed.

(** What holds of the accumulated actions and of every action the walk
    can add holds of the result. *)
Lemma walk_up_Forall (P : Action -> Prop) (ms : list Migration) :
  (forall pm text,
      In pm ms -> Version pm <= version ->
      is_applied dbList (Version pm) = false ->
      Up pm = Ok text \/ (dbList = [] /\ Snapshot pm = Ok text) ->
      P (upAction (Version pm) text)) ->
  forall actions res,
    Forall P actions -> walk actions ms = Ok res -> Forall P res.
Proof.
  unfold walk; induction ms as [|pm ms IH]; intros HP actions res Hacts Hw;
    simpl in Hw.
  - injection Hw as <-; assumption.
  - assert (HP' : forall pm' text,
               In pm' ms -> Version pm' <= version ->
               is_applied dbList (Version pm') = false ->
               Up pm' = Ok text \/ (dbList = [] /\ Snapshot pm' = Ok text) ->
               P (upAction (Version pm') text))
      by (intros; apply HP; simpl; auto).
    specialize (IH HP').
    destruct (version <? Version pm) eqn:Hv.
    { injection Hw as <-; assumption. }
    apply Z.ltb_ge in Hv.
    destruct (is_applied dbList (Version pm)) eqn:Ha; simpl in Hw.
    { eapply IH; [|exact Hw]. constructor. }
    assert (Hup : forall up, Up pm = Ok up ->
                  Forall P (actions ++ [upAction (Version pm) up])).
    { intros up Hu. apply Forall_app; split; auto.
      constructor; [|constructor]. apply HP; simpl; auto. }
    destruct (List.length dbList =? 0)%nat eqn:Hl.
    + assert (dbList = []) by (destruct dbList; [auto | discriminate]).
      destruct (Snapshot pm) as [s|e] eqn:Hs; [|discriminate].
      destruct (0 <? String.length s)%nat.
      * eapply IH; [|exact Hw]. constructor; [|constructor].
        apply HP; simpl; auto.
      * destruct (Up pm) as [up|e] eqn:Hu; [|discriminate].
        eapply IH; [|exact Hw]. auto.
    + destruct (Up pm) as [up|e] eqn:Hu; [|discriminate].
      eapply IH; [|exact Hw]. auto.
Qed.

(** The versions of the result are in the order of the versions of the
    accumulated actions followed by those of the list. *)
Lemma walk_up_sorted (R : Z -> Z -> Prop) (ms : list Migration) :
  forall actions res,
    StronglySorted R (map Action.Version actions ++ map Version ms) ->
    walk actions ms = Ok res ->
    StronglySorted R (map Action.Version res).
Proof.
  unfold walk; induction ms as [|pm ms IH]; intros actions res Hs Hw;
    simpl in Hw.
  - injection Hw as <-. rewrite app_nil_r in Hs; assumption.
  - pose proof (StronglySorted_app_inv R _ _ Hs) as (Hl & Hr & _).
    assert (Hsnap : forall s, StronglySorted R
              (map Action.Version [upAction (Version pm) s] ++ map Version ms))
      by (intro s; exact Hr).
    assert (Hadd : forall up, StronglySorted R
              (map Action.Version (actions ++ [upAction (Version pm) up])
               ++ map Version ms)).
    { intro up. rewrite map_app, <- app_assoc. exact Hs. }
    assert (Hreset : StronglySorted R (map Action.Version [] ++ map Version ms)).
    { simpl. simpl in Hr. inversion Hr; assumption. }
    break_match; try discriminate;
      try (injection Hw as <-; assumption);
      (eapply IH; [|exact Hw]; auto).
Qed.

(** The last migration of a walked list is applied or gets an action. *)
Lemma walk_up_last (pre : list Migration) (m : Migration) actions res :
  Forall (fun m => Version m <= version) (pre ++ [m]) ->
  walk actions (pre ++ [m]) = Ok res ->
  is_applied dbList (Version m) = true
  \/ In (Version m) (map Action.Version res).
Proof.
  intros Hall Hw.
  apply Forall_app in Hall; destruct Hall as [Hpre Hm].
  rewrite walk_up_app in Hw by assumption.
  destruct (walk actions pre) as [a|e]; [|discriminate]; simpl in Hw.
  unfold walk in Hw; simpl in Hw.
  inversion Hm as [|? ? Hv _]; subst.
  apply Z.ltb_ge in Hv; rewrite Hv in Hw.
  destruct (is_applied dbList (Version m)); [left; reflexivity|right].
  simpl in Hw.
  break_match; try discriminate; injection Hw as <-;
    rewrite ?map_app; simpl; auto using in_or_app, in_eq.
Qed.

(** A walk that ends on an applied migration returns no action. *)
Lemma walk_up_ends_applied (pre : list Migration) (m : Migration) actions :
  Forall (fun m => Version m <= version) (pre ++ [m]) ->
  is_applied dbList (Version m) = true ->
  walk actions (pre ++ [m]) = bind (walk actions pre) (fun _ => Ok []).
Proof.
  intros Hall Ha.
  apply Forall_app in Hall; destruct Hall as [Hpre Hm].
  inversion Hm as [|? ? Hv _]; subst.
  rewrite walk_up_app by assumption.
  destruct (walk actions pre) as [a|e]; simpl; auto.
  rewrite walk_up_applied by assumption. reflexivity.
Qed.

(** If nothing below the target is left to apply, the walk returns no
    action and reads no text. *)
Lemma walk_up_all_applied (ms : list Migration) :
  Forall (fun m => Version m <= version ->
                   is_applied dbList (Version m) = true) ms ->
  walk [] ms = Ok [].
Proof.
  unfold walk; induction 1 as [|pm ms Hpm _ IH]; simpl; auto.
  destruct (version <? Version pm) eqn:Hv; auto.
  apply Z.ltb_ge in Hv. rewrite (Hpm Hv). simpl. exact IH.
Qed.
End ForwardWalk.

Lemma walked_below (version : Z) (ms : list Migration) :
  Forall (fun m => Version m <= version) (walked version ms).
Proof.
  induction ms as [|pm ms IH]; simpl; [constructor|].
  destruct (version <? Version pm) eqn:Hv; constructor; auto.
  apply Z.ltb_ge; assumption.
Qed.

Lemma walk_up_walked dbList version actions ms :
  walk_up dbList version actions ms
  = walk_up dbList version actions (walked version ms).
Proof.
  revert actions; induction ms as [|pm ms IH]; intro actions; simpl; auto.
  destruct (version <? Version pm) eqn:Hv; simpl; auto.
  rewrite Hv. rewrite !IH.
  break_match; auto.
Qed.

Lemma walked_incl (version : Z) (ms : list Migration) (m : Migration) :
  In m (walked version ms) -> In m ms.
Proof.
  induction ms as [|pm ms IH]; simpl; auto.
  destruct (version <? Version pm); simpl; [tauto|].
  intros [H|H]; auto.
Qed.

Lemma sorted_prefix_below (version : Z) (pre post : list Migration) (m : Migration) :
  StronglySorted Z.le (map Version (pre ++ m :: post)) ->
  Version m <= version ->
  Forall (fun m' => Version m' <= version) (pre ++ [m]).
Proof.
  intros Hs Hv. rewrite map_app in Hs.
  apply StronglySorted_app_inv in Hs. destruct Hs as (_ & _ & H).
  apply Forall_app; split; [|constructor; auto].
  apply Forall_forall; intros m' Hm'.
  specialize (H (Version m') (Version m) (in_map Version _ _ Hm')).
  simpl in H. specialize (H (or_introl eq_refl)). lia.
Qed.

(** ** The backward walk *)

Section BackwardWalk.
Variable provList : list Migration.
Variable version : Z.

Let walk := walk_down provList version.

Lemma walk_down_Forall (P : Action -> Prop) (vs : list Z) :
  (forall v m text,
      In v vs -> version < v -> find_migration provList v = Some m ->
      Down m = Ok text -> P (downAction (Version m) text)) ->
  forall actions res,
    Forall P actions -> walk actions vs = Ok res -> Forall P res.
Proof.
  unfold walk; induction vs as [|v vs IH]; intros HP actions res Hacts Hw;
    simpl in Hw.
  - injection Hw as <-; assumption.
  - assert (HP' : forall v' m text,
               In v' vs -> version < v' ->
               find_migration provList v' = Some m ->
               Down m = Ok text -> P (downAction (Version m) text))
      by (intros; eapply HP; simpl; eauto).
    specialize (IH HP').
    destruct (v <=? version) eqn:Hv.
    { injection Hw as <-; assumption. }
    apply Z.leb_gt in Hv.
    destruct (find_migration provList v) as [m|] eqn:Hf.
    + destruct (Down m) as [down|e] eqn:Hd; [|discriminate].
      eapply IH; [|exact Hw].
      apply Forall_app; split; auto.
      constructor; [|constructor]. eapply HP; simpl; eauto.
    + eapply IH; eauto.
Qed.

Lemma walk_down_sorted (R : Z -> Z -> Prop) (vs : list Z) :
  forall actions res,
    StronglySorted R (map Action.Version actions ++ vs) ->
    walk actions vs = Ok res ->
    StronglySorted R (map Action.Version res).
Proof.
  unfold walk; induction vs as [|v vs IH]; intros actions res Hs Hw;
    simpl in Hw.
  - injection Hw as <-. rewrite app_nil_r in Hs; assumption.
  - pose proof (StronglySorted_app_inv R _ _ Hs) as (Hl & Hr & Hlr).
    destruct (v <=? version).
    { injection Hw as <-; assumption. }
    destruct (find_migration provList v) as [m|] eqn:Hf.
    + destruct (Down m) as [down|e]; [|discriminate].
      apply find_migration_Some in Hf; destruct Hf as [_ Hm].
      eapply IH; [|exact Hw].
      rewrite map_app, <- app_assoc; simpl. rewrite Hm. exact Hs.
    + eapply IH; [|exact Hw].
      inversion Hr as [|? ? Hr' Ha]; subst.
      apply StronglySorted_app; auto.
      intros a b Ha' Hb. apply Hlr; simpl; auto.
Qed.

Lemma walk_down_extends (vs : list Z) :
  forall actions res,
    walk actions vs = Ok res -> exists new, res = actions ++ new.
Proof.
  unfold walk; induction vs as [|v vs IH]; intros actions res Hw;
    simpl in Hw.
  - injection Hw as <-. exists []. rewrite app_nil_r; reflexivity.
  - destruct (v <=? version).
    { injection Hw as <-. exists []. rewrite app_nil_r; reflexivity. }
    destruct (find_migration provList v) as [m|].
    + destruct (Down m) as [down|e]; [|discriminate].
      destruct (IH _ _ Hw) as (new & ->).
      rewrite <- app_assoc. eauto.
    + eauto.
Qed.

(** Every recorded version above the target that the provider knows
    gets a backward action. *)
Lemma walk_down_covers (vs : list Z) :
  StronglySorted Z.le (map Version provList) ->
  StronglySorted Z.ge vs ->
  forall actions res v,
    walk actions vs = Ok res ->
    In v vs -> version < v -> In v (map Version provList) ->
    In v (map Action.Version res).
Proof.
  unfold walk; intros Hprov Hs.
  induction Hs as [|h vs Hs IH Ha]; intros actions res v Hw Hin Hv Hcat;
    simpl in Hw.
  - destruct Hin.
  - rewrite Forall_forall in Ha.
    assert (Hh : version < h).
    { destruct Hin as [->|Hin]; auto. specialize (Ha _ Hin). lia. }
    apply Z.leb_gt in Hh; rewrite Hh in Hw.
    destruct Hin as [->|Hin].
    + destruct (find_migration_In _ _ Hprov Hcat) as (m & Hm).
      rewrite Hm in Hw.
      destruct (Down m) as [down|e]; [|discriminate].
      apply find_migration_Some in Hm; destruct Hm as [_ Hm].
      destruct (walk_down_extends _ _ _ Hw) as (new & ->).
      rewrite !map_app; simpl. rewrite Hm.
      apply in_or_app; left. apply in_or_app; right. left; reflexivity.
    + destruct (find_migration provList h) as [m|].
      * destruct (Down m) as [down|e]; [|discriminate].
        eapply IH; eauto.
      * eapply IH; eauto.
Qed.

(** Versions the provider does not know are skipped. *)
Lemma walk_down_unknown (vs : list Z) (actions : list Action) :
  Forall (fun v => version < v -> ~ In v (map Version provList)) vs ->
  StronglySorted Z.le (map Version provList) ->
  walk actions vs = Ok actions.
Proof.
  unfold walk; intros Hall Hprov.
  induction Hall as [|v vs Hv _ IH]; simpl; auto.
  destruct (v <=? version) eqn:E; auto.
  apply Z.leb_gt in E.
  apply (find_migration_None _ _ Hprov) in Hv; auto.
  rewrite Hv. exact IH.
Qed.
End BackwardWalk.

(** ** The latest applied version *)

Lemma sorted_last_upper (l : list Z) (v : Z) :
  StronglySorted Z.le l -> In v l -> v <= last l 0.
Proof.
  intro Hs; revert v.
  induction Hs as [|x l Hs IH Ha]; intros v Hin; [destruct Hin|].
  rewrite Forall_forall in Ha.
  destruct l as [|y l]; simpl in Hin.
  - destruct Hin as [->|[]]. simpl. lia.
  - change (last (x :: y :: l) 0) with (last (y :: l) 0).
    destruct Hin as [<-|Hin].
    + specialize (Ha y (or_introl eq_refl)).
      specialize (IH y (or_introl eq_refl)). lia.
    + apply IH. exact Hin.
Qed.

Lemma last_In (l : list Z) : l <> [] -> In (last l 0) l.
Proof.
  induction l as [|x l IH]; [congruence|]; intros _.
  destruct l as [|y l]; [left; reflexivity|].
  right. apply IH. discriminate.
Qed.

Lemma latestApplied_nil : latestApplied [] = 0.
Proof. reflexivity. Qed.

Lemma latestApplied_upper (l : list Z) (v : Z) :
  In v l -> v <= latestApplied l.
Proof.
  intro H. apply sorted_last_upper; [apply sortInts_sorted|].
  apply sortInts_In; assumption.
Qed.

Lemma latestApplied_In (l : list Z) : l <> [] -> In (latestApplied l) l.
Proof.
  intro H. apply sortInts_In. apply last_In.
  intro E. apply sort_by_nil in E. contradiction.
Qed.

(** [latest] is the greatest recorded version, 0 when there is none. *)
Lemma latestApplied_max (l : list Z) (t : Z) :
  latestApplied l = t <->
  (l = [] /\ t = 0) \/ (In t l /\ Forall (fun v => v <= t) l).
Proof.
  split.
  - intros <-. destruct l as [|x l]; [left; auto|right].
    split; [apply latestApplied_In; discriminate|].
    apply Forall_forall; intros v Hv; apply latestApplied_upper; assumption.
  - intros [[-> ->]|[Hin Hall]]; [reflexivity|].
    rewrite Forall_forall in Hall.
    assert (Hne : l <> []) by (destruct l; [destruct Hin | discriminate]).
    pose proof (latestApplied_In l Hne) as H1.
    pose proof (latestApplied_upper l t Hin) as H2.
    specialize (Hall _ H1). lia.
Qed.

Lemma max_from_zero_spec (vs : list Z) :
  0 <= max_from_zero vs
  /\ Forall (fun v => v <= max_from_zero vs) vs
  /\ (max_from_zero vs = 0 \/ In (max_from_zero vs) vs).
Proof.
  unfold max_from_zero.
  assert (H : forall a,
             a <= fold_left (fun latest v => if latest <? v then v else latest) vs a
             /\ Forall (fun v => v <= fold_left (fun latest v =>
                                   if latest <? v then v else latest) vs a) vs
             /\ (fold_left (fun latest v => if latest <? v then v else latest) vs a
                 = a
                 \/ In (fold_left (fun latest v =>
                          if latest <? v then v else latest) vs a) vs)).
  { induction vs as [|v vs IH]; intro a; simpl.
    - repeat split; [lia | constructor | left; reflexivity].
    - destruct (a <? v) eqn:E.
      + apply Z.ltb_lt in E. destruct (IH v) as (H1 & H2 & H3).
        repeat split; [lia | constructor; auto | right].
        destruct H3 as [->|H3]; auto.
      + apply Z.ltb_ge in E. destruct (IH a) as (H1 & H2 & H3).
        repeat split; [lia | constructor; auto; lia |].
        destruct H3 as [H3|H3]; auto. }
  apply H.
Qed.

(** For versions that are not negative, [CurrentVersion] is [latest]. *)
Lemma CurrentVersion_latestApplied (l : list Z) :
  Forall (fun v => 0 <= v) l -> CurrentVersion l = latestApplied l.
Proof.
  intro Hpos. symmetry. apply latestApplied_max.
  unfold CurrentVersion.
  destruct (max_from_zero_spec l) as (H0 & Hall & [Hz|Hin]).
  - destruct l as [|x l]; [left; auto|right].
    split; [|exact Hall].
    rewrite Hz in *. rewrite Forall_forall in Hall, Hpos.
    assert (x = 0).
    { specialize (Hall x (or_introl eq_refl)).
      specialize (Hpos x (or_introl eq_refl)). lia. }
    subst; left; reflexivity.
  - right; auto.
Qed.

(** ** The three cases of [plan] *)

Lemma bind_Ok_r {A : Type} (r : result A) : bind r (fun a => Ok a) = r.
Proof. destruct r; reflexivity. Qed.

Lemma plan_nil (dbList : list Z) (version : Z) : plan [] dbList version = Ok [].
Proof. reflexivity. Qed.

Lemma plan_forward (provList : list Migration) (dbList : list Z) (version : Z) :
  provList <> [] -> latestApplied dbList < version ->
  plan provList dbList version
  = walk_up (sortInts dbList) version [] (sortMigrations provList).
Proof.
  intros Hne Hlt. unfold plan, latestApplied in *.
  destruct provList as [|m ms]; [congruence|].
  replace (last (sortInts dbList) 0 <? version) with true
    by (symmetry; apply Z.ltb_lt; lia).
  replace (version <? last (sortInts dbList) 0) with false
    by (symmetry; apply Z.ltb_ge; lia).
  apply bind_Ok_r.
Qed.

Lemma plan_backward (provList : list Migration) (dbList : list Z) (version : Z) :
  provList <> [] -> version < latestApplied dbList ->
  plan provList dbList version
  = walk_down (sortMigrations provList) version [] (rev (sortInts dbList)).
Proof.
  intros Hne Hlt. unfold plan, latestApplied in *.
  destruct provList as [|m ms]; [congruence|].
  replace (last (sortInts dbList) 0 <? version) with false
    by (symmetry; apply Z.ltb_ge; lia).
  replace (version <? last (sortInts dbList) 0) with true
    by (symmetry; apply Z.ltb_lt; lia).
  reflexivity.
Qed.

Lemma plan_noop (provList : list Migration) (dbList : list Z) :
  plan provList dbList (latestApplied dbList) = Ok [].
Proof.
  unfold plan, latestApplied.
  destruct provList as [|m ms]; [reflexivity|].
  rewrite Z.ltb_irrefl. reflexivity.
Qed.

Lemma StronglySorted_rev {A : Type} (R : A -> A -> Prop) (l : list A) :
  StronglySorted R l -> StronglySorted (fun a b => R b a) (rev l).
Proof.
  induction 1 as [|x l Hs IH Ha]; simpl; [constructor|].
  apply StronglySorted_app; auto.
  - repeat constructor.
  - rewrite Forall_forall in Ha.
    intros a b Hin [<-|[]]. apply Ha. apply in_rev; assumption.
Qed.

Lemma StronglySorted_impl {A : Type} (R R' : A -> A -> Prop) (l : list A) :
  (forall a b, R a b -> R' a b) -> StronglySorted R l -> StronglySorted R' l.
Proof.
  intro H; induction 1 as [|x l Hs IH Ha]; constructor; auto.
  eapply Forall_impl; [|exact Ha]. intros b Hb; apply H; exact Hb.
Qed.

Lemma sortMigrations_NoDup (ms : list Migration) :
  NoDup (map Version ms) -> StronglySorted Z.lt (map Version (sortMigrations ms)).
Proof.
  intro H. apply sorted_le_NoDup_lt; [apply sortMigrations_sorted|].
  eapply Permutation_NoDup; [|exact H].
  apply Permutation_map, Permutation_sym, sort_by_perm.
Qed.

Lemma sortInts_NoDup (l : list Z) :
  NoDup l -> StronglySorted Z.lt (sortInts l).
Proof.
  intro H. apply sorted_le_NoDup_lt; [apply sortInts_sorted|].
  eapply Permutation_NoDup; [|exact H].
  apply Permutation_sym, sortInts_perm.
Qed.

Lemma is_applied_false (l : list Z) (v : Z) :
  is_applied (sortInts l) v = false <-> ~ In v l.
Proof.
  rewrite <- is_applied_sortInts.
  destruct (is_applied (sortInts l) v); split; congruence.
Qed.

(** What a forward plan is made of. *)
Lemma forward_plan_actions (catalog : list Migration) (applied : list Z)
    (target : Z) (acts : list Action) :
  walk_up (sortInts applied) target [] (sortMigrations catalog) = Ok acts ->
  all_dir Direction.Up acts
  /\ StronglySorted Z.le (versions acts)
  /\ (NoDup (map Version catalog) -> StronglySorted Z.lt (versions acts))
  /\ Forall (fun a => ~ In (Action.Version a) applied
                      /\ Action.Version a <= target
                      /\ In (Action.Version a) (map Version catalog)) acts.
Proof.
  intro Hw. repeat split.
  - eapply walk_up_Forall; [| constructor | exact Hw].
    intros; reflexivity.
  - eapply walk_up_sorted; [|exact Hw]. simpl. apply sortMigrations_sorted.
  - intro Hnd. eapply walk_up_sorted; [|exact Hw]. simpl.
    apply sortMigrations_NoDup; assumption.
  - eapply walk_up_Forall; [| constructor | exact Hw].
    intros pm text Hin Hv Ha _. simpl. repeat split; auto.
    + apply is_applied_false; assumption.
    + apply in_map, sortMigrations_In; assumption.
Qed.

(** A forward plan starts after every recorded version of the catalog. *)
Lemma forward_plan_after_applied (catalog : list Migration) (applied : list Z)
    (target : Z) (acts : list Action) (u : Z) :
  latestApplied applied < target ->
  walk_up (sortInts applied) target [] (sortMigrations catalog) = Ok acts ->
  In u applied -> In u (map Version catalog) ->
  Forall (fun a => u < Action.Version a) acts.
Proof.
  intros Hlt Hw Hu Hcat.
  apply sortMigrations_versions in Hcat.
  apply in_map_iff in Hcat; destruct Hcat as (m & Hm & Hin).
  destruct (in_split _ _ Hin) as (pre & post & Hsplit).
  pose proof (sortMigrations_sorted catalog) as Hs.
  rewrite Hsplit in Hs, Hw.
  assert (Hmt : Version m <= target).
  { pose proof (latestApplied_upper _ _ Hu). lia. }
  pose proof (sorted_prefix_below _ _ _ _ Hs Hmt) as Hpre.
  replace (pre ++ m :: post) with ((pre ++ [m]) ++ post) in Hw
    by (rewrite <- app_assoc; reflexivity).
  rewrite walk_up_app in Hw by assumption.
  rewrite walk_up_ends_applied in Hw;
    [| assumption | apply is_applied_sortInts; congruence].
  destruct (walk_up (sortInts applied) target [] pre) as [a0|e];
    [|discriminate].
  simpl in Hw.
  eapply walk_up_Forall; [| constructor | exact Hw].
  intros pm text Hpm _ Ha _. simpl.
  apply is_applied_false in Ha.
  rewrite map_app in Hs. apply StronglySorted_app_inv in Hs.
  destruct Hs as (_ & Hs & _). simpl in Hs.
  inversion Hs as [|? ? _ Hall]; subst.
  rewrite Forall_forall in Hall.
  specialize (Hall _ (in_map Version _ _ Hpm)).
  assert (Version pm <> Version m) by congruence.
  lia.
Qed.

(** What a backward plan is made of. *)
Lemma backward_plan_actions (catalog : list Migration) (applied : list Z)
    (target : Z) (acts : list Action) :
  walk_down (sortMigrations catalog) target [] (rev (sortInts applied)) = Ok acts ->
  all_dir Direction.Down acts
  /\ StronglySorted Z.ge (versions acts)
  /\ (NoDup applied -> StronglySorted Z.gt (versions acts))
  /\ Forall (fun a => In (Action.Version a) applied
                      /\ target < Action.Version a
                      /\ In (Action.Version a) (map Version catalog)) acts.
Proof.
  intro Hw. repeat split.
  - eapply walk_down_Forall; [| constructor | exact Hw].
    intros; reflexivity.
  - eapply walk_down_sorted; [|exact Hw]. simpl.
    eapply StronglySorted_impl;
      [| exact (StronglySorted_rev Z.le _ (sortInts_sorted applied))].
    simpl; intros; lia.
  - intro Hnd. eapply walk_down_sorted; [|exact Hw]. simpl.
    eapply StronglySorted_impl;
      [| exact (StronglySorted_rev Z.lt _ (sortInts_NoDup _ Hnd))].
    simpl; intros; lia.
  - eapply walk_down_Forall; [| constructor | exact Hw].
    intros v m text Hin Hv Hf _. simpl.
    apply find_migration_Some in Hf; destruct Hf as [Hm <-].
    repeat split; auto.
    + apply sortInts_In, in_rev; assumption.
    + apply in_map, sortMigrations_In; assumption.
Qed.

Lemma all_dir_exclusive (acts : list Action) :
  acts <> [] -> all_dir Direction.Up acts -> all_dir Direction.Down acts -> False.
Proof.
  destruct acts as [|a acts]; [congruence|].
  intros _ Hu Hd. inversion Hu; inversion Hd; subst. congruence.
Qed.

(** ** The plan invariant *)

(** C1: with migrations 1 and 2 in the catalog, version 5 recorded and
    target 6, the plan applies 1 and 2, which are below the latest
    recorded version 5.  The forward loop empties the plan only at a
    migration of the catalog that is recorded, and 5 is not in the
    catalog; the invariant as it is worded does not hold there. *)
Theorem plan_applies_below_recorded :
  plan [tm1; tm2] [5] 6 = Ok [upAction 1 "up1"; upAction 2 "up2"]
  /\ latestApplied [5] = 5
  /\ ~ stated_plan_invariant [tm1; tm2] [5] 6.
Proof.
  split; [reflexivity|]. split; [reflexivity|].
  intro H.
  destruct (H [upAction 1 "up1"; upAction 2 "up2"] eq_refl) as (_ & Hup & _).
  destruct Hup as [_ Habove].
  - discriminate.
  - repeat constructor.
  - assert (Hne : [5] <> []) by discriminate.
    specialize (Habove Hne).
    inversion Habove as [|? ? Hlt _]; subst.
    vm_compute in Hlt. discriminate.
Qed.

(** What every plan has: one direction.  A non-empty forward plan has
    increasing versions, strictly when the catalog versions are distinct;
    each is a catalog version at most the target that is not recorded,
    and it is greater than every recorded version that the catalog
    contains, so it is greater than the latest recorded version when the
    catalog contains that one.  A non-empty backward plan has decreasing
    versions, strictly when the recorded versions are distinct; each is a
    recorded version above the target that the catalog contains. *)
Theorem plan_invariant (catalog : list Migration) (applied : list Z)
    (target : Z) (acts : list Action) :
  plan catalog applied target = Ok acts ->
  (all_dir Direction.Up acts \/ all_dir Direction.Down acts)
  /\ (acts <> [] -> all_dir Direction.Up acts ->
      StronglySorted Z.le (versions acts)
      /\ (NoDup (map Version catalog) -> StronglySorted Z.lt (versions acts))
      /\ Forall (fun a =>
                   ~ In (Action.Version a) applied
                   /\ Action.Version a <= target
                   /\ In (Action.Version a) (map Version catalog)
                   /\ (forall u, In u applied -> In u (map Version catalog) ->
                                 u < Action.Version a)
                   /\ (In (latestApplied applied) applied ->
                       In (latestApplied applied) (map Version catalog) ->
                       latestApplied applied < Action.Version a)) acts)
  /\ (acts <> [] -> all_dir Direction.Down acts ->
      StronglySorted Z.ge (versions acts)
      /\ (NoDup applied -> StronglySorted Z.gt (versions acts))
      /\ Forall (fun a =>
                   In (Action.Version a) applied
                   /\ target < Action.Version a
                   /\ In (Action.Version a) (map Version catalog)) acts).
Proof.
  intro Hp.
  destruct catalog as [|m0 ms] eqn:Hcat.
  { injection Hp as <-. split; [left; constructor|]. split; congruence. }
  rewrite <- Hcat in *.
  assert (Hne : catalog <> []) by (subst; discriminate).
  clear Hcat m0 ms.
  destruct (Z.lt_trichotomy (latestApplied applied) target) as [Hlt|[Heq|Hgt]].
  - rewrite plan_forward in Hp by assumption.
    destruct (forward_plan_actions _ _ _ _ Hp) as (Hdir & Hle & Hstrict & Hall).
    split; [left; exact Hdir|]. split.
    + intros _ _. repeat split; auto.
      rewrite Forall_forall in *. intros a Ha.
      destruct (Hall a Ha) as (H1 & H2 & H3).
      assert (Hafter : forall u, In u applied -> In u (map Version catalog) ->
                                 u < Action.Version a).
      { intros u Hu Hc.
        pose proof (forward_plan_after_applied _ _ _ _ u Hlt Hp Hu Hc) as Hf.
        rewrite Forall_forall in Hf. apply Hf; assumption. }
      repeat split; auto.
    + intros Hn Hd. exfalso. eapply all_dir_exclusive; eauto.
  - subst target. rewrite plan_noop in Hp. injection Hp as <-.
    split; [left; constructor|]. split; congruence.
  - rewrite plan_backward in Hp by assumption.
    destruct (backward_plan_actions _ _ _ _ Hp) as (Hdir & Hge & Hstrict & Hall).
    split; [right; exact Hdir|]. split.
    + intros Hn Hu. exfalso. eapply all_dir_exclusive; eauto.
    + intros _ _. repeat split; auto.
Qed.

Lemma plan_invariant_witness :
  plan [tm1; tm2; tm3; tm4] [1; 3] 4 = Ok [upAction 4 "up4"]
  /\ (all_dir Direction.Up [upAction 4 "up4"]
      \/ all_dir Direction.Down [upAction 4 "up4"]).
Proof.
  split; [reflexivity|].
  exact (proj1 (plan_invariant [tm1; tm2; tm3; tm4] [1; 3] 4
                  [upAction 4 "up4"] eq_refl)).
Defined.

(** ** Target equal to the current version *)

(** C6: when the target is the greatest recorded version, or 0 and
    nothing is recorded, the plan is empty; for versions that are not
    negative this target is what [CurrentVersion] returns. *)
Theorem plan_at_current_version (catalog : list Migration) (applied : list Z) :
  (forall target,
      (applied = [] /\ target = 0)
      \/ (In target applied /\ Forall (fun v => v <= target) applied) ->
      plan catalog applied target = Ok [])
  /\ (Forall (fun v => 0 <= v) applied ->
      plan catalog applied (CurrentVersion applied) = Ok []).
Proof.
  split.
  - intros target H. apply latestApplied_max in H. subst target.
    apply plan_noop.
  - intro H. rewrite CurrentVersion_latestApplied by assumption.
    apply plan_noop.
Qed.

Lemma plan_at_current_version_witness :
  plan [tm1; tm2; tm3] [1; 2] 2 = Ok []
  /\ plan [tm1; tm2; tm3] [1; 2] (CurrentVersion [1; 2]) = Ok [].
Proof.
  split.
  - apply (proj1 (plan_at_current_version [tm1; tm2; tm3] [1; 2]) 2).
    right. split; [simpl; auto | repeat constructor; lia].
  - apply (proj2 (plan_at_current_version [tm1; tm2; tm3] [1; 2])).
    repeat constructor; lia.
Defined.

(** ** Snapshot shortcut and reset *)

(** C2: with nothing recorded, a migration at most the target that has a
    non-empty snapshot replaces the actions accumulated so far by one
    forward action with the snapshot text, and the walk goes on: at the
    step of the loop, and for the plan as a whole (the forward case is
    [0 < target], nothing being recorded); the catalog of the test gives
    the single snapshot action. *)
Theorem snapshot_shortcut :
  (forall target actions pm rest s,
      Version pm <= target -> Snapshot pm = Ok s -> s <> "" ->
      walk_up (sortInts []) target actions (pm :: rest)
      = walk_up (sortInts []) target [upAction (Version pm) s] rest)
  /\ (forall catalog target pre pm post s,
         0 < target ->
         sortMigrations catalog = pre ++ pm :: post ->
         Version pm <= target -> Snapshot pm = Ok s -> s <> "" ->
         plan catalog [] target
         = bind (walk_up [] target [] pre)
             (fun _ => walk_up [] target [upAction (Version pm) s] post))
  /\ plan [tm1; tm2s] [] 2 = Ok [upAction 2 "snapshot2"].
Proof.
  split; [|split].
  - intros. apply walk_up_snapshot; auto.
  - intros catalog target pre pm post s Ht Hsplit Hv Hs Hne.
    assert (Hcat : catalog <> []).
    { intros ->. destruct pre; discriminate. }
    rewrite plan_forward by (auto; rewrite latestApplied_nil; lia).
    change (sortInts []) with (@nil Z).
    pose proof (sortMigrations_sorted catalog) as Hsorted.
    rewrite Hsplit in *.
    pose proof (sorted_prefix_below _ _ _ _ Hsorted Hv) as Hpre.
    apply Forall_app in Hpre; destruct Hpre as [Hpre _].
    rewrite walk_up_app by assumption.
    destruct (walk_up [] target [] pre) as [a|e]; cbn [bind]; auto.
    apply walk_up_snapshot; auto.
  - reflexivity.
Qed.

Lemma snapshot_shortcut_witness :
  plan [tm1; tm2s; tm3] [] 3
  = bind (walk_up [] 3 [] [tm1])
      (fun _ => walk_up [] 3 [upAction (Version tm2s) "snapshot2"] [tm3]).
Proof.
  apply (proj1 (proj2 snapshot_shortcut) [tm1; tm2s; tm3] 3 [tm1] tm2s [tm3]
           "snapshot2").
  - lia.
  - reflexivity.
  - simpl; lia.
  - reflexivity.
  - discriminate.
Defined.

(** C3: in the forward walk a migration whose version is recorded empties
    the accumulated actions and the walk goes on: at the step of the
    loop, and for the plan as a whole; the catalog of the test gives the
    single action for version 4. *)
Theorem reset_on_applied :
  (forall applied target actions pm rest,
      Version pm <= target -> In (Version pm) applied ->
      walk_up (sortInts applied) target actions (pm :: rest)
      = walk_up (sortInts applied) target [] rest)
  /\ (forall catalog applied target pre pm post,
         latestApplied applied < target ->
         sortMigrations catalog = pre ++ pm :: post ->
         In (Version pm) applied ->
         plan catalog applied target
         = bind (walk_up (sortInts applied) target [] pre)
             (fun _ => walk_up (sortInts applied) target [] post))
  /\ plan [tm1; tm2; tm3; tm4] [1; 3] 4 = Ok [upAction 4 "up4"].
Proof.
  split; [|split].
  - intros. apply walk_up_applied; auto. apply is_applied_sortInts; auto.
  - intros catalog applied target pre pm post Hlt Hsplit Hin.
    assert (Hcat : catalog <> []).
    { intros ->. destruct pre; discriminate. }
    rewrite plan_forward by auto.
    pose proof (sortMigrations_sorted catalog) as Hsorted.
    rewrite Hsplit in *.
    assert (Hv : Version pm <= target).
    { pose proof (latestApplied_upper _ _ Hin). lia. }
    pose proof (sorted_prefix_below _ _ _ _ Hsorted Hv) as Hpre.
    apply Forall_app in Hpre; destruct Hpre as [Hpre _].
    rewrite walk_up_app by assumption.
    destruct (walk_up (sortInts applied) target [] pre) as [a|e];
      cbn [bind]; auto.
    apply walk_up_applied; auto. apply is_applied_sortInts; auto.
  - reflexivity.
Qed.

Lemma reset_on_applied_witness :
  plan [tm1; tm2; tm3; tm4] [1; 3] 4
  = bind (walk_up (sortInts [1; 3]) 4 [] [tm1; tm2])
      (fun _ => walk_up (sortInts [1; 3]) 4 [] [tm4]).
Proof.
  apply (proj1 (proj2 reset_on_applied) [tm1; tm2; tm3; tm4] [1; 3] 4
           [tm1; tm2] tm3 [tm4]).
  - vm_compute; reflexivity.
  - reflexivity.
  - simpl; auto.
Defined.

(** ** Targets beyond the catalog *)

Lemma LatestVersion_upper (catalog : list Migration) (m : Migration) :
  In m catalog -> Version m <= LatestVersion catalog.
Proof.
  intro H. unfold LatestVersion.
  destruct (max_from_zero_spec (map Version catalog)) as (_ & Hall & _).
  rewrite Forall_forall in Hall. apply Hall, in_map, H.
Qed.

(** Two targets that are both at least every version of the list give the
    same walk. *)
Lemma walk_up_cap (dbList : list Z) (t t' : Z) (ms : list Migration) :
  Forall (fun m => Version m <= t /\ Version m <= t') ms ->
  forall actions, walk_up dbList t actions ms = walk_up dbList t' actions ms.
Proof.
  induction 1 as [|pm ms [H1 H2] _ IH]; intro actions; simpl; auto.
  apply Z.ltb_ge in H1, H2. rewrite H1, H2.
  break_match; auto.
Qed.

Lemma walk_up_total (dbList : list Z) (version : Z) (ms : list Migration) :
  Forall (fun m => resolves m = true) ms ->
  forall actions, exists res, walk_up dbList version actions ms = Ok res.
Proof.
  induction 1 as [|pm ms Hpm _ IH]; intro actions; simpl; eauto.
  unfold resolves in Hpm. apply andb_prop in Hpm; destruct Hpm as [Hpm Hs].
  apply andb_prop in Hpm; destruct Hpm as [Hu _].
  destruct (Up pm) as [up|e]; [|discriminate].
  destruct (Snapshot pm) as [s|e]; [|discriminate].
  break_match; eauto.
Qed.

Lemma walk_down_total (provList : list Migration) (version : Z) (vs : list Z) :
  Forall (fun m => resolves m = true) provList ->
  forall actions, exists res, walk_down provList version actions vs = Ok res.
Proof.
  intro Hall. rewrite Forall_forall in Hall.
  induction vs as [|v vs IH]; intro actions; simpl; eauto.
  destruct (v <=? version); eauto.
  destruct (find_migration provList v) as [m|] eqn:Hf; eauto.
  apply find_migration_Some in Hf; destruct Hf as [Hm _].
  specialize (Hall _ Hm). unfold resolves in Hall.
  apply andb_prop in Hall; destruct Hall as [Hall _].
  apply andb_prop in Hall; destruct Hall as [_ Hd].
  destruct (Down m) as [down|e]; [|discriminate]. eauto.
Qed.

(** Planning fails only when a text fails to load. *)
Lemma plan_total (catalog : list Migration) (applied : list Z) (target : Z) :
  Forall (fun m => resolves m = true) catalog ->
  exists acts, plan catalog applied target = Ok acts.
Proof.
  intro Hall.
  assert (Hall' : Forall (fun m => resolves m = true) (sortMigrations catalog)).
  { rewrite Forall_forall in *. intros m Hm. apply Hall.
    apply sortMigrations_In; assumption. }
  destruct catalog as [|m0 ms] eqn:Hcat; [eexists; reflexivity|].
  rewrite <- Hcat in *.
  assert (Hne : catalog <> []) by (subst; discriminate).
  clear Hcat.
  destruct (Z.lt_trichotomy (latestApplied applied) target) as [Hlt|[Heq|Hgt]].
  - rewrite plan_forward by assumption. apply walk_up_total; assumption.
  - subst target. rewrite plan_noop. eauto.
  - rewrite plan_backward by assumption. apply walk_down_total; assumption.
Qed.

(** Every action of a plan is for a version of the catalog. *)
Lemma plan_versions_in_catalog (catalog : list Migration) (applied : list Z)
    (target : Z) (acts : list Action) :
  plan catalog applied target = Ok acts ->
  Forall (fun a => In (Action.Version a) (map Version catalog)) acts.
Proof.
  intro Hp.
  destruct catalog as [|m0 ms] eqn:Hcat; [injection Hp as <-; constructor|].
  rewrite <- Hcat in *.
  assert (Hne : catalog <> []) by (subst; discriminate).
  clear Hcat.
  destruct (Z.lt_trichotomy (latestApplied applied) target) as [Hlt|[Heq|Hgt]].
  - rewrite plan_forward in Hp by assumption.
    destruct (forward_plan_actions _ _ _ _ Hp) as (_ & _ & _ & Hall).
    eapply Forall_impl; [|exact Hall]. simpl; tauto.
  - subst target. rewrite plan_noop in Hp. injection Hp as <-. constructor.
  - rewrite plan_backward in Hp by assumption.
    destruct (backward_plan_actions _ _ _ _ Hp) as (_ & _ & _ & Hall).
    eapply Forall_impl; [|exact Hall]. simpl; tauto.
Qed.

(** C7: a target above the highest catalog version is no error.  The
    forward walk for it is the walk capped at the highest catalog version
    (so the plan is the plan for that version when it is still ahead of
    the recorded ones), the plan exists whenever the texts of the catalog
    load, and its actions are catalog versions, none above the highest;
    the catalog of the test with target 3 gives the actions for 1 and 2. *)
Theorem target_beyond_catalog :
  (forall catalog applied target,
      LatestVersion catalog < target ->
      (latestApplied applied < target ->
       plan catalog applied target
       = walk_up (sortInts applied) (LatestVersion catalog) []
           (sortMigrations catalog))
      /\ (latestApplied applied < LatestVersion catalog ->
          plan catalog applied target
          = plan catalog applied (LatestVersion catalog))
      /\ (Forall (fun m => resolves m = true) catalog ->
          exists acts, plan catalog applied target = Ok acts)
      /\ (forall acts,
             plan catalog applied target = Ok acts ->
             Forall (fun a => In (Action.Version a) (map Version catalog)
                              /\ Action.Version a <= LatestVersion catalog)
               acts))
  /\ plan [tm1; tm2] [] 3 = Ok [upAction 1 "up1"; upAction 2 "up2"].
Proof.
  split; [|reflexivity].
  intros catalog applied target Hbeyond.
  assert (Hcap : walk_up (sortInts applied) target [] (sortMigrations catalog)
                 = walk_up (sortInts applied) (LatestVersion catalog) []
                     (sortMigrations catalog)).
  { apply walk_up_cap. apply Forall_forall. intros m Hm.
    apply (proj1 (sortMigrations_In _ _)) in Hm.
    pose proof (LatestVersion_upper _ _ Hm). cbv beta. lia. }
  assert (Hfwd : latestApplied applied < target ->
                 plan catalog applied target
                 = walk_up (sortInts applied) (LatestVersion catalog) []
                     (sortMigrations catalog)).
  { intro Hlt. destruct catalog as [|m0 ms] eqn:Hcat; [reflexivity|].
    rewrite <- Hcat in *.
    rewrite plan_forward by (subst; auto; discriminate). exact Hcap. }
  repeat split.
  - exact Hfwd.
  - intro Hlt. rewrite Hfwd by lia.
    destruct catalog as [|m0 ms] eqn:Hcat; [reflexivity|].
    rewrite <- Hcat in *.
    rewrite plan_forward by (subst; auto; discriminate). reflexivity.
  - apply plan_total.
  - intros acts Hp. pose proof (plan_versions_in_catalog _ _ _ _ Hp) as Hall.
    eapply Forall_impl; [|exact Hall]. simpl. intros a Ha. split; auto.
    apply in_map_iff in Ha. destruct Ha as (m & <- & Hm).
    apply LatestVersion_upper; assumption.
Qed.

Lemma target_beyond_catalog_witness :
  plan [tm1; tm2] [] 7 = plan [tm1; tm2] [] (LatestVersion [tm1; tm2]).
Proof.
  apply (proj1 target_beyond_catalog [tm1; tm2] [] 7).
  - vm_compute; reflexivity.
  - vm_compute; reflexivity.
Defined.

(** ** Texts that fail to load *)

Lemma walk_down_app (provList : list Migration) (version : Z)
    (pre rest : list Z) (actions : list Action) :
  Forall (fun v => version < v) pre ->
  walk_down provList version actions (pre ++ rest)
  = bind (walk_down provList version actions pre)
      (fun a => walk_down provList version a rest).
Proof.
  intro H; revert actions.
  induction H as [|v pre Hv _ IH]; intro actions; simpl; auto.
  apply Z.leb_gt in Hv; rewrite Hv.
  destruct (find_migration provList v) as [m|]; auto.
  destruct (Down m); auto.
Qed.

Lemma bind_Err_not_Ok {A B : Type} (r : result A) (e : error) (b : B) :
  bind r (fun _ => Err e) <> Ok b.
Proof. destruct r; discriminate. Qed.

(** C8: a text that fails to load when planning reaches it makes planning
    fail, and an [Err] carries no action.  Forward: at a migration at
    most the target that is not recorded, the snapshot is read when
    nothing is recorded, the forward text otherwise or when the snapshot
    is empty; the plan is the error for that migration unless an earlier
    one already failed.  Backward: at a recorded version above the
    target, the backward text of the migration found for it is read.
    [Plan] hands the error on, wrapped, with no plan. *)
Theorem payload_error_fails_planning :
  (forall catalog applied target pre pm post e k,
      latestApplied applied < target ->
      sortMigrations catalog = pre ++ pm :: post ->
      Version pm <= target -> ~ In (Version pm) applied ->
      (applied = [] /\ Snapshot pm = Err e /\ k = LoadSnapshot)
      \/ ((applied <> [] \/ Snapshot pm = Ok "")
          /\ Up pm = Err e /\ k = LoadUp) ->
      plan catalog applied target
      = bind (walk_up (sortInts applied) target [] pre)
          (fun _ => Err (Unable k (Version pm) e))
      /\ forall acts, plan catalog applied target <> Ok acts)
  /\ (forall catalog applied target v m e,
         target < latestApplied applied ->
         In v applied -> target < v ->
         find_migration (sortMigrations catalog) v = Some m ->
         Down m = Err e ->
         (exists e', plan catalog applied target = Err e')
         /\ forall acts, plan catalog applied target <> Ok acts)
  /\ (forall prov db version e,
         Migrator_plan prov db version = Err e ->
         Plan prov db version
         = Err (Wrap "migrator" "unable to prepare migration plan" e)).
Proof.
  split; [|split].
  3:{ intros prov db version e H. unfold Plan. rewrite H. reflexivity. }
  - intros catalog applied target pre pm post e k Hlt Hsplit Hv Hnin Hfail.
    assert (Hcat : catalog <> []).
    { intros ->. destruct pre; discriminate. }
    assert (Heq : plan catalog applied target
                  = bind (walk_up (sortInts applied) target [] pre)
                      (fun _ => Err (Unable k (Version pm) e))).
    { rewrite plan_forward by auto.
      pose proof (sortMigrations_sorted catalog) as Hsorted.
      rewrite Hsplit in *.
      pose proof (sorted_prefix_below _ _ _ _ Hsorted Hv) as Hpre.
      apply Forall_app in Hpre; destruct Hpre as [Hpre _].
      rewrite walk_up_app by assumption.
      destruct (walk_up (sortInts applied) target [] pre) as [a|e0];
        cbn [bind]; auto.
      apply is_applied_false in Hnin.
      simpl. apply Z.ltb_ge in Hv. rewrite Hv, Hnin. simpl.
      destruct Hfail as [(-> & Hs & ->)|(Hc & Hu & ->)].
      - simpl. rewrite Hs. reflexivity.
      - rewrite Hu. destruct Hc as [Hc|Hc].
        + assert (Hl : (List.length (sortInts applied) =? 0)%nat = false).
          { destruct (sortInts applied) eqn:E; [|reflexivity].
            apply sort_by_nil in E. contradiction. }
          rewrite Hl. reflexivity.
        + rewrite Hc. simpl.
          destruct (List.length (sortInts applied) =? 0)%nat; reflexivity. }
    split; [exact Heq|].
    intro acts. rewrite Heq. apply bind_Err_not_Ok.
  - intros catalog applied target v m e Hlt Hin Hv Hf Hd.
    assert (Hcat : catalog <> []).
    { intros ->. discriminate. }
    assert (Hex : exists e', plan catalog applied target = Err e').
    { rewrite plan_backward by auto.
      assert (Hin' : In v (rev (sortInts applied)))
        by (apply in_rev; rewrite rev_involutive; apply sortInts_In; auto).
      destruct (in_split _ _ Hin') as (pre & post & Hsplit).
      pose proof (StronglySorted_rev Z.le _ (sortInts_sorted applied)) as Hs.
      rewrite Hsplit in *.
      apply StronglySorted_app_inv in Hs. destruct Hs as (_ & _ & Hs).
      assert (Hpre : Forall (fun u => target < u) pre).
      { apply Forall_forall. intros u Hu.
        specialize (Hs u v Hu (or_introl eq_refl)). simpl in Hs. lia. }
      rewrite walk_down_app by assumption.
      destruct (walk_down (sortMigrations catalog) target [] pre) as [a|e0];
        cbn [bind]; eauto.
      simpl. apply Z.leb_gt in Hv. rewrite Hv, Hf, Hd. eauto. }
    split; [exact Hex|].
    destruct Hex as (e' & ->). discriminate.
Qed.

Lemma payload_error_fails_planning_witness :
  plan [tm1; tm2_broken; tm3] [1] 3
  = bind (walk_up (sortInts [1]) 3 [] [tm1])
      (fun _ => Err (Unable LoadUp (Version tm2_broken) (Message "read error"))).
Proof.
  apply (proj1 payload_error_fails_planning
           [tm1; tm2_broken; tm3] [1] 3 [tm1] tm2_broken [tm3]).
  - vm_compute; reflexivity.
  - reflexivity.
  - simpl; lia.
  - simpl; intros [H|[]]; discriminate.
  - right. split; [left; discriminate | split; reflexivity].
Defined.

(** ** The order of the two lists *)

(** C10, counterexample: two migrations with the same version come out
    of the sort in the order the provider listed them. *)
Lemma order_insensitive_counterexample : ~ stated_order_insensitive.
Proof.
  intro H.
  specialize (H [tm1a; tm1b] [tm1b; tm1a] [] [] 1
                (perm_swap _ _ _) (perm_nil _)).
  vm_compute in H. discriminate.
Qed.

Lemma NoDup_map_injective {A B : Type} (f : A -> B) (l : list A) :
  NoDup (map f l) ->
  forall a b, In a l -> In b l -> f a = f b -> a = b.
Proof.
  induction l as [|x l IH]; simpl; intros Hnd a b Ha Hb Hf; [destruct Ha|].
  inversion Hnd as [|? ? Hnin Hnd']; subst.
  destruct Ha as [->|Ha], Hb as [->|Hb]; auto.
  - exfalso; apply Hnin. rewrite Hf. apply in_map; assumption.
  - exfalso; apply Hnin. rewrite <- Hf. apply in_map; assumption.
Qed.

Lemma sortInts_perm_eq (l l' : list Z) :
  Permutation l l' -> sortInts l = sortInts l'.
Proof. intro H. apply sort_by_perm_eq; auto. Qed.

(** C10, amended: when the versions of the catalog are distinct, the plan
    does not depend on the order in which the provider lists the
    migrations nor on the order in which the database lists the
    versions. *)
Theorem plan_order_insensitive (catalog catalog' : list Migration)
    (applied applied' : list Z) (target : Z) :
  NoDup (map Version catalog) ->
  Permutation catalog catalog' -> Permutation applied applied' ->
  plan catalog applied target = plan catalog' applied' target.
Proof.
  intros Hnd Hc Ha. unfold plan.
  rewrite (sortInts_perm_eq _ _ Ha).
  assert (Hs : sortMigrations catalog = sortMigrations catalog').
  { apply sort_by_perm_eq; auto. apply NoDup_map_injective; assumption. }
  rewrite Hs.
  destruct catalog as [|m ms], catalog' as [|m' ms']; auto.
  - apply Permutation_nil in Hc; discriminate.
  - apply Permutation_sym, Permutation_nil in Hc; discriminate.
Qed.

Lemma plan_order_insensitive_witness :
  plan [tm1; tm2; tm3] [1; 2] 3 = plan [tm3; tm1; tm2] [2; 1] 3.
Proof.
  apply plan_order_insensitive.
  - repeat constructor; simpl; intuition discriminate.
  - apply Permutation_sym, (Permutation_cons_append [tm1; tm2] tm3).
  - apply perm_swap.
Defined.

(** ** Planning again after a plan was applied *)

Lemma apply_plan_up (acts : list Action) :
  all_dir Direction.Up acts ->
  forall applied v,
    In v (apply_plan acts applied) <-> In v applied \/ In v (versions acts).
Proof.
  unfold apply_plan.
  induction 1 as [|a acts Ha _ IH]; intros applied v; simpl; [tauto|].
  rewrite IH. unfold apply_action. rewrite Ha. simpl.
  intuition auto.
Qed.

Lemma apply_plan_down (acts : list Action) :
  all_dir Direction.Down acts ->
  forall applied v,
    In v (apply_plan acts applied) <-> In v applied /\ ~ In v (versions acts).
Proof.
  unfold apply_plan.
  induction 1 as [|a acts Ha _ IH]; intros applied v; simpl; [tauto|].
  rewrite IH. unfold apply_action. rewrite Ha.
  rewrite filter_In, negb_true_iff, Z.eqb_neq.
  intuition auto.
Qed.

(** C4, counterexample: with 1 and 3 recorded and target 2, the plan
    reverts 3; planning again for target 2 then applies 2. *)
Lemma idempotence_counterexample :
  ~ stated_idempotence [tm1; tm2; tm3] [1; 3] 2.
Proof.
  intro H. specialize (H [downAction 3 "down3"] eq_refl).
  vm_compute in H. discriminate.
Qed.

(** With a non-empty [dbList], a walk that succeeds has loaded the
    forward text of every migration it went through that is not
    recorded. *)
Lemma walk_up_reads_up (dbList : list Z) (version : Z) (ms : list Migration) :
  dbList <> [] ->
  forall actions res,
    walk_up dbList version actions ms = Ok res ->
    Forall (fun m => is_applied dbList (Version m) = false ->
                     is_ok (Up m) = true) (walked version ms).
Proof.
  intro Hdb.
  assert (Hl : (List.length dbList =? 0)%nat = false)
    by (destruct dbList; [congruence | reflexivity]).
  induction ms as [|pm ms IH]; intros actions res Hw; simpl in *;
    [constructor|].
  destruct (version <? Version pm); [constructor|].
  rewrite Hl in Hw.
  destruct (is_applied dbList (Version pm)) eqn:Ha; simpl in Hw.
  - constructor; [cbv beta; congruence | eapply IH; eauto].
  - destruct (Up pm) as [up|e] eqn:Hu; [|discriminate].
    constructor; [intros _; rewrite Hu; reflexivity | eapply IH; eauto].
Qed.

Lemma walk_up_ok_unapplied (dbList : list Z) (version : Z) (ms : list Migration) :
  dbList <> [] ->
  Forall (fun m => is_applied dbList (Version m) = false ->
                   is_ok (Up m) = true) ms ->
  forall actions, exists res, walk_up dbList version actions ms = Ok res.
Proof.
  intros Hdb Hall.
  assert (Hl : (List.length dbList =? 0)%nat = false)
    by (destruct dbList; [congruence | reflexivity]).
  induction Hall as [|pm ms Hpm _ IH]; intro actions; simpl; eauto.
  rewrite Hl.
  destruct (version <? Version pm); eauto.
  destruct (is_applied dbList (Version pm)); simpl; eauto.
  specialize (Hpm eq_refl).
  destruct (Up pm) as [up|e]; [|discriminate]. eauto.
Qed.

Lemma walked_all_below (version : Z) (ms : list Migration) :
  Forall (fun m => Version m <= version) ms -> walked version ms = ms.
Proof.
  induction 1 as [|pm ms Hpm _ IH]; simpl; auto.
  apply Z.ltb_ge in Hpm. rewrite Hpm, IH. reflexivity.
Qed.

(** When no migration of a walked list resets the walk, the result is
    what was accumulated followed by one action for each migration the
    walk goes through. *)
Lemma walk_up_no_reset (dbList : list Z) (version : Z) (ms : list Migration) :
  dbList <> [] ->
  Forall (fun m => is_applied dbList (Version m) = false) ms ->
  forall actions res,
    walk_up dbList version actions ms = Ok res ->
    versions res = versions actions ++ map Version (walked version ms).
Proof.
  intros Hdb Hall.
  assert (Hl : (List.length dbList =? 0)%nat = false)
    by (destruct dbList; [congruence | reflexivity]).
  induction Hall as [|pm ms Hpm _ IH]; intros actions res H; simpl in *.
  - injection H as <-. rewrite app_nil_r. reflexivity.
  - destruct (version <? Version pm).
    + injection H as <-. simpl. rewrite app_nil_r. reflexivity.
    + rewrite Hpm, Hl in H. simpl in H.
      destruct (Up pm) as [up|c]; [|discriminate].
      rewrite (IH _ _ H). unfold versions.
      rewrite map_app, <- app_assoc. reflexivity.
Qed.

Lemma walked_sorted_In (version : Z) (ms : list Migration) (m : Migration) :
  StronglySorted Z.le (map Version ms) ->
  In m ms -> Version m <= version -> In m (walked version ms).
Proof.
  induction ms as [|pm ms IH]; simpl; intros Hs Hin Hv; auto.
  inversion Hs as [|? ? Hs' Ha]; subst.
  rewrite Forall_forall in Ha.
  destruct (version <? Version pm) eqn:E.
  - apply Z.ltb_lt in E. destruct Hin as [->|Hin]; [lia|].
    specialize (Ha (Version m) (in_map Version _ _ Hin)). lia.
  - destruct Hin as [->|Hin]; [left; auto | right; auto].
Qed.

(** A forward walk reaches every catalog version at most the target
    that is not recorded and is above the recorded catalog versions. *)
Lemma forward_plan_includes (catalog : list Migration) (applied : list Z)
    (target : Z) (acts : list Action) (v : Z) :
  applied <> [] ->
  walk_up (sortInts applied) target [] (sortMigrations catalog) = Ok acts ->
  In v (map Version catalog) -> v <= target -> ~ In v applied ->
  (forall u, In u applied -> In u (map Version catalog) -> u < v) ->
  In v (versions acts).
Proof.
  intros Happ Hp Hc Hv Hnin Habove.
  assert (Hdb : sortInts applied <> []).
  { intro E. apply sort_by_nil in E. contradiction. }
  apply sortMigrations_versions in Hc.
  apply in_map_iff in Hc. destruct Hc as (m & Hm & Hin).
  destruct (in_split _ _ Hin) as (pre & post & Hsplit).
  pose proof (sortMigrations_sorted catalog) as Hs.
  rewrite Hsplit in Hs, Hp.
  assert (Hmt : Version m <= target) by lia.
  pose proof (sorted_prefix_below _ _ _ _ Hs Hmt) as Hpre.
  apply Forall_app in Hpre. destruct Hpre as [Hpre _].
  rewrite walk_up_app in Hp by assumption.
  destruct (walk_up (sortInts applied) target [] pre) as [a0|e0];
    [|discriminate].
  cbn [bind] in Hp.
  assert (Hfree : Forall (fun m' => is_applied (sortInts applied)
                                      (Version m') = false) (m :: post)).
  { rewrite map_app in Hs. apply StronglySorted_app_inv in Hs.
    destruct Hs as (_ & Hs & _). simpl in Hs.
    inversion Hs as [|? ? _ Hge]; subst.
    rewrite Forall_forall in Hge.
    apply Forall_forall. intros m' Hm'.
    apply is_applied_false. intro Happ'.
    assert (Hcat' : In (Version m') (map Version catalog)).
    { apply sortMigrations_versions. rewrite Hsplit.
      apply in_map, in_or_app. right. assumption. }
    specialize (Habove _ Happ' Hcat').
    destruct Hm' as [<-|Hm']; [lia|].
    specialize (Hge _ (in_map Version _ _ Hm')). lia. }
  rewrite (walk_up_no_reset _ _ _ Hdb Hfree _ _ Hp).
  apply in_or_app. right. simpl.
  replace (target <? Version m) with false
    by (symmetry; apply Z.ltb_ge; lia).
  left. exact Hm.
Qed.

(** With nothing recorded, every migration the walk goes through leaves
    an action. *)
Lemma walk_up_nothing_recorded (version : Z) (ms : list Migration) :
  forall actions res,
    walk_up [] version actions ms = Ok res ->
    actions <> [] \/ walked version ms <> [] -> res <> [].
Proof.
  induction ms as [|pm ms IH]; intros actions res H Hne; simpl in *.
  - injection H as <-. destruct Hne as [Hne|Hne]; congruence.
  - destruct (version <? Version pm).
    + injection H as <-. destruct Hne as [Hne|Hne]; congruence.
    + destruct (Snapshot pm) as [s|e]; [|discriminate]. simpl in H.
      destruct (0 <? String.length s)%nat.
      * apply (IH _ _ H). left. discriminate.
      * destruct (Up pm) as [u|e]; [|discriminate]. simpl in H.
        apply (IH _ _ H). left. destruct actions; discriminate.
Qed.

Section Replan.
Variable catalog : list Migration.
Variable applied : list Z.
Variable target : Z.
Variable P : list Action.

Hypothesis catalog_nonempty : catalog <> [].
Hypothesis planned : plan catalog applied target = Ok P.

Let applied' := apply_plan P applied.

(** After a forward plan the last migration the walk reaches is
    recorded, so a second walk ends on a reset. *)
Lemma forward_replan :
  latestApplied applied < target ->
  (forall acts, plan catalog applied' target = Ok acts -> acts = [])
  /\ (applied <> [] \/ Forall (fun m => is_ok (Up m) = true) catalog ->
      plan catalog applied' target = Ok []).
Proof.
  intro Hlt.
  pose proof planned as Hp.
  rewrite plan_forward in Hp by assumption.
  destruct (forward_plan_actions _ _ _ _ Hp) as (Hdir & _ & _ & Hall).
  assert (Hmem : forall v, In v applied' <->
                           In v applied \/ In v (versions P))
    by (intro v; apply apply_plan_up; assumption).
  assert (Hle : latestApplied applied' <= target).
  { destruct applied' as [|x l] eqn:E.
    - rewrite latestApplied_nil.
      destruct applied as [|y l'].
      + rewrite latestApplied_nil in Hlt; lia.
      + exfalso. assert (Hy : In y []) by (apply Hmem; left; left; auto).
        destruct Hy.
    - assert (Hin : In (latestApplied (x :: l)) (x :: l))
        by (apply latestApplied_In; discriminate).
      apply Hmem in Hin. destruct Hin as [Hin|Hin].
      + pose proof (latestApplied_upper _ _ Hin). lia.
      + unfold versions in Hin. apply in_map_iff in Hin.
        destruct Hin as (a & <- & Ha).
        rewrite Forall_forall in Hall. apply Hall in Ha. tauto. }
  destruct (Z.eq_dec (latestApplied applied') target) as [Heq|Hneq].
  { rewrite <- Heq, plan_noop. split; [congruence | reflexivity]. }
  rewrite plan_forward by (auto; lia).
  rewrite walk_up_walked in Hp |- *.
  destruct (walked target (sortMigrations catalog)) as [|m0 w0] eqn:Ew.
  { simpl. split; [congruence | reflexivity]. }
  assert (Hw : m0 :: w0 <> []) by discriminate.
  destruct (exists_last Hw) as (pre & m & Hsplit).
  rewrite Hsplit in *. clear Hw.
  assert (Hbelow : Forall (fun m => Version m <= target) (pre ++ [m])).
  { rewrite <- Ew. apply walked_below. }
  assert (Hm : In (Version m) applied').
  { apply Hmem.
    destruct (walk_up_last _ _ _ _ _ _ Hbelow Hp) as [Ha|Ha]; auto.
    left. apply is_applied_sortInts; assumption. }
  rewrite walk_up_ends_applied;
    [| assumption | apply is_applied_sortInts; assumption].
  split.
  - intros acts Hacts.
    destruct (walk_up (sortInts applied') target [] pre); simpl in Hacts;
      congruence.
  - intro Hload.
    assert (Hdb' : sortInts applied' <> []).
    { intro E. apply sort_by_nil in E. rewrite E in Hm. destruct Hm. }
    assert (Hex : exists res,
               walk_up (sortInts applied') target [] pre = Ok res).
    { apply walk_up_ok_unapplied; auto.
      assert (Hpre : forall x, In x pre -> In x (sortMigrations catalog)).
      { intros x Hx. apply (walked_incl target). rewrite Ew.
        apply in_or_app; left; assumption. }
      destruct Hload as [Hne|Hup].
      - assert (Hdb : sortInts applied <> []).
        { intro E. apply sort_by_nil in E. contradiction. }
        pose proof (walk_up_reads_up _ target _ Hdb _ _ Hp) as Hread.
        rewrite walked_all_below in Hread by assumption.
        apply Forall_app in Hread. destruct Hread as [Hread _].
        eapply Forall_impl; [|exact Hread].
        intros x Hx Hfalse. apply Hx.
        apply is_applied_false. apply is_applied_false in Hfalse.
        intro Hin. apply Hfalse. apply Hmem. left; assumption.
      - apply Forall_forall. intros x Hx _.
        rewrite Forall_forall in Hup. apply Hup.
        apply sortMigrations_In. apply Hpre. assumption. }
    destruct Hex as (res & ->). reflexivity.
Qed.

End Replan.

(** A forward walk with something recorded succeeds exactly when the
    forward texts of the migrations at most the target that are not
    recorded load. *)
Lemma forward_walk_loads (catalog : list Migration) (A : list Z) (target : Z) :
  A <> [] ->
  (exists res,
      walk_up (sortInts A) target [] (sortMigrations catalog) = Ok res)
  <-> (forall m, In m catalog -> Version m <= target ->
                 ~ In (Version m) A -> is_ok (Up m) = true).
Proof.
  intro HA.
  assert (Hdb : sortInts A <> []).
  { intro E. apply sort_by_nil in E. contradiction. }
  pose proof (walked_below target (sortMigrations catalog)) as Hb.
  rewrite Forall_forall in Hb.
  split.
  - intros (res & Hw) m Hm Hv Hn.
    pose proof (walk_up_reads_up _ target _ Hdb _ _ Hw) as Hread.
    rewrite Forall_forall in Hread. apply (Hread m).
    + apply walked_sorted_In; [apply sortMigrations_sorted | | exact Hv].
      apply sortMigrations_In; exact Hm.
    + apply is_applied_false. exact Hn.
  - intro Hload. rewrite walk_up_walked.
    apply walk_up_ok_unapplied; [exact Hdb|].
    apply Forall_forall. intros m Hm Hfalse.
    apply Hload.
    + apply sortMigrations_In, (walked_incl target). exact Hm.
    + apply Hb; exact Hm.
    + apply is_applied_false in Hfalse. exact Hfalse.
Qed.

(** After a forward plan the latest recorded version is at most the
    target. *)
Lemma forward_latest_le (catalog : list Migration) (applied : list Z)
    (target : Z) (P : list Action) :
  plan catalog applied target = Ok P ->
  latestApplied applied < target ->
  latestApplied (apply_plan P applied) <= target.
Proof.
  intros Hp Hlt.
  destruct catalog as [|m0 ms] eqn:Hcat.
  { injection Hp as <-. unfold apply_plan. cbn [fold_left]. lia. }
  rewrite <- Hcat in *.
  assert (Hne : catalog <> []) by (subst; discriminate).
  clear Hcat m0 ms.
  rewrite plan_forward in Hp by assumption.
  destruct (forward_plan_actions _ _ _ _ Hp) as (Hdir & _ & _ & Hall).
  remember (apply_plan P applied) as A eqn:E.
  destruct A as [|x l].
  - rewrite latestApplied_nil.
    destruct applied as [|y l'].
    + rewrite latestApplied_nil in Hlt; lia.
    + exfalso.
      assert (Hy : In y (apply_plan P (y :: l')))
        by (apply (apply_plan_up _ Hdir); left; left; reflexivity).
      rewrite <- E in Hy. destruct Hy.
  - assert (Hin : In (latestApplied (x :: l)) (apply_plan P applied))
      by (rewrite <- E; apply latestApplied_In; discriminate).
    apply (apply_plan_up _ Hdir) in Hin.
    destruct Hin as [Hin|Hin].
    + pose proof (latestApplied_upper _ _ Hin). lia.
    + unfold versions in Hin. apply in_map_iff in Hin.
      destruct Hin as (a & Hav & Ha).
      rewrite Forall_forall in Hall. apply Hall in Ha. lia.
Qed.

Section ReplanBackward.
Variable catalog : list Migration.
Variable applied : list Z.
Variable target : Z.
Variable P : list Action.

Hypothesis catalog_nonempty : catalog <> [].
Hypothesis planned : plan catalog applied target = Ok P.
Hypothesis backward : target < latestApplied applied.

Let applied' := apply_plan P applied.

(** What a backward plan leaves recorded. *)
Lemma backward_left (v : Z) :
  In v applied' <->
  In v applied /\ (v <= target \/ ~ In v (map Version catalog)).
Proof.
  pose proof planned as Hp.
  rewrite plan_backward in Hp by assumption.
  destruct (backward_plan_actions _ _ _ _ Hp) as (Hdir & _ & _ & Hall).
  unfold applied'. rewrite (apply_plan_down _ Hdir).
  assert (Hin : In v (versions P) ->
                In v applied /\ target < v /\ In v (map Version catalog)).
  { intro Hv. unfold versions in Hv. apply in_map_iff in Hv.
    destruct Hv as (a & <- & Ha).
    rewrite Forall_forall in Hall. apply Hall; assumption. }
  assert (Hcov : In v applied -> target < v ->
                 In v (map Version catalog) -> In v (versions P)).
  { intros Hv Ht Hc.
    eapply walk_down_covers; [| | exact Hp | | exact Ht |].
    - apply sortMigrations_sorted.
    - eapply StronglySorted_impl;
        [| exact (StronglySorted_rev Z.le _ (sortInts_sorted applied))].
      simpl; intros; lia.
    - apply in_rev. rewrite rev_involutive. apply sortInts_In; assumption.
    - apply sortMigrations_versions; assumption. }
  split.
  - intros [Ha Hn]. split; [exact Ha|].
    destruct (Z_le_gt_dec v target) as [Hle|Hgt]; [left; exact Hle|].
    right. intro Hc. apply Hn, Hcov; auto. lia.
  - intros [Ha [Hle|Hnc]]; (split; [exact Ha|]); intro Hv;
      apply Hin in Hv; destruct Hv as (_ & Ht & Hc); [lia | contradiction].
Qed.

(** The versions open after the plan are those open before it. *)
Lemma open_after (v : Z) :
  open_version catalog applied target v <->
  (In v (map Version catalog) /\ v <= target /\ ~ In v applied'
   /\ forall u, In u applied' -> In u (map Version catalog) -> u < v).
Proof.
  unfold open_version. split.
  - intros (Hc & Hv & Hn & Hab). repeat split; auto.
    + intro Hin. apply backward_left in Hin. tauto.
    + intros u Hu Huc. apply backward_left in Hu.
      destruct Hu as [Hu [Hle|Hnc]]; [auto | contradiction].
  - intros (Hc & Hv & Hn & Hab). repeat split; auto.
    + intro Hin. apply Hn. apply backward_left. auto.
    + intros u Hu Huc Hle. apply Hab; auto. apply backward_left. auto.
Qed.

(** Planning again after a backward plan: there is an action exactly
    when the plan left a gap, and without a gap the plan is empty as
    soon as the texts the second walk reads load. *)
Lemma backward_replan :
  (forall acts,
      plan catalog applied' target = Ok acts ->
      (acts = [] <-> ~ gap_left catalog applied target P))
  /\ (~ gap_left catalog applied target P ->
      target <= latestApplied applied'
      \/ (forall m, In m catalog -> Version m <= target ->
                    ~ In (Version m) applied' -> is_ok (Up m) = true) ->
      plan catalog applied' target = Ok []).
Proof.
  unfold gap_left. fold applied'.
  destruct (Z.lt_trichotomy (latestApplied applied') target)
    as [Hlt'|[Heq'|Hgt']].
  - rewrite plan_forward by assumption.
    assert (Hopen : forall acts a,
               walk_up (sortInts applied') target []
                 (sortMigrations catalog) = Ok acts ->
               In a acts ->
               open_version catalog applied target (Action.Version a)).
    { intros acts a Hw Ha. apply open_after.
      destruct (forward_plan_actions _ _ _ _ Hw) as (_ & _ & _ & Hall).
      rewrite Forall_forall in Hall.
      destruct (Hall a Ha) as (H1 & H2 & H3). repeat split; auto.
      intros u Hu Hc.
      pose proof (forward_plan_after_applied _ _ _ _ u Hlt' Hw Hu Hc) as Hf.
      rewrite Forall_forall in Hf. apply Hf; assumption. }
    assert (Hcase : applied' = [] \/ applied' <> [])
      by (destruct applied'; [left; reflexivity | right; discriminate]).
    assert (Hfill : forall acts v,
               walk_up (sortInts applied') target []
                 (sortMigrations catalog) = Ok acts ->
               open_version catalog applied target v -> acts <> []).
    { intros acts v Hw Hv. apply open_after in Hv.
      destruct Hv as (Hc & Hv & Hn & Hab).
      destruct Hcase as [E|Hne'].
      - rewrite E in Hw. change (sortInts []) with (@nil Z) in Hw.
        apply (walk_up_nothing_recorded _ _ _ _ Hw). right.
        apply sortMigrations_versions in Hc.
        apply in_map_iff in Hc. destruct Hc as (m & Hm & Hin).
        intro Ew.
        assert (Hi : In m (walked target (sortMigrations catalog))).
        { apply walked_sorted_In; [apply sortMigrations_sorted | auto | lia]. }
        rewrite Ew in Hi. destruct Hi.
      - pose proof (forward_plan_includes _ _ _ _ v Hne' Hw Hc Hv Hn Hab)
          as Hin.
        intros ->. destruct Hin. }
    split.
    + intros acts Hw. split.
      * intros -> (_ & _ & v & Hv). apply (Hfill [] v Hw Hv). reflexivity.
      * intro Hng. destruct acts as [|a acts]; [reflexivity|]. exfalso.
        apply Hng. repeat split; auto.
        exists (Action.Version a). apply (Hopen _ a Hw). left. reflexivity.
    + intros Hng [Hge|Hload]; [lia|].
      assert (Hex : exists res,
                 walk_up (sortInts applied') target []
                   (sortMigrations catalog) = Ok res).
      { destruct Hcase as [E|Hne']; [|apply forward_walk_loads; assumption].
        rewrite walk_up_walked.
        destruct (walked target (sortMigrations catalog)) as [|m0 w0] eqn:Ew;
          [simpl; eauto|].
        exfalso. apply Hng. repeat split; auto.
        exists (Version m0). apply open_after.
        assert (Hin : In m0 (walked target (sortMigrations catalog)))
          by (rewrite Ew; left; reflexivity).
        pose proof (walked_below target (sortMigrations catalog)) as Hb.
        rewrite Forall_forall in Hb.
        split; [|split; [|split]].
        - apply sortMigrations_versions, in_map, (walked_incl target).
          exact Hin.
        - apply Hb; exact Hin.
        - rewrite E. intros [].
        - rewrite E. intros u []. }
      destruct Hex as (res & Hres). rewrite Hres. f_equal.
      destruct res as [|a res]; [reflexivity|]. exfalso.
      apply Hng. repeat split; auto.
      exists (Action.Version a). apply (Hopen _ a Hres). left. reflexivity.
  - rewrite <- Heq', plan_noop. split.
    + intros acts [= <-]. split; [lia | reflexivity].
    + reflexivity.
  - assert (Hnil : plan catalog applied' target = Ok []).
    { rewrite plan_backward by assumption.
      apply walk_down_unknown; [|apply sortMigrations_sorted].
      apply Forall_forall. intros v Hv Ht Hc.
      apply in_rev in Hv. apply (proj1 (sortInts_In _ _)) in Hv.
      apply backward_left in Hv.
      destruct Hv as [_ [Hle|Hnc]]; [lia|].
      apply Hnc. apply sortMigrations_versions. exact Hc. }
    rewrite Hnil. split.
    + intros acts [= <-]. split; [lia | reflexivity].
    + reflexivity.
Qed.
End ReplanBackward.

(** An empty second plan has read the texts it needed. *)
Lemma empty_plan_loads (catalog : list Migration) (A : list Z) (target : Z) :
  plan catalog A target = Ok [] ->
  target <= latestApplied A
  \/ (forall m, In m catalog -> Version m <= target ->
                ~ In (Version m) A -> is_ok (Up m) = true).
Proof.
  intro Hp.
  destruct (Z_le_gt_dec target (latestApplied A)) as [Hle|Hgt];
    [left; exact Hle | right].
  intros m Hm Hv Hn.
  assert (Hne : catalog <> []) by (intros ->; destruct Hm).
  rewrite plan_forward in Hp by (auto; lia).
  destruct A as [|x l] eqn:E.
  - exfalso. change (sortInts []) with (@nil Z) in Hp.
    apply (walk_up_nothing_recorded _ _ _ _ Hp); [|reflexivity].
    right. intro Ew.
    assert (Hi : In m (walked target (sortMigrations catalog))).
    { apply walked_sorted_In; [apply sortMigrations_sorted | | exact Hv].
      apply sortMigrations_In; exact Hm. }
    rewrite Ew in Hi. destruct Hi.
  - assert (HA : x :: l <> []) by discriminate.
    apply (proj1 (forward_walk_loads catalog (x :: l) target HA));
      eauto.
Qed.

(** C4, amended: let [P] be the plan for a target and let the recorded
    versions be updated by [P].  Planning again for the same target
    returns an action in one case only: [P] moved backward and left the
    latest recorded version below the target, while some catalog version
    at most the target is neither recorded nor below a recorded version
    of the catalog that is at most the target.  The backward plan does
    not look below the target, and the second plan then applies such a
    version.  The second plan is the empty plan exactly when there is no
    such gap and the forward texts it reads load, those of the catalog
    versions at most the target that are not recorded after [P], none
    being read when the latest recorded version is not below the
    target.  After a forward plan these texts load as soon as something
    was recorded before, or the forward texts of the catalog load (the
    second planning reads the forward text of a migration that a
    snapshot had skipped). *)
Theorem plan_idempotent (catalog : list Migration) (applied : list Z)
    (target : Z) (P : list Action) :
  plan catalog applied target = Ok P ->
  (forall acts,
      plan catalog (apply_plan P applied) target = Ok acts ->
      (acts = [] <-> ~ gap_left catalog applied target P))
  /\ (plan catalog (apply_plan P applied) target = Ok [] <->
      ~ gap_left catalog applied target P
      /\ (target <= latestApplied (apply_plan P applied)
          \/ forall m, In m catalog -> Version m <= target ->
                       ~ In (Version m) (apply_plan P applied) ->
                       is_ok (Up m) = true))
  /\ (latestApplied applied <= target ->
      applied <> [] \/ Forall (fun m => is_ok (Up m) = true) catalog ->
      plan catalog (apply_plan P applied) target = Ok []).
Proof.
  intro Hp.
  assert (H1 : forall acts,
             plan catalog (apply_plan P applied) target = Ok acts ->
             (acts = [] <-> ~ gap_left catalog applied target P)).
  { destruct catalog as [|m0 ms] eqn:Hcat.
    { intros acts H; injection H as <-. split; [|reflexivity].
      intros _ (_ & _ & v & [] & _). }
    rewrite <- Hcat in *.
    assert (Hne : catalog <> []) by (subst; discriminate).
    clear Hcat m0 ms.
    destruct (Z.lt_trichotomy (latestApplied applied) target)
      as [Hlt|[Heq|Hgt]].
    - destruct (forward_replan _ _ _ _ Hne Hp Hlt) as [F1 _].
      intros acts Ha. split; [|intros _; apply (F1 _ Ha)].
      intros _ (Hb & _). lia.
    - subst target. rewrite plan_noop in Hp. injection Hp as <-. simpl.
      rewrite plan_noop.
      intros acts [= <-]. split; [|reflexivity]. intros _ (Hb & _). lia.
    - apply (backward_replan _ _ _ _ Hne Hp Hgt). }
  assert (H3 : latestApplied applied <= target ->
               applied <> [] \/ Forall (fun m => is_ok (Up m) = true) catalog ->
               plan catalog (apply_plan P applied) target = Ok []).
  { intros Hle Hc.
    destruct catalog as [|m0 ms] eqn:Hcat; [reflexivity|].
    rewrite <- Hcat in *.
    assert (Hne : catalog <> []) by (subst; discriminate).
    clear Hcat m0 ms.
    destruct (Z.eq_dec (latestApplied applied) target) as [Heq|Hneq].
    - subst target. rewrite plan_noop in Hp. injection Hp as <-. simpl.
      apply plan_noop.
    - assert (Hlt : latestApplied applied < target) by lia.
      destruct (forward_replan _ _ _ _ Hne Hp Hlt) as [_ F2]. auto. }
  split; [exact H1|]. split; [|exact H3].
  split.
  - intro Hnil. split; [apply (H1 [] Hnil); reflexivity|].
    apply empty_plan_loads. exact Hnil.
  - intros [Hng He].
    destruct catalog as [|m0 ms] eqn:Hcat; [reflexivity|].
    rewrite <- Hcat in *.
    assert (Hne : catalog <> []) by (subst; discriminate).
    clear Hcat m0 ms.
    destruct (Z.lt_trichotomy (latestApplied applied) target)
      as [Hlt|[Heq|Hgt]].
    + destruct (forward_replan _ _ _ _ Hne Hp Hlt) as [F1 _].
      pose proof (forward_latest_le _ _ _ _ Hp Hlt) as Hle.
      assert (Hex : exists res,
                 plan catalog (apply_plan P applied) target = Ok res).
      { destruct (Z.eq_dec (latestApplied (apply_plan P applied)) target)
          as [Heq|Hneq]; [rewrite <- Heq, plan_noop; eauto|].
        destruct He as [Hge|Hload]; [lia|].
        destruct (apply_plan P applied) as [|x l] eqn:E.
        - destruct P as [|a0 P0].
          + simpl in E. subst applied. rewrite Hp. eauto.
          + exfalso.
            rewrite plan_forward in Hp by assumption.
            destruct (forward_plan_actions _ _ _ _ Hp) as (Hdir & _).
            assert (Hin : In (Action.Version a0)
                            (apply_plan (a0 :: P0) applied)).
            { apply (apply_plan_up _ Hdir). right. left. reflexivity. }
            rewrite E in Hin. destruct Hin.
        - rewrite plan_forward by (auto; lia).
          apply forward_walk_loads; [discriminate | exact Hload]. }
      destruct Hex as (res & Hres). rewrite Hres. f_equal.
      apply F1. exact Hres.
    + subst target. rewrite plan_noop in Hp. injection Hp as <-. simpl.
      apply plan_noop.
    + apply (backward_replan _ _ _ _ Hne Hp Hgt); assumption.
Qed.

Lemma plan_idempotent_witness :
  plan [tm1; tm2; tm3] (apply_plan [downAction 3 "down3"] [2; 3]) 2 = Ok [].
Proof.
  apply (proj2 (proj1 (proj2 (plan_idempotent [tm1; tm2; tm3] [2; 3] 2
                                [downAction 3 "down3"] eq_refl)))).
  split.
  - intros (_ & H & _). vm_compute in H. discriminate.
  - left. vm_compute. discriminate.
Defined.

(** ** SQLDatabase.Migrate *)

Section ExecutorFacts.
Variable St : Type.
Variable d : Driver St.

(** The loop runs a list of actions that return nil, then the rest. *)
Lemma migrate_loop_app (pre post : list Action) (w w1 : World St) :
  migrate_loop d pre w = (w1, Returned None) ->
  migrate_loop d (pre ++ post) w = migrate_loop d post w1.
Proof.
  revert w; induction pre as [|a pre IH]; intros w H; simpl in *.
  - injection H as <-. reflexivity.
  - destruct (run_action d a w) as [w' [[e|]|p]]; try discriminate.
    apply IH; assumption.
Qed.

Lemma migrate_loop_halts (pre post : list Action) (a : Action)
    (w w1 w2 : World St) (r : outcome) :
  migrate_loop d pre w = (w1, Returned None) ->
  run_action d a w1 = (w2, r) ->
  r <> Returned None ->
  migrate_loop d (pre ++ a :: post) w = (w2, r).
Proof.
  intros Hpre Ha Hr. rewrite (migrate_loop_app _ _ _ _ Hpre).
  simpl. rewrite Ha. destruct r as [[e|]|p]; congruence.
Qed.

(** What a recorded call does. *)
Lemma call_spec (c : Call) (f : St -> St * outcome) (w w' : World St)
    (r : outcome) :
  call c f w = (w', r) ->
  store w' = fst (f (store w)) /\ r = snd (f (store w))
  /\ trace w' = trace w ++ [c].
Proof.
  unfold call. destruct (f (store w)) as [s r0]. intros [= <- <-]. auto.
Qed.

(** The steps of a transaction, by the way each call ended. *)
Lemma transaction_steps (q1 q2 : Query) (w w' : World St) (r : outcome) :
  has_tx d = true ->
  transaction d (then_exec q1 q2) w = (w', r) ->
  let s0 := fst (begin d (store w)) in
  let s1 := fst (tx_exec d q1 s0) in
  let s2 := fst (tx_exec d q2 s1) in
  let s3 := fst (commit d s2) in
  match snd (begin d (store w)) with
  | Returned None =>
      match snd (tx_exec d q1 s0) with
      | Returned None =>
          match snd (tx_exec d q2 s1) with
          | Returned None =>
              match snd (commit d s2) with
              | Returned e =>
                  store w' = s3 /\ r = Returned e
                  /\ trace w' = trace w ++ [CallBeginTx; CallTxExec q1;
                                            CallTxExec q2; CallCommit]
              | Panicked _ =>
                  store w' = fst (rollback d s3)
                  /\ r = match snd (rollback d s3) with
                         | Panicked p => Panicked p
                         | Returned _ => Returned None
                         end
                  /\ trace w' = trace w ++ [CallBeginTx; CallTxExec q1;
                                            CallTxExec q2; CallCommit;
                                            CallRollback]
              end
          | r2 =>
              store w' = fst (rollback d s2)
              /\ r = match snd (rollback d s2), r2 with
                     | Panicked p, _ => Panicked p
                     | Returned _, Returned e => Returned e
                     | Returned _, Panicked _ => Returned None
                     end
              /\ trace w' = trace w ++ [CallBeginTx; CallTxExec q1;
                                        CallTxExec q2; CallRollback]
          end
      | r1 =>
          store w' = fst (rollback d s1)
          /\ r = match snd (rollback d s1), r1 with
                 | Panicked p, _ => Panicked p
                 | Returned _, Returned e => Returned e
                 | Returned _, Panicked _ => Returned None
                 end
          /\ trace w' = trace w ++ [CallBeginTx; CallTxExec q1; CallRollback]
      end
  | r0 => store w' = s0 /\ r = r0 /\ trace w' = trace w ++ [CallBeginTx]
  end.
Proof.
  intros Htx H. unfold transaction in H. rewrite Htx in H.
  unfold then_exec, deferred, BeginTx, TxExecContext, Commit, Rollback, call
    in H.
  cbv zeta.
  destruct (begin d (store w)) as [s0 [[e0|]|p0]]; simpl in *;
    try (injection H as <- <-; simpl; auto; fail).
  destruct (tx_exec d q1 s0) as [s1 [[e1|]|p1]]; simpl in *.
  1,3: destruct (rollback d s1) as [s1' [e1'|p1']]; simpl in *;
       injection H as <- <-; simpl; rewrite <- ?app_assoc; auto.
  destruct (tx_exec d q2 s1) as [s2 [[e2|]|p2]]; simpl in *.
  1,3: destruct (rollback d s2) as [s2' [e2'|p2']]; simpl in *;
       injection H as <- <-; simpl; rewrite <- ?app_assoc; auto.
  destruct (commit d s2) as [s3 [e3|p3]]; simpl in *.
  - injection H as <- <-; simpl; rewrite <- ?app_assoc; auto.
  - destruct (rollback d s3) as [s3' [e3'|p3']]; simpl in *;
      injection H as <- <-; simpl; rewrite <- ?app_assoc; auto.
Qed.

Lemma direct_steps (q1 q2 : Query) (w w' : World St) (r : outcome) :
  has_tx d = false ->
  transaction d (then_exec q1 q2) w = (w', r) ->
  let s1 := fst (exec d q1 (store w)) in
  match snd (exec d q1 (store w)) with
  | Returned None =>
      store w' = fst (exec d q2 s1) /\ r = snd (exec d q2 s1)
      /\ trace w' = trace w ++ [CallExec q1; CallExec q2]
  | r1 => store w' = s1 /\ r = r1 /\ trace w' = trace w ++ [CallExec q1]
  end.
Proof.
  intros Htx H. unfold transaction in H. rewrite Htx in H.
  unfold then_exec, ExecContext, call in H. cbv zeta.
  destruct (exec d q1 (store w)) as [s1 [[e1|]|p1]]; simpl in *;
    try (injection H as <- <-; simpl; auto; fail).
  destruct (exec d q2 s1) as [s2 r2]; simpl in *.
  injection H as <- <-; simpl; rewrite <- ?app_assoc; auto.
Qed.

(** An action is its transaction on its two queries. *)
Lemma run_action_queries (a : Action) (w : World St) :
  match queries a with
  | [q1; q2] => run_action d a w = transaction d (then_exec q1 q2) w
  | _ => run_action d a w = (w, Returned None)
  end.
Proof.
  unfold run_action, queries, up, down.
  destruct (Action.Direction a); reflexivity.
Qed.

Lemma queries_shape (a : Action) :
  queries a = []
  \/ exists q2, queries a = [Statement (Action.Migration a); q2].
Proof. unfold queries. destruct (Action.Direction a); eauto. Qed.

(** With no panic, an action that returns nil made the calls of its
    unit, and one that returns an error made them up to the call that
    failed, and rolled back when that call was in the transaction. *)
Lemma run_action_quiet (a : Action) (w w' : World St) (r : outcome) :
  never_panics d ->
  run_action d a w = (w', r) ->
  match r with
  | Returned None => trace w' = trace w ++ unit_calls (has_tx d) a
  | Returned (Some e) =>
      exists t, In t (failed_calls (has_tx d) a) /\ trace w' = trace w ++ t
  | Panicked _ => False
  end.
Proof.
  intros Hq H. pose proof (run_action_queries a w) as Hr.
  unfold unit_calls, failed_calls.
  destruct (queries_shape a) as [E|(q2 & E)]; rewrite E in *.
  { rewrite Hr in H. injection H as <- <-. rewrite app_nil_r. reflexivity. }
  set (q1 := Statement (Action.Migration a)) in *.
  rewrite Hr in H. clear Hr.
  destruct (has_tx d) eqn:Htx.
  - pose proof (transaction_steps q1 q2 w w' r Htx H) as Hs. cbv zeta in Hs.
    set (s0 := fst (begin d (store w))) in *.
    set (s1 := fst (tx_exec d q1 s0)) in *.
    set (s2 := fst (tx_exec d q2 s1)) in *.
    set (s3 := fst (commit d s2)) in *.
    destruct (Hq (store w)) as (_ & Pb & _).
    destruct (Hq s0) as (_ & _ & P1 & _).
    destruct (Hq s1) as (_ & _ & P2 & _ & K1).
    destruct (Hq s2) as (_ & _ & _ & Pc & K2).
    destruct (Hq s3) as (_ & _ & _ & _ & K3).
    specialize (P1 q1). specialize (P2 q2).
    fold s0 in P1. fold s1 in P2.
    destruct (snd (begin d (store w))) as [[e0|]|p0];
      [| |exfalso; eapply Pb; reflexivity].
    { destruct Hs as (_ & -> & Ht). eexists; split; [|exact Ht]. simpl; auto. }
    destruct (snd (tx_exec d q1 s0)) as [[e1|]|p1];
      [| |exfalso; eapply P1; reflexivity].
    { destruct Hs as (_ & -> & Ht).
      destruct (snd (rollback d s1)) as [x|p]; [|exfalso; eapply K1; reflexivity].
      eexists; split; [|exact Ht]. simpl; auto. }
    destruct (snd (tx_exec d q2 s1)) as [[e2|]|p2];
      [| |exfalso; eapply P2; reflexivity].
    { destruct Hs as (_ & -> & Ht).
      destruct (snd (rollback d s2)) as [x|p]; [|exfalso; eapply K2; reflexivity].
      eexists; split; [|exact Ht]. simpl; auto. }
    destruct (snd (commit d s2)) as [[e3|]|p3];
      [| |exfalso; eapply Pc; reflexivity].
    + destruct Hs as (_ & -> & Ht). eexists; split; [|exact Ht]. simpl; auto.
    + destruct Hs as (_ & -> & Ht). exact Ht.
  - pose proof (direct_steps q1 q2 w w' r Htx H) as Hs. cbv zeta in Hs.
    set (s1 := fst (exec d q1 (store w))) in *.
    destruct (Hq (store w)) as (P1 & _).
    destruct (Hq s1) as (P2 & _).
    specialize (P1 q1). specialize (P2 q2).
    destruct (snd (exec d q1 (store w))) as [[e1|]|p1];
      [| |exfalso; eapply P1; reflexivity].
    { destruct Hs as (_ & -> & Ht). eexists; split; [|exact Ht]. simpl; auto. }
    destruct Hs as (_ & -> & Ht).
    destruct (snd (exec d q2 s1)) as [[e2|]|p2];
      [| |exfalso; eapply P2; reflexivity].
    + eexists; split; [|exact Ht]. simpl; auto.
    + exact Ht.
Qed.

(** With atomic transactions, an action that does not return nil leaves
    what the database holds for good as it was. *)
Lemma run_action_atomic {C : Type} (committed : St -> C) (a : Action)
    (w w' : World St) (r : outcome) :
  has_tx d = true -> atomic d committed ->
  run_action d a w = (w', r) -> r <> Returned None ->
  committed (store w') = committed (store w).
Proof.
  intros Htx (Ab & Ae & Ar & Ac) H Hr.
  pose proof (run_action_queries a w) as Hq.
  destruct (queries_shape a) as [E|(q2 & E)]; rewrite E in Hq.
  { rewrite Hq in H. injection H as <- <-. congruence. }
  set (q1 := Statement (Action.Migration a)) in *.
  rewrite Hq in H. clear Hq.
  pose proof (transaction_steps q1 q2 w w' r Htx H) as Hs. cbv zeta in Hs.
  set (s0 := fst (begin d (store w))) in *.
  set (s1 := fst (tx_exec d q1 s0)) in *.
  set (s2 := fst (tx_exec d q2 s1)) in *.
  set (s3 := fst (commit d s2)) in *.
  assert (E0 : committed s0 = committed (store w)) by apply Ab.
  assert (E1 : committed s1 = committed (store w))
    by (unfold s1; rewrite Ae; exact E0).
  assert (E2 : committed s2 = committed (store w))
    by (unfold s2; rewrite Ae; exact E1).
  pose proof (Ac s2) as Hc. fold s3 in Hc.
  destruct (snd (begin d (store w))) as [[e0|]|p0];
    try (destruct Hs as (-> & _); exact E0).
  destruct (snd (tx_exec d q1 s0)) as [[e1|]|p1];
    try (destruct Hs as (-> & _); rewrite Ar; exact E1).
  destruct (snd (tx_exec d q2 s1)) as [[e2|]|p2];
    try (destruct Hs as (-> & _); rewrite Ar; exact E2).
  destruct (snd (commit d s2)) as [[e3|]|p3].
  - destruct Hs as (-> & _). rewrite Hc; [exact E2 | discriminate].
  - destruct Hs as (_ & -> & _). congruence.
  - destruct Hs as (-> & _). rewrite Ar, Hc; [exact E2 | discriminate].
Qed.

Lemma calls_app (w w' : World St) (t : list Call) :
  trace w' = trace w ++ t -> calls w' = calls w ++ flat_map query_of t.
Proof. unfold calls. intros ->. apply flat_map_app. Qed.

(** The queries of an action that returns nil: its two queries, or the
    first only when it panicked in the transaction. *)
Lemma run_action_success (a : Action) (w w' : World St) :
  run_action d a w = (w', Returned None) ->
  calls w' = calls w ++ queries a
  \/ (has_tx d = true /\ calls w' = calls w ++ firstn 1 (queries a)).
Proof.
  intro H. pose proof (run_action_queries a w) as Hq.
  destruct (queries_shape a) as [E|(q2 & E)]; rewrite E in *.
  { rewrite Hq in H. injection H as <-. left. rewrite app_nil_r. reflexivity. }
  set (q1 := Statement (Action.Migration a)) in *.
  rewrite Hq in H. clear Hq.
  destruct (has_tx d) eqn:Htx.
  - pose proof (transaction_steps q1 q2 w w' _ Htx H) as Hs. cbv zeta in Hs.
    destruct (snd (begin d (store w))) as [[e0|]|p0];
      try (destruct Hs as (_ & Hr & _); discriminate).
    destruct (snd (tx_exec d q1 _)) as [[e1|]|p1].
    + destruct Hs as (_ & Hr & _). destruct (snd (rollback d _)); discriminate.
    + destruct (snd (tx_exec d q2 _)) as [[e2|]|p2].
      * destruct Hs as (_ & Hr & _).
        destruct (snd (rollback d _)); discriminate.
      * destruct (snd (commit d _)) as [[e3|]|p3];
          destruct Hs as (_ & _ & Ht); left; apply (calls_app _ _ _ Ht).
      * destruct Hs as (_ & _ & Ht). left. apply (calls_app _ _ _ Ht).
    + destruct Hs as (_ & _ & Ht). right. split; [reflexivity|].
      apply (calls_app _ _ _ Ht).
  - pose proof (direct_steps q1 q2 w w' _ Htx H) as Hs. cbv zeta in Hs.
    destruct (snd (exec d q1 (store w))) as [[e1|]|p1];
      try (destruct Hs as (_ & Hr & _); discriminate).
    destruct Hs as (_ & _ & Ht). left. apply (calls_app _ _ _ Ht).
Qed.


(** With no panic, the calls of a list of actions that return nil are
    those of their units, in order. *)
Lemma migrate_loop_quiet (pre : list Action) :
  never_panics d ->
  forall w w1,
    migrate_loop d pre w = (w1, Returned None) ->
    trace w1 = trace w ++ flat_map (unit_calls (has_tx d)) pre.
Proof.
  intro Hq. induction pre as [|a pre IH]; intros w w1 H; simpl in H.
  - injection H as <-. simpl. rewrite app_nil_r. reflexivity.
  - destruct (run_action d a w) as [w' r] eqn:Ha.
    pose proof (run_action_quiet _ _ _ _ Hq Ha) as Hr.
    destruct r as [[e|]|p]; try discriminate.
    rewrite (IH _ _ H), Hr. simpl. rewrite app_assoc. reflexivity.
Qed.
End ExecutorFacts.

Lemma init_inited {St : Type} (d : Driver St) (s s0 : SQLDatabase St)
    (r : outcome) :
  init d s = (s0, r) -> inited s0 = true.
Proof.
  unfold init. destruct (inited s) eqn:E.
  - intros [= <- _]. exact E.
  - destruct (ExecContext d CreateTable (sqldb s)). intros [= <- _]. reflexivity.
Qed.

Lemma memDriver_atomic : atomic memDriver mem_committed.
Proof.
  unfold atomic, mem_committed. simpl. repeat split.
  - intro s. unfold mem_begin. simpl. destruct (saved s); reflexivity.
  - intros q s. unfold mem_tx_exec. destruct (saved s) as [p|] eqn:E;
      [|simpl; rewrite E; reflexivity].
    destruct q; simpl; repeat (break_match; simpl); rewrite ?E; reflexivity.
  - intro s. unfold mem_rollback. destruct (saved s) as [[e r]|] eqn:E; simpl;
      rewrite ?E; reflexivity.
  - intros s H. unfold mem_commit in *.
    destruct (saved s) as [p|] eqn:E; simpl in *; [congruence|].
    rewrite E. reflexivity.
Qed.

Lemma memDriver_never_panics : never_panics memDriver.
Proof.
  intro s. simpl. repeat split; intros.
  - destruct q; simpl; repeat (break_match; simpl); discriminate.
  - discriminate.
  - unfold mem_tx_exec. destruct (saved s); [|discriminate].
    destruct q; simpl; repeat (break_match; simpl); discriminate.
  - unfold mem_commit. destruct (saved s); discriminate.
  - unfold mem_rollback. destruct (saved s) as [[? ?]|]; discriminate.
Qed.

(** C5, counterexample: behind a value without [BeginTx] the statement
    and the bookkeeping of an action are two calls of their own.  Of the
    forward actions 1, 1 again and 3, the second fails at its
    bookkeeping, the version being recorded already, and its statement
    stays in the database. *)
Lemma halt_on_failure_counterexample : ~ stated_halt_on_failure memDriverNoTx.
Proof.
  intro H.
  destruct (H memNew _ [upAction 1 "up1"] [upAction 3 "up3"]
              (upAction 1 "again") _ _ eq_refl eq_refl) as (s' & _ & _ & Hs).
  vm_compute in Hs. discriminate.
Qed.

(** C5, amended: [Migrate] runs the actions in order and stops at the
    first one that does not return nil, an error or a panic that is not
    recovered.  It ends as that action ended, and what it leaves is what
    the failed action left, whatever actions come after, so none of
    these is attempted.  When no call panics, the calls made are those
    of the units of the actions before, each a transaction with the text
    and the bookkeeping of its action, and then those of the failed
    action up to the call that returned the error, with the rollback of
    its transaction when that call was made in it and was not the
    commit.  With [BeginTx] and atomic transactions, the failed action
    leaves what the database holds for good as the actions before left
    it.  In memory, of three forward actions whose second fails, at its
    statement or at its bookkeeping, only the first is in the database
    and no call is made for the third. *)
Theorem migrate_halts_on_failure :
  (forall (St : Type) (d : Driver St) (s s0 : SQLDatabase St)
          (pre post : list Action) (a : Action) (w1 w2 : World St)
          (r : outcome),
      init d s = (s0, Returned None) ->
      migrate_loop d pre (sqldb s0) = (w1, Returned None) ->
      run_action d a w1 = (w2, r) ->
      r <> Returned None ->
      Migrate d s (pre ++ a :: post) = ({| sqldb := w2; inited := true |}, r)
      /\ (never_panics d ->
          trace w1 = trace (sqldb s0) ++ flat_map (unit_calls (has_tx d)) pre
          /\ exists e t,
              r = Returned (Some e)
              /\ In t (failed_calls (has_tx d) a)
              /\ trace w2 = trace w1 ++ t)
      /\ (forall (C : Type) (committed : St -> C),
             has_tx d = true -> atomic d committed ->
             committed (store w2) = committed (store w1)))
  /\ (forall (St : Type) (d : Driver St) (pre post : list Action)
             (w w1 : World St),
         migrate_loop d pre w = (w1, Returned None) ->
         migrate_loop d (pre ++ post) w = migrate_loop d post w1)
  /\ atomic memDriver mem_committed
  /\ never_panics memDriver
  /\ Migrate memDriver memNew
       [upAction 1 "up1"; upAction 2 "fail"; upAction 3 "up3"]
     = ({| sqldb :=
             {| store := {| executed := ["up1"]; recorded := [1];
                            saved := None |};
                trace := [CallExec CreateTable;
                          CallBeginTx; CallTxExec (Statement "up1");
                          CallTxExec (InsertMigration 1); CallCommit;
                          CallBeginTx; CallTxExec (Statement "fail");
                          CallRollback] |};
           inited := true |},
        Returned (Some (Message "statement failed")))
  /\ Migrate memDriver memNew
       [upAction 1 "up1"; upAction 1 "again"; upAction 3 "up3"]
     = ({| sqldb :=
             {| store := {| executed := ["up1"]; recorded := [1];
                            saved := None |};
                trace := [CallExec CreateTable;
                          CallBeginTx; CallTxExec (Statement "up1");
                          CallTxExec (InsertMigration 1); CallCommit;
                          CallBeginTx; CallTxExec (Statement "again");
                          CallTxExec (InsertMigration 1);
                          CallRollback] |};
           inited := true |},
        Returned (Some (Message "duplicate key"))).
Proof.
  split; [|split; [|split; [|split; [|split; reflexivity]]]].
  2:{ intros St d pre post w w1 H. apply migrate_loop_app; assumption. }
  2:{ exact memDriver_atomic. }
  2:{ exact memDriver_never_panics. }
  intros St d s s0 pre post a w1 w2 r Hinit Hpre Ha Hr.
  split; [|split].
  - unfold Migrate. rewrite Hinit.
    rewrite (migrate_loop_halts _ d pre post a _ w1 w2 r Hpre Ha Hr).
    rewrite (init_inited _ _ _ _ Hinit). reflexivity.
  - intro Hq. split; [apply migrate_loop_quiet; assumption|].
    pose proof (run_action_quiet _ _ _ _ _ _ Hq Ha) as Hf.
    destruct r as [[e|]|p]; [|congruence|contradiction].
    destruct Hf as (t & Hin & Ht). eauto.
  - intros C committed Htx Hat.
    apply (run_action_atomic _ d committed a w1 w2 r Htx Hat Ha Hr).
Qed.

Lemma migrate_halts_on_failure_witness :
  Migrate memDriver memNew
    ([upAction 1 "up1"] ++ upAction 2 "fail" :: [upAction 3 "up3"])
  = ({| sqldb :=
          {| store := {| executed := ["up1"]; recorded := [1];
                         saved := None |};
             trace := [CallExec CreateTable;
                       CallBeginTx; CallTxExec (Statement "up1");
                       CallTxExec (InsertMigration 1); CallCommit;
                       CallBeginTx; CallTxExec (Statement "fail");
                       CallRollback] |};
        inited := true |},
     Returned (Some (Message "statement failed"))).
Proof.
  refine (proj1 (proj1 migrate_halts_on_failure MemDB memDriver memNew
                   {| sqldb := {| store := {| executed := []; recorded := [];
                                              saved := None |};
                                  trace := [CallExec CreateTable] |};
                      inited := true |}
                   [upAction 1 "up1"] [upAction 3 "up3"] (upAction 2 "fail")
                   {| store := {| executed := ["up1"]; recorded := [1];
                                  saved := None |};
                      trace := [CallExec CreateTable;
                                CallBeginTx; CallTxExec (Statement "up1");
                                CallTxExec (InsertMigration 1);
                                CallCommit] |}
                   _ _ _ _ _ _)).
  - reflexivity.
  - reflexivity.
  - reflexivity.
  - discriminate.
Defined.

(** ** File names *)

Lemma Split_not_nil (sep : ascii) (s : string) : Split sep s <> [].
Proof.
  destruct s as [|c rest]; simpl; [discriminate|].
  destruct (Ascii.eqb c sep); [discriminate|].
  destruct (Split sep rest); discriminate.
Qed.

Lemma Split_no_sep (sep : ascii) (s : string) :
  has_char sep s = false -> Split sep s = [s].
Proof.
  induction s as [|c rest IH]; simpl; intro H; auto.
  apply orb_false_iff in H; destruct H as [Hc Hr].
  rewrite Hc, (IH Hr). reflexivity.
Qed.

Lemma Split_app (sep : ascii) (a b : string) :
  Split sep (a ++ String sep b)%string = Split sep a ++ Split sep b.
Proof.
  induction a as [|c a IH]; simpl.
  - rewrite Ascii.eqb_refl. reflexivity.
  - destruct (Ascii.eqb c sep); rewrite IH; [reflexivity|].
    pose proof (Split_not_nil sep a) as Hne.
    destruct (Split sep a); [congruence | reflexivity].
Qed.

Lemma SplitN2_no_sep (sep : ascii) (s : string) :
  has_char sep s = false -> SplitN2 sep s = [s].
Proof.
  induction s as [|c rest IH]; simpl; intro H; auto.
  apply orb_false_iff in H; destruct H as [Hc Hr].
  rewrite Hc, (IH Hr). reflexivity.
Qed.

Lemma SplitN2_app (sep : ascii) (a b : string) :
  has_char sep a = false ->
  SplitN2 sep (a ++ String sep b)%string = [a; b].
Proof.
  induction a as [|c a IH]; simpl; intro H.
  - rewrite Ascii.eqb_refl. reflexivity.
  - apply orb_false_iff in H; destruct H as [Hc Hr].
    rewrite Hc, (IH Hr). reflexivity.
Qed.

Lemma strip_no_slash (s : string) :
  has_char "/" s = false -> strip_trailing_slashes s = s.
Proof.
  induction s as [|c rest IH]; simpl; intro H; auto.
  apply orb_false_iff in H; destruct H as [Hc Hr].
  rewrite (IH Hr), Hc. destruct rest; reflexivity.
Qed.

Lemma strip_app (a b : string) :
  strip_trailing_slashes b <> EmptyString ->
  strip_trailing_slashes (a ++ b)%string
  = (a ++ strip_trailing_slashes b)%string.
Proof.
  intro Hb. induction a as [|c a IH]; simpl; auto.
  rewrite IH.
  destruct (a ++ strip_trailing_slashes b)%string eqn:E; auto.
  destruct a; simpl in E; [contradiction | discriminate].
Qed.

Lemma last_app_not_nil {A : Type} (l1 l2 : list A) (d : A) :
  l2 <> [] -> last (l1 ++ l2) d = last l2 d.
Proof.
  intro H. induction l1 as [|x l1 IH]; simpl; auto.
  rewrite IH. destruct (l1 ++ l2) eqn:E; auto.
  apply app_eq_nil in E. destruct E; contradiction.
Qed.

(** The base name of a joined path is the entry's name. *)
Lemma Base_Join (dir name : string) :
  has_char "/" name = false -> name <> EmptyString ->
  Base (Join dir name) = name.
Proof.
  intros Hs Hne. unfold Join.
  assert (Hbase : Base name = name).
  { unfold Base. destruct name as [|c n]; [contradiction|].
    change (String c n =? "")%string with false. cbv iota.
    rewrite strip_no_slash by assumption.
    rewrite Split_no_sep by assumption. reflexivity. }
  destruct dir as [|c dir]; [exact Hbase|].
  change (String c dir =? "")%string with false. cbv iota.
  unfold Base.
  change ((String c dir ++ "/" ++ name)%string =? "")%string with false.
  cbv iota.
  change ("/" ++ name)%string with (String "/" name).
  assert (Hstrip : strip_trailing_slashes (String "/" name) = String "/" name).
  { simpl. rewrite strip_no_slash by assumption.
    destruct name; [contradiction | reflexivity]. }
  rewrite strip_app by (rewrite Hstrip; discriminate).
  rewrite Hstrip, Split_app.
  rewrite last_app_not_nil by apply Split_not_nil.
  rewrite Split_no_sep by assumption. simpl.
  destruct name; [contradiction | reflexivity].
Qed.

Lemma digit_char (d : nat) :
  (d < 10)%nat -> nat_of_ascii (ascii_of_nat (48 + d)) = (48 + d)%nat.
Proof. intro H. apply nat_ascii_embedding. lia. Qed.

Lemma parse_digits_digit_string (ds : list nat) (n : Z) :
  Forall (fun d => (d < 10)%nat) ds ->
  parse_digits (digit_string ds) n
  = Some (fold_left (fun n d => n * 10 + Z.of_nat d) ds n).
Proof.
  intro H; revert n. induction H as [|d ds Hd _ IH]; intro n;
    cbn [digit_string fold_right parse_digits fold_left]; auto.
  fold (digit_string ds).
  rewrite (digit_char d Hd).
  replace ((48 <=? 48 + d)%nat && (48 + d <=? 57)%nat) with true.
  2:{ symmetry. apply andb_true_iff. split; apply Nat.leb_le; lia. }
  replace (48 + d - 48)%nat with d by lia.
  apply IH.
Qed.

Lemma has_char_digit_string (c : ascii) (ds : list nat) :
  Forall (fun d => (d < 10)%nat) ds ->
  ~ is_digit c -> has_char c (digit_string ds) = false.
Proof.
  intros H Hc. induction H as [|d ds Hd _ IH];
    cbn [digit_string fold_right has_char]; auto.
  fold (digit_string ds).
  rewrite IH, orb_false_r.
  apply Ascii.eqb_neq. intros <-. apply Hc.
  unfold is_digit. rewrite (digit_char d Hd). lia.
Qed.

Lemma has_char_app (c : ascii) (a b : string) :
  has_char c (a ++ b)%string = has_char c a || has_char c b.
Proof.
  induction a as [|x a IH]; simpl; auto.
  rewrite IH, orb_assoc. reflexivity.
Qed.

Lemma decimal_nonneg (ds : list nat) (n : Z) :
  0 <= n -> 0 <= fold_left (fun n d => n * 10 + Z.of_nat d) ds n.
Proof.
  revert n; induction ds as [|d ds IH]; intros n Hn; simpl; auto.
  apply IH. lia.
Qed.

Lemma string_app_assoc (a b c : string) :
  (a ++ (b ++ c))%string = ((a ++ b) ++ c)%string.
Proof. induction a as [|x a IH]; simpl; [|rewrite IH]; reflexivity. Qed.

Lemma string_app_nil_r (a : string) : (a ++ "")%string = a.
Proof. induction a as [|x a IH]; simpl; [|rewrite IH]; reflexivity. Qed.

(** [Atoi] reads its sign by comparing the first byte. *)
Lemma Atoi_cases (ch : ascii) (rest : string) :
  Atoi (String ch rest)
  = if Ascii.eqb ch "-" then Atoi_digits true rest
    else if Ascii.eqb ch "+" then Atoi_digits false rest
    else Atoi_digits false (String ch rest).
Proof. destruct ch as [[] [] [] [] [] [] [] []]; reflexivity. Qed.

Lemma digit_not_sign (d : nat) :
  (d < 10)%nat ->
  Ascii.eqb (ascii_of_nat (48 + d)) "-" = false
  /\ Ascii.eqb (ascii_of_nat (48 + d)) "+" = false.
Proof.
  intro H. split; apply Ascii.eqb_neq; intro E;
    apply (f_equal nat_of_ascii) in E; rewrite (digit_char d H) in E;
    vm_compute in E; lia.
Qed.

Lemma Atoi_digits_digit_string (neg : bool) (ds : list nat) :
  ds <> [] -> Forall (fun d => (d < 10)%nat) ds ->
  minInt <= (if neg then - decimal ds else decimal ds) <= maxInt ->
  Atoi_digits neg (digit_string ds)
  = Some (if neg then - decimal ds else decimal ds).
Proof.
  intros Hne Hall Hrange.
  pose proof (parse_digits_digit_string ds 0 Hall) as Hp.
  fold (decimal ds) in Hp.
  destruct ds as [|d ds]; [congruence|].
  unfold Atoi_digits.
  change (digit_string (d :: ds))
    with (String (ascii_of_nat (48 + d)) (digit_string ds)) in *.
  rewrite Hp. cbv zeta.
  replace ((minInt <=? (if neg then - decimal (d :: ds) else decimal (d :: ds)))
           && ((if neg then - decimal (d :: ds) else decimal (d :: ds))
               <=? maxInt))
    with true; [reflexivity|].
  symmetry. apply andb_true_iff. split; apply Z.leb_le; lia.
Qed.

Lemma Atoi_signed (sign : string) (ds : list nat) :
  sign = EmptyString \/ sign = "+"%string \/ sign = "-"%string ->
  ds <> [] -> Forall (fun d => (d < 10)%nat) ds ->
  minInt <= signed sign (decimal ds) <= maxInt ->
  Atoi (sign ++ digit_string ds)%string = Some (signed sign (decimal ds)).
Proof.
  intros Hsign Hne Hall Hrange.
  destruct Hsign as [-> | [-> | ->]]; unfold signed in *; simpl in Hrange |- *.
  - destruct ds as [|d ds]; [congruence|].
    inversion Hall as [|? ? Hd _]; subst.
    change (digit_string (d :: ds))
      with (String (ascii_of_nat (48 + d)) (digit_string ds)).
    rewrite Atoi_cases.
    destruct (digit_not_sign d Hd) as [-> ->].
    apply (Atoi_digits_digit_string false (d :: ds)); auto.
  - apply (Atoi_digits_digit_string false ds); auto.
  - apply (Atoi_digits_digit_string true ds); auto.
Qed.

Lemma parse_digits_inv (s : string) :
  forall n m,
    parse_digits s n = Some m ->
    exists ds, s = digit_string ds
               /\ Forall (fun d => (d < 10)%nat) ds
               /\ m = fold_left (fun n d => n * 10 + Z.of_nat d) ds n.
Proof.
  induction s as [|ch rest IH]; intros n m H; cbn [parse_digits] in H.
  - injection H as <-. exists []. repeat split. constructor.
  - cbv zeta in H.
    destruct ((48 <=? nat_of_ascii ch) && (nat_of_ascii ch <=? 57))%nat eqn:E;
      [|discriminate].
    apply andb_true_iff in E. destruct E as [E1 E2].
    apply Nat.leb_le in E1, E2.
    destruct (IH _ _ H) as (ds & -> & Hall & ->).
    exists ((nat_of_ascii ch - 48)%nat :: ds). repeat split.
    + cbn [digit_string fold_right]. fold (digit_string ds).
      replace (48 + (nat_of_ascii ch - 48))%nat with (nat_of_ascii ch) by lia.
      rewrite ascii_nat_embedding. reflexivity.
    + constructor; [lia | assumption].
Qed.

Lemma Atoi_digits_inv (neg : bool) (s : string) (v : Z) :
  Atoi_digits neg s = Some v ->
  exists ds, s = digit_string ds /\ ds <> []
             /\ Forall (fun d => (d < 10)%nat) ds
             /\ v = (if neg then - decimal ds else decimal ds)
             /\ minInt <= v <= maxInt.
Proof.
  unfold Atoi_digits. intro H.
  destruct s as [|ch rest]; [discriminate|].
  destruct (parse_digits (String ch rest) 0) as [n|] eqn:E; [|discriminate].
  cbv zeta in H.
  destruct ((minInt <=? (if neg then - n else n))
            && ((if neg then - n else n) <=? maxInt)) eqn:R; [|discriminate].
  injection H as <-.
  apply andb_true_iff in R. destruct R as [R1 R2].
  apply Z.leb_le in R1, R2.
  destruct (parse_digits_inv _ _ _ E) as (ds & Hs & Hall & ->).
  exists ds. repeat split; auto.
  intros ->. discriminate.
Qed.

Lemma Atoi_inv (s : string) (v : Z) :
  Atoi s = Some v ->
  exists sign ds,
    s = (sign ++ digit_string ds)%string
    /\ (sign = EmptyString \/ sign = "+"%string \/ sign = "-"%string)
    /\ ds <> [] /\ Forall (fun d => (d < 10)%nat) ds
    /\ v = signed sign (decimal ds)
    /\ minInt <= v <= maxInt.
Proof.
  destruct s as [|ch rest]; [discriminate|].
  rewrite Atoi_cases.
  destruct (Ascii.eqb ch "-") eqn:Em; [|destruct (Ascii.eqb ch "+") eqn:Ep];
    intro H; apply Atoi_digits_inv in H;
    destruct H as (ds & Hs & Hne & Hall & Hv & Hr).
  - apply Ascii.eqb_eq in Em. subst ch rest.
    exists "-"%string, ds. repeat split; auto; lia.
  - apply Ascii.eqb_eq in Ep. subst ch rest.
    exists "+"%string, ds. repeat split; auto; lia.
  - exists EmptyString, ds. repeat split; auto; lia.
Qed.

Lemma Split_one (sep : ascii) (s b : string) :
  Split sep s = [b] -> s = b /\ has_char sep s = false.
Proof.
  revert b; induction s as [|c rest IH]; intros b H; simpl in *.
  - injection H as <-. auto.
  - destruct (Ascii.eqb c sep) eqn:E.
    + pose proof (Split_not_nil sep rest).
      destruct (Split sep rest); [contradiction | discriminate].
    + destruct (Split sep rest) as [|h t] eqn:Es; [|destruct t];
        try discriminate.
      * injection H as <-.
        pose proof (Split_not_nil sep rest). contradiction.
      * injection H as <-. destruct (IH h eq_refl) as [-> Hh].
        rewrite Hh. auto.
Qed.

Lemma Split_two (sep : ascii) (s a b : string) :
  Split sep s = [a; b] ->
  s = (a ++ String sep b)%string
  /\ has_char sep a = false /\ has_char sep b = false.
Proof.
  revert a; induction s as [|c rest IH]; intros a H; simpl in *.
  - discriminate.
  - destruct (Ascii.eqb c sep) eqn:E.
    + injection H as <- H. apply Split_one in H. destruct H as [-> Hb].
      apply Ascii.eqb_eq in E. subst c. auto.
    + destruct (Split sep rest) as [|h t] eqn:Es; [discriminate|].
      injection H as <- ->.
      destruct (IH h eq_refl) as (-> & Hh & Hb).
      simpl. rewrite E, Hh. auto.
Qed.

Lemma SplitN2_first (sep : ascii) (s : string) :
  (SplitN2 sep s = [s] /\ has_char sep s = false)
  \/ exists a b, SplitN2 sep s = [a; b]
                 /\ s = (a ++ String sep b)%string /\ has_char sep a = false.
Proof.
  induction s as [|c rest IH]; simpl; [left; auto|].
  destruct (Ascii.eqb c sep) eqn:E.
  - right. exists EmptyString, rest. apply Ascii.eqb_eq in E. subst c. auto.
  - destruct IH as [[-> Hr]|(a & b & -> & -> & Ha)].
    + left. rewrite Hr. auto.
    + right. exists (String c a), b. simpl. rewrite E, Ha. auto.
Qed.

Lemma sign_no_char (c : ascii) (sign : string) :
  sign = EmptyString \/ sign = "+"%string \/ sign = "-"%string ->
  Ascii.eqb "+" c = false -> Ascii.eqb "-" c = false ->
  has_char c sign = false.
Proof.
  intros [-> | [-> | ->]] Hp Hm; cbn [has_char]; auto.
  - rewrite Hp. reflexivity.
  - rewrite Hm. reflexivity.
Qed.

Lemma not_digit (c : ascii) :
  (nat_of_ascii c < 48)%nat \/ (57 < nat_of_ascii c)%nat -> ~ is_digit c.
Proof. unfold is_digit. lia. Qed.

(** The names of the form above are accepted, with their version. *)
Lemma parseFileName_accepts (dir name : string) (v : Z) :
  has_char "/" name = false ->
  accepted_name name v -> parseFileName (Join dir name) = Some v.
Proof.
  intros Hslash (sign & ds & suffix & -> & Hsign & Hne & Hall & Hsuf & -> & Hr).
  assert (Hdot : has_char "." (sign ++ digit_string ds) = false).
  { rewrite has_char_app, has_char_digit_string, orb_false_r; auto.
    - apply sign_no_char; auto.
    - apply not_digit. vm_compute. lia. }
  assert (Hund : has_char "_" (sign ++ digit_string ds) = false).
  { rewrite has_char_app, has_char_digit_string, orb_false_r; auto.
    - apply sign_no_char; auto.
    - apply not_digit. vm_compute. lia. }
  assert (Hsdot : has_char "." suffix = false).
  { destruct Hsuf as [->|(label & -> & H1)]; simpl; auto. }
  unfold parseFileName.
  rewrite Base_Join; auto.
  2:{ destruct sign; [|discriminate].
      destruct ds as [|d ds]; [congruence | discriminate]. }
  replace (sign ++ digit_string ds ++ suffix ++ ".sql")%string
    with (((sign ++ digit_string ds) ++ suffix) ++ String "." "sql")%string
    by (rewrite <- !string_app_assoc; reflexivity).
  rewrite Split_app.
  rewrite Split_no_sep by (rewrite has_char_app, Hdot, Hsdot; reflexivity).
  simpl.
  destruct Hsuf as [->|(label & -> & _)].
  - rewrite string_app_nil_r, SplitN2_no_sep by assumption. simpl.
    apply Atoi_signed; assumption.
  - rewrite SplitN2_app by assumption. simpl.
    apply Atoi_signed; assumption.
Qed.

(** Only those names are accepted. *)
Lemma parseFileName_accepted (dir name : string) (v : Z) :
  has_char "/" name = false -> name <> EmptyString ->
  parseFileName (Join dir name) = Some v -> accepted_name name v.
Proof.
  intros Hslash Hne. unfold parseFileName.
  rewrite Base_Join by assumption.
  destruct (Split "." name) as [|a [|b [|c p]]] eqn:Es; simpl;
    try discriminate.
  destruct (b =? "sql")%string eqn:Eb; simpl; [|discriminate].
  apply String.eqb_eq in Eb. subst b.
  apply Split_two in Es. destruct Es as (-> & Ha & _).
  intro H.
  destruct (SplitN2_first "_" a) as [[Hs Hu]|(pre & label & Hs & -> & Hu)];
    rewrite Hs in H; simpl in H;
    apply Atoi_inv in H;
    destruct H as (sign & ds & Hpre & Hsign & Hds & Hall & Hv & Hr).
  - exists sign, ds, EmptyString. subst a.
    repeat split; auto; try lia; [|left; reflexivity].
    simpl. rewrite <- string_app_assoc. reflexivity.
  - exists sign, ds, (String "_" label). subst pre.
    repeat split; auto; try lia.
    + rewrite <- !string_app_assoc. reflexivity.
    + right. exists label. split; auto.
      rewrite has_char_app in Ha. apply orb_false_iff in Ha.
      destruct Ha as [_ Ha]. simpl in Ha. exact Ha.
Qed.

Lemma list_entries_fails (path : string) (dir : list DirEntry) (e : DirEntry) :
  In e dir -> IsDir e = false -> parseFileName (Join path (Name e)) = None ->
  forall ms, list_entries path dir ms = Err (Message "invalid file name").
Proof.
  intros Hin Hd Hp.
  induction dir as [|x dir IH]; intro ms; [destruct Hin|].
  simpl. destruct (IsDir x) eqn:Ex.
  - destruct Hin as [->|Hin]; [congruence | apply IH; assumption].
  - destruct (parseFileName (Join path (Name x))) as [v|] eqn:Ep; auto.
    destruct Hin as [->|Hin]; [congruence | apply IH; assumption].
Qed.

Lemma list_entries_listed (path : string) (dir : list DirEntry) :
  forall acc ms,
    list_entries path dir acc = Ok ms ->
    exists new, ms = acc ++ new /\ listed path dir new.
Proof.
  induction dir as [|e dir IH]; intros acc ms H; simpl in H.
  - injection H as <-. exists []. rewrite app_nil_r. split; constructor.
  - destruct (IsDir e) eqn:Ed.
    + destruct (IH _ _ H) as (new & -> & Hl).
      exists new; split; auto. constructor; assumption.
    + destruct (parseFileName (Join path (Name e))) as [v|] eqn:Ep;
        [|discriminate].
      destruct (IH _ _ H) as (new & -> & Hl).
      rewrite <- app_assoc. eexists; split; [reflexivity|].
      constructor; assumption.
Qed.

Lemma list_entries_total (path : string) (dir : list DirEntry) :
  (forall e, In e dir -> IsDir e = false ->
             parseFileName (Join path (Name e)) <> None) ->
  forall acc, exists ms, list_entries path dir acc = Ok ms.
Proof.
  induction dir as [|e dir IH]; intros H acc; simpl; eauto.
  assert (H' : forall e', In e' dir -> IsDir e' = false ->
                          parseFileName (Join path (Name e')) <> None)
    by (intros; apply H; simpl; auto).
  destruct (IsDir e) eqn:Ed; [apply IH; assumption|].
  destruct (parseFileName (Join path (Name e))) as [v|] eqn:Ep.
  - apply IH; assumption.
  - exfalso. apply (H e); simpl; auto.
Qed.

(** C9, counterexample: [1_init.txt] follows the convention and is
    refused, since its extension is not [sql]. *)
Lemma file_convention_counterexample : ~ stated_file_convention.
Proof.
  intro H.
  destruct (H "testdata"%string "1_init.txt"%string) as (v & Hv).
  - exists [1%nat], "init"%string, "txt"%string.
    repeat split; try discriminate.
    + repeat constructor.
    + right. reflexivity.
  - vm_compute in Hv. discriminate.
Qed.

(** C9, amended: the names the adapter accepts are those made of a
    decimal integer, with or without a sign, that fits in an [int], then
    nothing or an underscore and a label without a dot, then [.sql]; the
    version is that integer.  In particular a name made of digits, an
    optional label and [.sql] gives the value of the digits.  [List]
    returns one migration for each entry that is not a directory, in
    order, with the version its name gives, and it fails, without any
    migration, as soon as one of these entries has a name that is not
    accepted; names with another extension, with a second dot or without
    a leading integer are such names. *)
Theorem file_name_convention :
  (forall dir name v,
      has_char "/" name = false -> name <> EmptyString ->
      (parseFileName (Join dir name) = Some v <-> accepted_name name v))
  /\ (forall dir ds suffix,
         ds <> [] -> Forall (fun d => (d < 10)%nat) ds ->
         decimal ds <= maxInt ->
         label_suffix suffix -> has_char "/" suffix = false ->
         parseFileName (Join dir (digit_string ds ++ suffix ++ ".sql")%string)
         = Some (decimal ds))
  /\ (forall path dir,
         (forall e, In e dir -> IsDir e = false ->
                    parseFileName (Join path (Name e)) <> None) ->
         exists ms, List path (Ok dir) = Ok ms /\ listed path dir ms)
  /\ (forall path dir e,
         In e dir -> IsDir e = false ->
         parseFileName (Join path (Name e)) = None ->
         List path (Ok dir) = Err (Message "invalid file name"))
  /\ parseFileName "testdata/1_init.txt" = None
  /\ parseFileName "testdata/1_a.b.sql" = None
  /\ parseFileName "testdata/init_1.sql" = None.
Proof.
  split; [|split; [|split; [|split; [|repeat split]]]].
  - intros dir name v Hs Hne. split.
    + apply parseFileName_accepted; assumption.
    + apply parseFileName_accepts; assumption.
  - intros dir ds suffix Hne Hall Hmax Hsuf Hslash.
    apply parseFileName_accepts.
    + rewrite !has_char_app, Hslash.
      rewrite has_char_digit_string; auto.
      apply not_digit. vm_compute. lia.
    + exists EmptyString, ds, suffix.
      pose proof (decimal_nonneg ds 0 (Z.le_refl 0)) as H0.
      fold (decimal ds) in H0.
      repeat split; auto; unfold signed; simpl; try lia.
      unfold minInt. lia.
  - intros path dir H. unfold List.
    destruct (list_entries_total path dir H []) as (ms & Hms).
    exists ms; split; auto.
    destruct (list_entries_listed _ _ _ _ Hms) as (new & -> & Hl). exact Hl.
  - intros path dir e Hin Hd Hp. unfold List.
    eapply list_entries_fails; eauto.
Qed.

Lemma file_name_convention_witness :
  parseFileName
    (Join "testdata" (digit_string [4%nat; 2%nat] ++ "_users" ++ ".sql")%string)
  = Some (decimal [4%nat; 2%nat]).
Proof.
  apply (proj1 (proj2 file_name_convention) "testdata"%string [4%nat; 2%nat]
           "_users"%string).
  - discriminate.
  - repeat constructor.
  - vm_compute. discriminate.
  - right. exists "users"%string. split; reflexivity.
  - reflexivity.
Defined.

(** * Further properties *)

(** ** The two lookups of the planner *)

(** The test of the forward loop, a binary search in the sorted list of
    recorded versions, holds exactly of the recorded versions. *)
Theorem applied_test_exact (applied : list Z) (v : Z) :
  (is_applied (sortInts applied) v = true <-> In v applied)
  /\ (is_applied (sortInts applied) v = false <-> ~ In v applied).
Proof. split; [apply is_applied_sortInts | apply is_applied_false]. Qed.

Lemma has_version_In (catalog : list Migration) (v : Z) :
  has_version catalog v = true <-> In v (map Version catalog).
Proof.
  unfold has_version. rewrite existsb_exists, in_map_iff.
  split; intros (m & H1 & H2); exists m.
  - apply Z.eqb_eq in H2. auto.
  - split; auto. apply Z.eqb_eq; assumption.
Qed.

(** The lookup of the backward loop, a binary search in the catalog
    sorted by version, finds a migration exactly for the versions of the
    catalog, and the migration it finds has the version asked for. *)
Theorem catalog_lookup_exact (catalog : list Migration) (v : Z) :
  (forall m, find_migration (sortMigrations catalog) v = Some m ->
             In m catalog /\ Version m = v)
  /\ (In v (map Version catalog) ->
      exists m, find_migration (sortMigrations catalog) v = Some m)
  /\ (find_migration (sortMigrations catalog) v = None <->
      ~ In v (map Version catalog)).
Proof.
  split; [|split].
  - intros m H. apply find_migration_Some in H. destruct H as [H1 H2].
    split; auto. apply sortMigrations_In; assumption.
  - intro H. apply find_migration_In.
    + apply sortMigrations_sorted.
    + apply sortMigrations_versions; assumption.
  - rewrite find_migration_None by apply sortMigrations_sorted.
    rewrite sortMigrations_versions. reflexivity.
Qed.

Lemma catalog_lookup_exact_witness :
  exists m, find_migration (sortMigrations [tm3; tm1; tm2]) 2 = Some m.
Proof.
  apply (proj1 (proj2 (catalog_lookup_exact [tm3; tm1; tm2] 2))).
  simpl. auto.
Defined.

(** ** LatestVersion and CurrentVersion *)

(** [LatestVersion] and [CurrentVersion] return a number that is not
    negative and not below any version of the list; it is 0 or a version
    of the list.  So it is the greatest version when one is positive, and
    0 for an empty list or for versions that are all negative. *)
Theorem version_queries :
  (forall catalog,
      0 <= LatestVersion catalog
      /\ (forall m, In m catalog -> Version m <= LatestVersion catalog)
      /\ (LatestVersion catalog = 0
          \/ exists m, In m catalog /\ Version m = LatestVersion catalog))
  /\ (forall applied,
         0 <= CurrentVersion applied
         /\ (forall v, In v applied -> v <= CurrentVersion applied)
         /\ (CurrentVersion applied = 0 \/ In (CurrentVersion applied) applied)).
Proof.
  split.
  - intro catalog. unfold LatestVersion.
    destruct (max_from_zero_spec (map Version catalog)) as (H0 & Hall & Hin).
    rewrite Forall_forall in Hall.
    repeat split; auto.
    + intros m Hm. apply Hall, in_map, Hm.
    + destruct Hin as [Hz|Hin]; [left; auto | right].
      apply in_map_iff in Hin. destruct Hin as (m & H1 & H2). eauto.
  - intro applied. unfold CurrentVersion.
    destruct (max_from_zero_spec applied) as (H0 & Hall & Hin).
    rewrite Forall_forall in Hall. repeat split; auto.
Qed.

Lemma version_queries_witness : Version tm2 <= LatestVersion [tm1; tm2; tm3].
Proof.
  apply (proj1 (proj2 (proj1 version_queries [tm1; tm2; tm3])) tm2).
  simpl. auto.
Defined.

(** ** Where the errors of planning come from *)

Lemma walk_up_error (dbList : list Z) (version : Z) (ms : list Migration) :
  forall actions e,
    walk_up dbList version actions ms = Err e ->
    exists k m c,
      In m ms /\ e = Unable k (Version m) c /\ payload k m = Err c
      /\ Version m <= version /\ is_applied dbList (Version m) = false
      /\ ((k = LoadSnapshot /\ dbList = []) \/ k = LoadUp).
Proof.
  induction ms as [|pm ms IH]; intros actions e H; simpl in H;
    [discriminate|].
  assert (Hrec : forall acts, walk_up dbList version acts ms = Err e ->
                 exists k m c,
                   In m (pm :: ms) /\ e = Unable k (Version m) c
                   /\ payload k m = Err c
                   /\ Version m <= version
                   /\ is_applied dbList (Version m) = false
                   /\ ((k = LoadSnapshot /\ dbList = []) \/ k = LoadUp)).
  { intros acts Ha. destruct (IH _ _ Ha) as (k & m & c & Hin & Hrest).
    exists k, m, c. split; [right; assumption | exact Hrest]. }
  destruct (version <? Version pm) eqn:Hv; [discriminate|].
  apply Z.ltb_ge in Hv.
  destruct (is_applied dbList (Version pm)) eqn:Ha; simpl in H; [eauto|].
  assert (Hup : forall c, Up pm = Err c ->
                exists k m c',
                  In m (pm :: ms) /\ Unable LoadUp (Version pm) c
                                     = Unable k (Version m) c'
                  /\ payload k m = Err c'
                  /\ Version m <= version
                  /\ is_applied dbList (Version m) = false
                  /\ ((k = LoadSnapshot /\ dbList = []) \/ k = LoadUp)).
  { intros c Hc. exists LoadUp, pm, c. simpl. repeat split; auto. }
  destruct (List.length dbList =? 0)%nat eqn:Hl.
  - assert (Hdb : dbList = []) by (destruct dbList; [auto | discriminate]).
    destruct (Snapshot pm) as [s|c] eqn:Hs.
    + destruct (0 <? String.length s)%nat; [eauto|].
      destruct (Up pm) as [up|c] eqn:Hu; [eauto|].
      injection H as <-. auto.
    + injection H as <-. exists LoadSnapshot, pm, c. simpl.
      repeat split; auto.
  - destruct (Up pm) as [up|c] eqn:Hu; [eauto|].
    injection H as <-. auto.
Qed.

Lemma walk_down_error (provList : list Migration) (version : Z) (vs : list Z) :
  forall actions e,
    walk_down provList version actions vs = Err e ->
    exists m c v,
      In m provList /\ In v vs /\ version < v /\ Version m = v
      /\ e = Unable LoadDown (Version m) c /\ Down m = Err c.
Proof.
  induction vs as [|v vs IH]; intros actions e H; simpl in H;
    [discriminate|].
  assert (Hrec : forall acts, walk_down provList version acts vs = Err e ->
                 exists m c v',
                   In m provList /\ In v' (v :: vs) /\ version < v'
                   /\ Version m = v'
                   /\ e = Unable LoadDown (Version m) c /\ Down m = Err c).
  { intros acts Ha. destruct (IH _ _ Ha) as (m & c & v' & H1 & H2 & Hrest).
    exists m, c, v'. repeat split; auto; try tauto. right; assumption. }
  destruct (v <=? version) eqn:Hv; [discriminate|].
  apply Z.leb_gt in Hv.
  destruct (find_migration provList v) as [m|] eqn:Hf; [|eauto].
  destruct (Down m) as [down|c] eqn:Hd; [eauto|].
  injection H as <-.
  apply find_migration_Some in Hf. destruct Hf as [Hm Hmv].
  exists m, c, v. repeat split; auto. left; reflexivity.
Qed.

(** Once the two lists are fetched, planning fails only on a text that
    fails to load. *)
Lemma plan_error_payload (catalog : list Migration) (applied : list Z)
    (target : Z) (e : error) :
  plan catalog applied target = Err e ->
  exists k m c,
    In m catalog /\ e = Unable k (Version m) c /\ payload k m = Err c
    /\ match k with
       | LoadSnapshot =>
           applied = [] /\ latestApplied applied < target
           /\ Version m <= target
       | LoadUp =>
           latestApplied applied < target
           /\ Version m <= target /\ ~ In (Version m) applied
       | LoadDown =>
           target < latestApplied applied
           /\ target < Version m /\ In (Version m) applied
       end.
Proof.
  intro Hp.
  destruct catalog as [|m0 ms] eqn:Hcat; [discriminate|].
  rewrite <- Hcat in *.
  assert (Hne : catalog <> []) by (subst; discriminate).
  clear Hcat m0 ms.
  destruct (Z.lt_trichotomy (latestApplied applied) target) as [Hlt|[Heq|Hgt]].
  - rewrite plan_forward in Hp by assumption.
    apply walk_up_error in Hp.
    destruct Hp as (k & m & c & Hin & He & Hpay & Hv & Ha & Hk).
    exists k, m, c. repeat split; auto.
    + apply sortMigrations_In; assumption.
    + apply is_applied_false in Ha.
      destruct Hk as [[-> Hdb]| ->]; repeat split; auto.
      apply sort_by_nil in Hdb. exact Hdb.
  - subst target. rewrite plan_noop in Hp. discriminate.
  - rewrite plan_backward in Hp by assumption.
    apply walk_down_error in Hp.
    destruct Hp as (m & c & v & Hin & Hv & Ht & Hmv & He & Hd).
    exists LoadDown, m, c. repeat split; auto.
    + apply sortMigrations_In; assumption.
    + lia.
    + rewrite Hmv. apply sortInts_In, in_rev. assumption.
Qed.

(** [Migrator.plan] fails for three reasons only.  The provider could
    not list the migrations: its error is returned.  The provider listed
    a migration and the database could not list the recorded versions:
    its error is returned.  Or a text fails to load: the error names a
    migration of the catalog and carries the error of one of its texts;
    it is the snapshot only when nothing is recorded, the snapshot or the
    forward text only when moving forward for a version at most the
    target that is not recorded, and the backward text only when moving
    backward for a recorded version above the target. *)
Theorem plan_error_cause (prov : result (list Migration))
    (db : result (list Z)) (target : Z) (e : error) :
  Migrator_plan prov db target = Err e ->
  prov = Err e
  \/ (exists catalog, prov = Ok catalog /\ catalog <> [] /\ db = Err e)
  \/ (exists catalog applied k m c,
         prov = Ok catalog /\ db = Ok applied
         /\ In m catalog /\ e = Unable k (Version m) c /\ payload k m = Err c
         /\ match k with
            | LoadSnapshot =>
                applied = [] /\ latestApplied applied < target
                /\ Version m <= target
            | LoadUp =>
                latestApplied applied < target
                /\ Version m <= target /\ ~ In (Version m) applied
            | LoadDown =>
                target < latestApplied applied
                /\ target < Version m /\ In (Version m) applied
            end).
Proof.
  unfold Migrator_plan. intro H.
  destruct prov as [catalog|e0]; [|left; congruence].
  destruct catalog as [|m0 ms] eqn:Hcat; [discriminate|].
  rewrite <- Hcat in *.
  assert (Hne : catalog <> []) by (subst; discriminate).
  clear Hcat m0 ms. right.
  destruct db as [applied|e1].
  - right. destruct (plan_error_payload _ _ _ _ H) as (k & m & c & Hc).
    exists catalog, applied, k, m, c. auto.
  - left. exists catalog. repeat split; auto. congruence.
Qed.

Lemma plan_error_cause_witness :
  Ok [tm1; tm2_broken; tm3] = Err (Unable LoadUp 2 (Message "read error"))
  \/ (exists catalog,
         Ok [tm1; tm2_broken; tm3] = Ok catalog /\ catalog <> []
         /\ Ok [1] = Err (Unable LoadUp 2 (Message "read error")))
  \/ (exists catalog applied k m c,
         Ok [tm1; tm2_broken; tm3] = Ok catalog /\ Ok [1] = Ok applied
         /\ In m catalog
         /\ Unable LoadUp 2 (Message "read error") = Unable k (Version m) c
         /\ payload k m = Err c
         /\ match k with
            | LoadSnapshot =>
                applied = [] /\ latestApplied applied < 3
                /\ Version m <= 3
            | LoadUp =>
                latestApplied applied < 3
                /\ Version m <= 3 /\ ~ In (Version m) applied
            | LoadDown =>
                3 < latestApplied applied
                /\ 3 < Version m /\ In (Version m) applied
            end).
Proof.
  apply (plan_error_cause (Ok [tm1; tm2_broken; tm3]) (Ok [1]) 3).
  reflexivity.
Defined.

Lemma applied_test_exact_witness : is_applied (sortInts [3; 1]) 3 = true.
Proof. apply (proj1 (applied_test_exact [3; 1] 3)). simpl. auto. Defined.

(** ** What the plans contain *)

Lemma filter_above_none (f : Z -> bool) (version : Z) (vs : list Z) :
  Forall (fun u => u <= version) vs ->
  filter (fun v => (version <? v) && f v) vs = [].
Proof.
  induction 1 as [|u vs Hu _ IH]; simpl; auto.
  replace (version <? u) with false by (symmetry; apply Z.ltb_ge; lia).
  exact IH.
Qed.

Lemma walk_down_versions (provList : list Migration) (version : Z) (vs : list Z) :
  StronglySorted Z.le (map Version provList) ->
  StronglySorted Z.ge vs ->
  forall actions res,
    walk_down provList version actions vs = Ok res ->
    versions res
    = versions actions
      ++ filter (fun v => (version <? v) && has_version provList v) vs.
Proof.
  intros Hprov Hs.
  induction Hs as [|v vs Hs IH Ha]; intros actions res H; simpl in H.
  - injection H as <-. simpl. rewrite app_nil_r. reflexivity.
  - cbn [filter]. destruct (v <=? version) eqn:Hv.
    + injection H as <-. apply Z.leb_le in Hv.
      replace (version <? v) with false by (symmetry; apply Z.ltb_ge; lia).
      simpl.
      rewrite filter_above_none; [rewrite app_nil_r; reflexivity|].
      eapply Forall_impl; [|exact Ha]. intros u Hu. cbv beta in Hu. lia.
    + apply Z.leb_gt in Hv.
      replace (version <? v) with true by (symmetry; apply Z.ltb_lt; lia).
      simpl.
      destruct (find_migration provList v) as [m|] eqn:Hf.
      * destruct (Down m) as [down|c]; [|discriminate].
        assert (Hin : has_version provList v = true).
        { apply has_version_In. apply find_migration_Some in Hf.
          destruct Hf as [Hm <-]. apply in_map; assumption. }
        rewrite Hin. rewrite (IH _ _ H).
        apply find_migration_Some in Hf. destruct Hf as [_ Hmv].
        unfold versions. rewrite map_app, <- app_assoc. simpl.
        rewrite Hmv. reflexivity.
      * assert (Hin : has_version provList v = false).
        { apply (find_migration_None _ _ Hprov) in Hf.
          destruct (has_version provList v) eqn:E; auto.
          apply has_version_In in E. contradiction. }
        rewrite Hin. apply IH; assumption.
Qed.

Lemma has_version_sort (catalog : list Migration) (v : Z) :
  has_version (sortMigrations catalog) v = has_version catalog v.
Proof.
  destruct (has_version catalog v) eqn:E.
  - apply has_version_In. apply sortMigrations_versions.
    apply has_version_In; assumption.
  - destruct (has_version (sortMigrations catalog) v) eqn:E'; auto.
    apply (proj1 (has_version_In _ _)) in E'.
    apply (proj1 (sortMigrations_versions _ _)) in E'.
    apply (proj2 (has_version_In _ _)) in E'. congruence.
Qed.

(** A backward plan reverts, from the highest down, exactly the recorded
    versions above the target that the catalog has; each action carries
    the backward text of a migration of the catalog with that version. *)
Theorem backward_plan_exact (catalog : list Migration) (applied : list Z)
    (target : Z) (acts : list Action) :
  target < latestApplied applied ->
  plan catalog applied target = Ok acts ->
  versions acts
  = filter (fun v => (target <? v) && has_version catalog v)
      (rev (sortInts applied))
  /\ Forall (fun a =>
               Action.Direction a = Direction.Down
               /\ exists m, In m catalog /\ Version m = Action.Version a
                            /\ Down m = Ok (Action.Migration a)) acts.
Proof.
  intros Hgt Hp.
  destruct catalog as [|m0 ms] eqn:Hcat.
  { injection Hp as <-. split; [|constructor]. simpl.
    induction (rev (sortInts applied)) as [|v l IH]; simpl; auto.
    rewrite andb_false_r. exact IH. }
  rewrite <- Hcat in *.
  assert (Hne : catalog <> []) by (subst; discriminate).
  clear Hcat m0 ms.
  rewrite plan_backward in Hp by assumption.
  split.
  - rewrite (walk_down_versions _ _ _ (sortMigrations_sorted catalog)
               (StronglySorted_impl _ _ _
                  (fun a b (H : b <= a) => Z.le_ge _ _ H)
                  (StronglySorted_rev Z.le _ (sortInts_sorted applied)))
               _ _ Hp).
    simpl. apply filter_ext. intro v. rewrite has_version_sort. reflexivity.
  - eapply walk_down_Forall; [| constructor | exact Hp].
    intros v m text Hin Hv Hf Hd. simpl. split; auto.
    apply find_migration_Some in Hf. destruct Hf as [Hm _].
    exists m. repeat split; auto. apply sortMigrations_In; assumption.
Qed.

Lemma backward_plan_exact_witness :
  versions [downAction 3 "down3"; downAction 2 "down2"]
  = filter (fun v => (1 <? v) && has_version [tm1; tm2; tm3] v)
      (rev (sortInts [1; 2; 3; 7])).
Proof.
  apply (proj1 (backward_plan_exact [tm1; tm2; tm3] [1; 2; 3; 7] 1
                  [downAction 3 "down3"; downAction 2 "down2"]
                  ltac:(vm_compute; reflexivity) eq_refl)).
Defined.

(** With something recorded, a forward plan has an action exactly for
    the catalog versions at most the target that are not recorded and are
    above every recorded version of the catalog; each action carries the
    forward text of a migration of the catalog with that version. *)
Theorem forward_plan_exact (catalog : list Migration) (applied : list Z)
    (target : Z) (acts : list Action) :
  applied <> [] ->
  latestApplied applied < target ->
  plan catalog applied target = Ok acts ->
  (forall v,
      In v (versions acts) <->
      In v (map Version catalog) /\ v <= target /\ ~ In v applied
      /\ forall u, In u applied -> In u (map Version catalog) -> u < v)
  /\ Forall (fun a =>
               Action.Direction a = Direction.Up
               /\ exists m, In m catalog /\ Version m = Action.Version a
                            /\ Up m = Ok (Action.Migration a)) acts.
Proof.
  intros Happ Hlt Hp.
  destruct catalog as [|m0 ms] eqn:Hcat.
  { injection Hp as <-. split; [|constructor].
    intro v; simpl; tauto. }
  rewrite <- Hcat in *.
  assert (Hne : catalog <> []) by (subst; discriminate).
  clear Hcat m0 ms.
  rewrite plan_forward in Hp by assumption.
  assert (Hdb : sortInts applied <> []).
  { intro E. apply sort_by_nil in E. contradiction. }
  split.
  - intro v. split.
    + intro Hv. unfold versions in Hv. apply in_map_iff in Hv.
      destruct Hv as (a & <- & Ha).
      destruct (forward_plan_actions _ _ _ _ Hp) as (_ & _ & _ & Hall).
      rewrite Forall_forall in Hall.
      destruct (Hall a Ha) as (H1 & H2 & H3).
      repeat split; auto.
      intros u Hu Hc.
      pose proof (forward_plan_after_applied _ _ _ _ u Hlt Hp Hu Hc) as Hf.
      rewrite Forall_forall in Hf. apply Hf; assumption.
    + intros (Hc & Hv & Hnin & Habove).
      exact (forward_plan_includes catalog applied target acts v
               Happ Hp Hc Hv Hnin Habove).
  - eapply walk_up_Forall; [| constructor | exact Hp].
    intros pm text Hin Hv Ha [Hu|[Hd _]]; [|contradiction].
    simpl. split; auto. exists pm. repeat split; auto.
    apply sortMigrations_In; assumption.
Qed.

Lemma forward_plan_exact_witness :
  In 4 (versions [upAction 4 "up4"]) <->
  In 4 (map Version [tm1; tm2; tm3; tm4]) /\ 4 <= 4 /\ ~ In 4 [1; 3]
  /\ forall u, In u [1; 3] -> In u (map Version [tm1; tm2; tm3; tm4]) -> u < 4.
Proof.
  apply (proj1 (forward_plan_exact [tm1; tm2; tm3; tm4] [1; 3] 4
                  [upAction 4 "up4"]
                  ltac:(discriminate) ltac:(vm_compute; reflexivity) eq_refl)).
Defined.

(** With nothing recorded, a walk that starts on a snapshot action ends
    on a snapshot action followed by forward texts. *)
Lemma walk_up_from_snapshot (version lo : Z) (C : Migration -> Prop)
    (ms : list Migration) :
  Forall (fun m => C m /\ lo <= Version m) ms ->
  forall actions res,
    walk_up [] version actions ms = Ok res ->
    (exists pm s rest,
        actions = upAction (Version pm) s :: rest
        /\ C pm /\ Snapshot pm = Ok s /\ s <> ""
        /\ lo <= Version pm <= version
        /\ Forall (fun a => exists m,
                       C m /\ Version m = Action.Version a
                       /\ Up m = Ok (Action.Migration a)
                       /\ Snapshot m = Ok "" /\ Version m <= version) rest) ->
    exists pm s rest,
      res = upAction (Version pm) s :: rest
      /\ C pm /\ Snapshot pm = Ok s /\ s <> ""
      /\ lo <= Version pm <= version
      /\ Forall (fun a => exists m,
                     C m /\ Version m = Action.Version a
                     /\ Up m = Ok (Action.Migration a)
                     /\ Snapshot m = Ok "" /\ Version m <= version) rest.
Proof.
  induction 1 as [|pm1 ms [Hc Hlo] _ IH]; intros actions res H Hinv;
    simpl in H.
  - injection H as <-. exact Hinv.
  - destruct (version <? Version pm1) eqn:Hv.
    { injection H as <-. exact Hinv. }
    apply Z.ltb_ge in Hv.
    change (is_applied [] (Version pm1)) with false in H. simpl in H.
    destruct (Snapshot pm1) as [s1|c] eqn:Hs; [|discriminate].
    destruct (0 <? String.length s1)%nat eqn:Hn.
    + apply (IH _ _ H).
      exists pm1, s1, []. repeat split; auto.
      apply nonempty_true. exact Hn.
    + destruct (Up pm1) as [up|c] eqn:Hu; [|discriminate].
      assert (Hempty : s1 = "") by (destruct s1; [reflexivity | discriminate]).
      subst s1.
      apply (IH _ _ H).
      destruct Hinv as (pm & s & rest & -> & Hcp & Hsp & Hne & Hr & Hall).
      exists pm, s, (rest ++ [upAction (Version pm1) up]).
      repeat split; auto; try tauto.
      apply Forall_app. split; auto.
      constructor; [|constructor].
      exists pm1. simpl. repeat split; auto.
Qed.

(** With nothing recorded, a migration at most the target that has a
    snapshot makes the plan start with a snapshot: that of a migration
    of the catalog at or above it and at most the target, followed only
    by forward texts of migrations that have no snapshot.  No migration
    below the snapshot is applied. *)
Theorem snapshot_supersedes (catalog : list Migration) (target : Z)
    (pm : Migration) (s : string) (acts : list Action) :
  0 < target -> In pm catalog -> Version pm <= target ->
  Snapshot pm = Ok s -> s <> "" ->
  plan catalog [] target = Ok acts ->
  (exists pm' s' rest,
      acts = upAction (Version pm') s' :: rest
      /\ In pm' catalog /\ Snapshot pm' = Ok s' /\ s' <> ""
      /\ Version pm <= Version pm' <= target
      /\ Forall (fun a => exists m,
                     In m catalog /\ Version m = Action.Version a
                     /\ Up m = Ok (Action.Migration a)
                     /\ Snapshot m = Ok "" /\ Version m <= target) rest)
  /\ Forall (fun a => Version pm <= Action.Version a) acts.
Proof.
  intros Ht Hin Hv Hs Hne Hp.
  assert (Hcat : catalog <> []) by (intros ->; destruct Hin).
  rewrite plan_forward in Hp by (auto; rewrite latestApplied_nil; lia).
  change (sortInts []) with (@nil Z) in Hp.
  apply sortMigrations_In in Hin.
  destruct (in_split _ _ Hin) as (pre & post & Hsplit).
  pose proof (sortMigrations_sorted catalog) as Hsorted.
  rewrite Hsplit in Hsorted, Hp.
  pose proof (sorted_prefix_below _ _ _ _ Hsorted Hv) as Hpre.
  apply Forall_app in Hpre. destruct Hpre as [Hpre _].
  rewrite walk_up_app in Hp by assumption.
  destruct (walk_up [] target [] pre) as [a0|e0]; [|discriminate].
  cbn [bind] in Hp.
  rewrite (walk_up_snapshot [] target a0 pm post s Hv eq_refl Hs Hne) in Hp.
  assert (Hpost : Forall (fun m => In m catalog /\ Version pm <= Version m) post).
  { rewrite map_app in Hsorted. apply StronglySorted_app_inv in Hsorted.
    destruct Hsorted as (_ & Hsorted & _). simpl in Hsorted.
    inversion Hsorted as [|? ? _ Hge]; subst.
    rewrite Forall_forall in Hge.
    apply Forall_forall. intros m Hm. split.
    - apply sortMigrations_In. rewrite Hsplit.
      apply in_or_app. right. right. assumption.
    - apply Hge, in_map, Hm. }
  split.
  - apply (walk_up_from_snapshot target (Version pm) (fun m => In m catalog)
             post Hpost _ _ Hp).
    exists pm, s, []. repeat split; auto; try lia.
    apply sortMigrations_In. rewrite Hsplit.
    apply in_or_app. right. left. reflexivity.
  - eapply walk_up_Forall; [| | exact Hp].
    + intros m text Hm _ _ _. simpl.
      rewrite Forall_forall in Hpost. apply Hpost; assumption.
    + constructor; [simpl; lia | constructor].
Qed.

Lemma snapshot_supersedes_witness :
  Forall (fun a => Version tm2s <= Action.Version a)
    [upAction 4 "snapshot4"; upAction 5 "up5"].
Proof.
  apply (proj2 (snapshot_supersedes [tm1; tm2s; tm3; tm4s; tm5] 5 tm2s
                  "snapshot2" [upAction 4 "snapshot4"; upAction 5 "up5"]
                  ltac:(lia) ltac:(simpl; auto) ltac:(simpl; lia)
                  eq_refl ltac:(discriminate) eq_refl)).
Defined.

(** ** The recorded versions after a plan was applied *)

Lemma backward_plan_versions (catalog : list Migration) (applied : list Z)
    (target : Z) (acts : list Action) :
  walk_down (sortMigrations catalog) target [] (rev (sortInts applied)) = Ok acts ->
  forall v,
    In v (versions acts) <->
    In v applied /\ target < v /\ In v (map Version catalog).
Proof.
  intros Hp v.
  rewrite (walk_down_versions _ _ _ (sortMigrations_sorted catalog)
             (StronglySorted_impl _ _ _
                (fun a b (H : b <= a) => Z.le_ge _ _ H)
                (StronglySorted_rev Z.le _ (sortInts_sorted applied)))
             _ _ Hp).
  simpl. rewrite filter_In, andb_true_iff, Z.ltb_lt, has_version_sort,
    has_version_In, <- in_rev, sortInts_In.
  tauto.
Qed.

(** After a forward plan was applied, the greatest catalog version at
    most the target is recorded; when the recorded versions were all
    versions of the catalog, it is the latest recorded version. *)
Theorem forward_plan_reaches (catalog : list Migration) (applied : list Z)
    (target : Z) (P : list Action) (m : Migration) :
  latestApplied applied < target ->
  plan catalog applied target = Ok P ->
  In m catalog -> Version m <= target ->
  (forall m', In m' catalog -> Version m' <= target ->
              Version m' <= Version m) ->
  In (Version m) (apply_plan P applied)
  /\ ((forall v, In v applied -> In v (map Version catalog)) ->
      latestApplied (apply_plan P applied) = Version m).
Proof.
  intros Hlt Hp Hin Hv Hmax.
  assert (Hcat : catalog <> []) by (intros ->; destruct Hin).
  rewrite plan_forward in Hp by assumption.
  destruct (forward_plan_actions _ _ _ _ Hp) as (Hdir & _ & _ & Hall).
  assert (Hmem : forall v, In v (apply_plan P applied) <->
                           In v applied \/ In v (versions P))
    by (intro v; apply apply_plan_up; assumption).
  assert (Hreach : In (Version m) (apply_plan P applied)).
  { rewrite walk_up_walked in Hp.
    assert (Hw : In m (walked target (sortMigrations catalog))).
    { apply walked_sorted_In; auto.
      - apply sortMigrations_sorted.
      - apply sortMigrations_In; assumption. }
    destruct (walked target (sortMigrations catalog)) as [|m0 w0] eqn:Ew;
      [destruct Hw|].
    assert (Hne : m0 :: w0 <> []) by discriminate.
    destruct (exists_last Hne) as (pre & ml & Hsplit).
    rewrite Hsplit in *. clear Hne.
    assert (Hbelow : Forall (fun x => Version x <= target) (pre ++ [ml])).
    { rewrite <- Ew. apply walked_below. }
    assert (Hml : Version ml = Version m).
    { assert (Hmlc : In ml catalog).
      { apply sortMigrations_In. apply (walked_incl target). rewrite Ew.
        apply in_or_app. right. left. reflexivity. }
      assert (Hmlt : Version ml <= target).
      { rewrite Forall_forall in Hbelow. apply Hbelow.
        apply in_or_app. right. left. reflexivity. }
      pose proof (Hmax ml Hmlc Hmlt) as Hle.
      assert (Hge : Version m <= Version ml).
      { assert (Hs : StronglySorted Z.le (map Version (pre ++ [ml]))).
        { rewrite <- Ew.
          clear - catalog. pose proof (sortMigrations_sorted catalog) as Hs.
          induction (sortMigrations catalog) as [|x l IH]; simpl;
            [constructor|].
          inversion Hs as [|? ? Hs' Ha]; subst.
          destruct (target <? Version x); [constructor|].
          simpl. constructor; auto.
          rewrite Forall_forall in *. intros y Hy.
          apply in_map_iff in Hy. destruct Hy as (z & <- & Hz).
          apply Ha, in_map, (walked_incl target), Hz. }
        rewrite map_app in Hs. apply StronglySorted_app_inv in Hs.
        destruct Hs as (_ & _ & Hs).
        apply in_app_or in Hw. destruct Hw as [Hw|[->|[]]]; [|lia].
        apply (Hs (Version m) (Version ml)); [apply in_map, Hw | left; auto]. }
      lia. }
    rewrite <- Hml. apply Hmem.
    destruct (walk_up_last _ _ _ _ _ _ Hbelow Hp) as [Ha|Ha]; auto.
    left. apply is_applied_sortInts; assumption. }
  split; [exact Hreach|].
  intro Hsub. apply latestApplied_max. right. split; [exact Hreach|].
  apply Forall_forall. intros v Hv'. apply Hmem in Hv'.
  destruct Hv' as [Hv'|Hv'].
  - pose proof (latestApplied_upper _ _ Hv') as Hu.
    specialize (Hsub _ Hv'). apply in_map_iff in Hsub.
    destruct Hsub as (m' & <- & Hm'). apply Hmax; auto. lia.
  - unfold versions in Hv'. apply in_map_iff in Hv'.
    destruct Hv' as (a & <- & Ha).
    rewrite Forall_forall in Hall. destruct (Hall a Ha) as (_ & H2 & H3).
    apply in_map_iff in H3. destruct H3 as (m' & Hm' & Hin').
    rewrite <- Hm' in *. apply Hmax; auto.
Qed.

Lemma forward_plan_reaches_witness :
  In (Version tm4) (apply_plan [upAction 4 "up4"] [1; 3]).
Proof.
  apply (proj1 (forward_plan_reaches [tm1; tm2; tm3; tm4] [1; 3] 7
                  [upAction 4 "up4"] tm4
                  ltac:(vm_compute; reflexivity) eq_refl
                  ltac:(simpl; auto) ltac:(simpl; lia)
                  ltac:(simpl; intros m' [<-|[<-|[<-|[<-|[]]]]] _;
                        simpl; lia))).
Defined.

(** After a backward plan was applied, the recorded versions are those
    recorded before that are at most the target or unknown to the
    catalog; when the recorded versions were all versions of the
    catalog, none above the target is left. *)
Theorem backward_plan_removes (catalog : list Migration) (applied : list Z)
    (target : Z) (P : list Action) :
  target < latestApplied applied ->
  plan catalog applied target = Ok P ->
  (forall v,
      In v (apply_plan P applied) <->
      In v applied /\ (v <= target \/ ~ In v (map Version catalog)))
  /\ ((forall v, In v applied -> In v (map Version catalog)) ->
      Forall (fun v => v <= target) (apply_plan P applied)).
Proof.
  intros Hgt Hp.
  assert (Hmem : forall v,
             In v (apply_plan P applied) <->
             In v applied /\ (v <= target \/ ~ In v (map Version catalog))).
  { destruct catalog as [|m0 ms] eqn:Hcat.
    { injection Hp as <-. intro v. simpl. tauto. }
    rewrite <- Hcat in *.
    assert (Hne : catalog <> []) by (subst; discriminate).
    clear Hcat m0 ms.
    rewrite plan_backward in Hp by assumption.
    destruct (backward_plan_actions _ _ _ _ Hp) as (Hdir & _).
    intro v. rewrite (apply_plan_down P Hdir).
    rewrite (backward_plan_versions _ _ _ _ Hp).
    split.
    - intros [H1 H2]. split; auto.
      destruct (Z_le_gt_dec v target) as [Hle|Hlt]; [left; auto|right].
      intro Hc. apply H2. repeat split; auto. lia.
    - intros [H1 H2]. split; auto. intros (_ & H3 & H4).
      destruct H2 as [H2|H2]; [lia | contradiction]. }
  split; [exact Hmem|].
  intro Hsub. apply Forall_forall. intros v Hv.
  apply Hmem in Hv. destruct Hv as [H1 [H2|H2]]; auto.
  exfalso. apply H2, Hsub, H1.
Qed.

Lemma backward_plan_removes_witness :
  Forall (fun v => v <= 1)
    (apply_plan [downAction 3 "down3"; downAction 2 "down2"] [1; 2; 3]).
Proof.
  apply (proj2 (backward_plan_removes [tm1; tm2; tm3] [1; 2; 3] 1
                  [downAction 3 "down3"; downAction 2 "down2"]
                  ltac:(vm_compute; reflexivity) eq_refl)).
  simpl. intuition.
Defined.

(** ** The calls SQLDatabase.Migrate makes *)

Section ExecutorCalls.
Variable St : Type.
Variable d : Driver St.

Lemma unit_calls_queries (tx : bool) (a : Action) :
  flat_map query_of (unit_calls tx a) = queries a.
Proof.
  unfold unit_calls.
  destruct (queries_shape a) as [->|(q2 & ->)]; [reflexivity|].
  destruct tx; reflexivity.
Qed.

Lemma units_queries (tx : bool) (actions : list Action) :
  flat_map query_of (flat_map (unit_calls tx) actions)
  = flat_map queries actions.
Proof.
  induction actions as [|a actions IH]; simpl; [reflexivity|].
  rewrite flat_map_app, unit_calls_queries, IH. reflexivity.
Qed.

Lemma migrate_loop_success (actions : list Action) :
  forall w w',
    migrate_loop d actions w = (w', Returned None) ->
    exists sent,
      Forall2 (fun a qs =>
                 qs = queries a
                 \/ (has_tx d = true /\ qs = firstn 1 (queries a)))
              actions sent
      /\ calls w' = calls w ++ List.concat sent.
Proof.
  induction actions as [|a actions IH]; intros w w' H; simpl in H.
  - injection H as <-. exists []. simpl. rewrite app_nil_r.
    split; [constructor | reflexivity].
  - destruct (run_action d a w) as [w1 [[e|]|p]] eqn:Ha; try discriminate.
    destruct (IH _ _ H) as (sent & Hall & Hc).
    destruct (run_action_success _ d _ _ _ Ha) as [E|[Htx E]].
    + exists (queries a :: sent). split; [constructor; auto|].
      rewrite Hc, E. simpl. rewrite <- app_assoc. reflexivity.
    + exists (firstn 1 (queries a) :: sent). split; [constructor; auto|].
      rewrite Hc, E. simpl concat. rewrite <- app_assoc. reflexivity.
Qed.


Lemma migrate_loop_skips (actions : list Action) :
  forall w, migrate_loop d actions w = migrate_loop d (filter has_case actions) w.
Proof.
  induction actions as [|a actions IH]; intro w; simpl; auto.
  unfold has_case, run_action at 1.
  destruct (Action.Direction a) eqn:E; simpl.
  - unfold run_action. rewrite E.
    destruct (up d a w) as [w1 [[e|]|p]]; auto.
  - unfold run_action. rewrite E.
    destruct (down d a w) as [w1 [[e|]|p]]; auto.
  - apply IH.
Qed.

Lemma ExecContext_calls (q : Query) (w w' : World St) (r : outcome) :
  ExecContext d q w = (w', r) -> calls w' = calls w ++ [q].
Proof.
  intro H. destruct (call_spec _ _ _ _ _ _ H) as (_ & _ & Ht).
  apply (calls_app _ _ _ _ Ht).
Qed.
End ExecutorCalls.

(** When [Migrate] returns no error, the queries it sent are the
    creation of the table, if the database was not initialised yet, and
    then, for each action in the order of the plan, its text followed by
    its bookkeeping, or, with [BeginTx], its text alone: that is the case
    of a text that panicked, which [transaction] recovers and answers
    with nil.  When no call panics, every action sent its text and its
    bookkeeping. *)
Theorem migrate_success_calls (St : Type) (d : Driver St)
    (s s' : SQLDatabase St) (actions : list Action) :
  Migrate d s actions = (s', Returned None) ->
  (exists sent,
      Forall2 (fun a qs =>
                 qs = queries a
                 \/ (has_tx d = true /\ qs = firstn 1 (queries a)))
              actions sent
      /\ calls (sqldb s')
         = calls (sqldb s)
           ++ (if inited s then [] else [CreateTable])
           ++ List.concat sent)
  /\ (never_panics d ->
      calls (sqldb s')
      = calls (sqldb s)
        ++ (if inited s then [] else [CreateTable])
        ++ flat_map queries actions).
Proof.
  unfold Migrate, init. intro H.
  assert (Hinit : exists w0,
             calls w0 = calls (sqldb s)
                        ++ (if inited s then [] else [CreateTable])
             /\ migrate_loop d actions w0 = (sqldb s', Returned None)).
  { destruct (inited s) eqn:Ei.
    - destruct (migrate_loop d actions (sqldb s)) as [w r] eqn:El.
      injection H as <- ->. exists (sqldb s). rewrite app_nil_r. auto.
    - destruct (ExecContext d CreateTable (sqldb s)) as [w0 r0] eqn:E0.
      destruct r0 as [[e|]|p]; try discriminate.
      simpl in H. destruct (migrate_loop d actions w0) as [w r] eqn:El.
      injection H as <- ->. exists w0. split; [|exact El].
      apply (ExecContext_calls _ _ _ _ _ _ E0). }
  destruct Hinit as (w0 & Hc0 & Hl). split.
  - destruct (migrate_loop_success _ _ _ _ _ Hl) as (sent & Hall & Hc).
    exists sent. split; [exact Hall|].
    rewrite Hc, Hc0, <- app_assoc. reflexivity.
  - intro Hq. pose proof (migrate_loop_quiet _ _ _ Hq _ _ Hl) as Ht.
    rewrite (calls_app _ _ _ _ Ht), units_queries, Hc0, <- app_assoc.
    reflexivity.
Qed.

Lemma migrate_success_calls_witness :
  calls (sqldb (fst (Migrate memDriver memNew
                       [upAction 1 "up1"; downAction 1 "down1"])))
  = calls (sqldb memNew)
    ++ (if inited memNew then [] else [CreateTable])
    ++ flat_map queries [upAction 1 "up1"; downAction 1 "down1"].
Proof.
  apply (proj2 (migrate_success_calls MemDB memDriver memNew
                  (fst (Migrate memDriver memNew
                          [upAction 1 "up1"; downAction 1 "down1"]))
                  [upAction 1 "up1"; downAction 1 "down1"] eq_refl)).
  exact memDriver_never_panics.
Defined.



(** An action whose direction is neither [Up] nor [Down] is passed over
    without a call and without an error: a plan and the same plan
    without these actions give the same result. *)
Theorem migrate_skips_other (St : Type) (d : Driver St)
    (s : SQLDatabase St) (actions : list Action) :
  Migrate d s actions = Migrate d s (filter has_case actions).
Proof.
  unfold Migrate. destruct (init d s) as [s1 [[e|]|p]]; auto.
  rewrite (migrate_loop_skips St d actions). reflexivity.
Qed.

(** A panic of the text of an action in its transaction is not reported:
    the deferred function of [transaction] recovers it into the [err]
    that hides the result and rolls back, [transaction] returns nil, and
    [Migrate] goes on with the actions that follow, from the state the
    rollback left. *)
Theorem recovered_panic_goes_on (St : Type) (d : Driver St)
    (s s0 : SQLDatabase St) (pre post : list Action) (a : Action)
    (w1 w2 : World St) (p : string) (r : outcome) :
  init d s = (s0, Returned None) ->
  migrate_loop d pre (sqldb s0) = (w1, Returned None) ->
  has_tx d = true -> has_case a = true ->
  snd (begin d (store w1)) = Returned None ->
  snd (tx_exec d (Statement (Action.Migration a)) (fst (begin d (store w1))))
  = Panicked p ->
  (forall s' p', snd (rollback d s') <> Panicked p') ->
  run_action d a w1 = (w2, r) ->
  r = Returned None
  /\ trace w2 = trace w1 ++ [CallBeginTx;
                              CallTxExec (Statement (Action.Migration a));
                              CallRollback]
  /\ Migrate d s (pre ++ a :: post)
     = (let (w, r) := migrate_loop d post w2 in
        ({| sqldb := w; inited := true |}, r)).
Proof.
  intros Hinit Hpre Htx Hcase Hb Hp Hroll Ha.
  pose proof (run_action_queries _ d a w1) as Hq.
  destruct (queries_shape a) as [E|(q2 & E)].
  { unfold queries, has_case in *. destruct (Action.Direction a); discriminate. }
  rewrite E in Hq.
  rewrite Ha in Hq. symmetry in Hq.
  pose proof (transaction_steps _ d _ _ _ _ _ Htx Hq) as Hs. cbv zeta in Hs.
  rewrite Hb, Hp in Hs. destruct Hs as (Hst & Hres & Ht).
  assert (Hnil : r = Returned None).
  { rewrite Hres. destruct (snd (rollback d _)) as [x|p'] eqn:Er; auto.
    exfalso. eapply Hroll. exact Er. }
  clear Hres. subst r.
  split; [reflexivity|]. split; [exact Ht|].
  unfold Migrate. rewrite Hinit, (migrate_loop_app _ d _ _ _ _ Hpre).
  simpl. rewrite Ha, (init_inited _ _ _ _ Hinit). reflexivity.
Qed.

Lemma recovered_panic_goes_on_witness :
  Migrate memDriverPanic memNew
    ([upAction 1 "up1"] ++ upAction 2 "panic" :: [upAction 3 "up3"])
  = ({| sqldb :=
          {| store := {| executed := ["up1"; "up3"]; recorded := [1; 3];
                         saved := None |};
             trace := [CallExec CreateTable;
                       CallBeginTx; CallTxExec (Statement "up1");
                       CallTxExec (InsertMigration 1); CallCommit;
                       CallBeginTx; CallTxExec (Statement "panic");
                       CallRollback;
                       CallBeginTx; CallTxExec (Statement "up3");
                       CallTxExec (InsertMigration 3); CallCommit] |};
        inited := true |},
     Returned None).
Proof.
  refine (proj2 (proj2
            (recovered_panic_goes_on MemDB memDriverPanic memNew
               {| sqldb := {| store := {| executed := []; recorded := [];
                                          saved := None |};
                              trace := [CallExec CreateTable] |};
                  inited := true |}
               [upAction 1 "up1"] [upAction 3 "up3"] (upAction 2 "panic")
               {| store := {| executed := ["up1"]; recorded := [1];
                              saved := None |};
                  trace := [CallExec CreateTable;
                            CallBeginTx; CallTxExec (Statement "up1");
                            CallTxExec (InsertMigration 1); CallCommit] |}
               {| store := {| executed := ["up1"]; recorded := [1];
                              saved := None |};
                  trace := [CallExec CreateTable;
                            CallBeginTx; CallTxExec (Statement "up1");
                            CallTxExec (InsertMigration 1); CallCommit;
                            CallBeginTx; CallTxExec (Statement "panic");
                            CallRollback] |}
               "statement panicked" (Returned None) _ _ _ _ _ _ _ _))).
  - reflexivity.
  - reflexivity.
  - reflexivity.
  - reflexivity.
  - reflexivity.
  - reflexivity.
  - intros s' p'. simpl. unfold mem_rollback.
    destruct (saved s') as [[? ?]|]; discriminate.
  - reflexivity.
Defined.

(** ** The lines of a migration file *)

(** [TestFilesystemProvider_List], for the file of version 1. *)
Example test_file_contents :
  parseFileContent testdata_1 = (sqlUp1, sqlDown1, EmptyString).
Proof. vm_compute. reflexivity. Qed.

Lemma split_lines_line (l rest : string) :
  has_char LF l = false ->
  split_lines (l ++ String LF rest)%string = l :: split_lines rest.
Proof.
  induction l as [|c l IH]; simpl; intro H.
  - reflexivity.
  - apply orb_false_iff in H. destruct H as [Hc Hl].
    rewrite Hc, (IH Hl). reflexivity.
Qed.

Lemma unlines_app (a b : list string) :
  unlines (a ++ b) = (unlines a ++ unlines b)%string.
Proof.
  induction a as [|l a IH]; simpl; [reflexivity|].
  rewrite IH, <- string_app_assoc. reflexivity.
Qed.

Lemma split_lines_unlines (ls : list string) (rest : string) :
  Forall (fun l => has_char LF l = false) ls ->
  split_lines (unlines ls ++ rest)%string = ls ++ split_lines rest.
Proof.
  induction 1 as [|l ls Hl _ IH]; simpl; [reflexivity|].
  rewrite <- string_app_assoc. simpl.
  rewrite (split_lines_line _ _ Hl), IH. reflexivity.
Qed.

Lemma split_lines_head (l rest : string) :
  has_char LF l = false -> l <> EmptyString ->
  exists h t, split_lines (l ++ rest)%string = (l ++ h)%string :: t.
Proof.
  induction l as [|c l IH]; simpl; intros H Hne; [congruence|].
  apply orb_false_iff in H. destruct H as [Hc Hl]. rewrite Hc.
  destruct l as [|c' l'].
  - simpl. destruct (split_lines rest) as [|h t].
    + exists EmptyString, []. reflexivity.
    + exists h, t. reflexivity.
  - destruct (IH Hl) as (h & t & E); [discriminate|].
    rewrite E. exists h, t. reflexivity.
Qed.

Lemma string_length_app (a b : string) :
  String.length (a ++ b) = (String.length a + String.length b)%nat.
Proof. induction a as [|c a IH]; simpl; [|rewrite IH]; reflexivity. Qed.

Lemma scan_tokens_app (ls rest : list string) :
  Forall (fun l => Z.of_nat (String.length l) < MaxScanTokenSize) ls ->
  scan_tokens (ls ++ rest) = map dropCR ls ++ scan_tokens rest.
Proof.
  induction 1 as [|l ls Hl _ IH]; simpl; [reflexivity|].
  apply Z.ltb_lt in Hl. rewrite Hl, IH. reflexivity.
Qed.

Lemma scan_tokens_cut (ls rest : list string) (long : string) :
  MaxScanTokenSize <= Z.of_nat (String.length long) ->
  scan_tokens (ls ++ long :: rest) = scan_tokens ls.
Proof.
  intro H. induction ls as [|l ls IH]; simpl.
  - apply Z.ltb_ge in H. rewrite H. reflexivity.
  - rewrite IH. reflexivity.
Qed.

Lemma Forall_fits (ls : list string) :
  Forall fits ls ->
  Forall (fun l => has_char LF l = false) ls
  /\ Forall (fun l => Z.of_nat (String.length l) < MaxScanTokenSize) ls.
Proof.
  induction 1 as [|l ls [H1 H2] _ [IH1 IH2]]; split; constructor; auto.
Qed.

Lemma Scan_unlines (ls : list string) (rest : string) :
  Forall fits ls ->
  Scan (unlines ls ++ rest) = map dropCR ls ++ Scan rest.
Proof.
  intro H. destruct (Forall_fits _ H) as [H1 H2]. unfold Scan.
  rewrite (split_lines_unlines _ _ H1). apply scan_tokens_app; assumption.
Qed.

Lemma Scan_unlines_all (ls : list string) :
  Forall fits ls -> Scan (unlines ls) = map dropCR ls.
Proof.
  intro H. rewrite <- (string_app_nil_r (unlines ls)).
  rewrite (Scan_unlines _ _ H). unfold Scan. simpl. apply app_nil_r.
Qed.

Lemma outside_stays (tokens : list string) (b : Buffers) :
  Forall (fun l => is_separator l = false) tokens ->
  fold_left scan_step tokens (Loc.outside, b) = (Loc.outside, b).
Proof.
  induction 1 as [|l ls Hl _ IH]; simpl; [reflexivity|].
  unfold is_separator in Hl.
  apply orb_false_iff in Hl. destruct Hl as [Hl H3].
  apply orb_false_iff in Hl. destruct Hl as [H1 H2].
  rewrite H1, H2, H3. exact IH.
Qed.

(** The location a section starts. *)
Lemma scan_step_separator (k : LoadKind) (loc : Loc.t) (b : Buffers) :
  scan_step (loc, b) (separator k)
  = (match k with
     | LoadSnapshot => Loc.snapshot
     | LoadUp => Loc.up
     | LoadDown => Loc.down
     end, b).
Proof. destruct k; reflexivity. Qed.

Lemma scan_step_text (loc : Loc.t) (b : Buffers) (l : string) :
  is_separator l = false ->
  scan_step (loc, b) l
  = (loc,
     {| bUp := match loc with
               | Loc.up => write_line (bUp b) l
               | _ => bUp b
               end;
        bDown := match loc with
                 | Loc.down => write_line (bDown b) l
                 | _ => bDown b
                 end;
        bSnapshot := match loc with
                     | Loc.snapshot => write_line (bSnapshot b) l
                     | _ => bSnapshot b
                     end |}).
Proof.
  intro Hl. unfold is_separator in Hl.
  apply orb_false_iff in Hl. destruct Hl as [Hl H3].
  apply orb_false_iff in Hl. destruct Hl as [H1 H2].
  unfold scan_step. rewrite H1, H2, H3.
  destruct loc, b; reflexivity.
Qed.

Lemma fold_text (loc : Loc.t) (ls : list string) :
  Forall (fun l => is_separator l = false) ls ->
  forall b,
    fold_left scan_step ls (loc, b)
    = (loc,
       {| bUp := match loc with
                 | Loc.up => (bUp b ++ unlines ls)%string
                 | _ => bUp b
                 end;
          bDown := match loc with
                   | Loc.down => (bDown b ++ unlines ls)%string
                   | _ => bDown b
                   end;
          bSnapshot := match loc with
                       | Loc.snapshot => (bSnapshot b ++ unlines ls)%string
                       | _ => bSnapshot b
                       end |}).
Proof.
  induction 1 as [|l ls Hl _ IH]; intro b.
  - simpl. rewrite !string_app_nil_r. destruct loc, b; reflexivity.
  - cbn [fold_left]. rewrite (scan_step_text _ _ _ Hl), IH.
    unfold write_line. cbn [unlines fold_right bUp bDown bSnapshot].
    fold (unlines ls).
    destruct loc; rewrite <- ?string_app_assoc; reflexivity.
Qed.

Lemma fold_sections (sections : list (LoadKind * list string)) :
  Forall (fun s => Forall (fun l => is_separator l = false) (snd s)) sections ->
  forall loc b,
    let b' := snd (fold_left scan_step
                     (flat_map (fun s => separator (fst s) :: snd s) sections)
                     (loc, b)) in
    bUp b' = (bUp b ++ unlines (section_lines LoadUp sections))%string
    /\ bDown b' = (bDown b ++ unlines (section_lines LoadDown sections))%string
    /\ bSnapshot b'
       = (bSnapshot b ++ unlines (section_lines LoadSnapshot sections))%string.
Proof.
  induction 1 as [|[k ls] secs Hs _ IH]; intros loc b.
  - simpl. rewrite !string_app_nil_r. auto.
  - cbn [flat_map fst snd]. rewrite <- app_comm_cons.
    cbn [fold_left]. rewrite scan_step_separator, fold_left_app.
    simpl in Hs. rewrite (fold_text _ _ Hs).
    match goal with |- context [fold_left _ _ (?l, ?x)] =>
      specialize (IH l x) end.
    cbv zeta in IH |- *. destruct IH as (I1 & I2 & I3).
    rewrite I1, I2, I3. cbn [bUp bDown bSnapshot].
    unfold section_lines at 2 4 6. cbn [flat_map fst snd].
    fold (section_lines LoadUp secs) (section_lines LoadDown secs)
         (section_lines LoadSnapshot secs).
    rewrite !unlines_app.
    destruct k; cbn [same_kind]; simpl unlines at 1;
      rewrite <- ?string_app_assoc; auto.
Qed.

Lemma dropCR_separator (k : LoadKind) : dropCR (separator k) = separator k.
Proof. destruct k; reflexivity. Qed.

Lemma fits_separator (k : LoadKind) : fits (separator k).
Proof. destruct k; split; vm_compute; reflexivity. Qed.

Lemma dropCR_cons (c : ascii) (rest : string) :
  rest <> EmptyString -> dropCR (String c rest) = String c (dropCR rest).
Proof. destruct rest; [congruence | reflexivity]. Qed.

Lemma dropCR_CR (l : string) :
  dropCR (l ++ String CR EmptyString) = l.
Proof.
  induction l as [|c l IH]; [reflexivity|].
  cbn [append]. rewrite dropCR_cons, IH; [reflexivity|].
  destruct l; discriminate.
Qed.

(** Whatever stands before the first separator line is ignored: lines
    that fit in the buffer of the scanner and are no separators, put in
    front of a file, do not change its three texts. *)
Theorem prefix_ignored (pre : list string) (rest : string) :
  Forall (fun l => fits l /\ is_separator (dropCR l) = false) pre ->
  parseFileContent (unlines pre ++ rest) = parseFileContent rest.
Proof.
  intro H. unfold parseFileContent.
  assert (Hf : Forall fits pre)
    by (eapply Forall_impl; [|exact H]; intros l [Hl _]; exact Hl).
  rewrite (Scan_unlines _ _ Hf), fold_left_app, outside_stays; [reflexivity|].
  apply Forall_map. eapply Forall_impl; [|exact H].
  intros l [_ Hl]; exact Hl.
Qed.

Lemma prefix_ignored_witness :
  parseFileContent
    (unlines ["/*"; "   Everything before --UP-- must be ignored"; " */";
              ""; "SELECT *"; "FROM test;"; ""]%string
     ++ unlines ["--UP--"; "CREATE TABLE test();"; "--DOWN--";
                 "DROP TABLE test;"]%string)
  = parseFileContent
      (unlines ["--UP--"; "CREATE TABLE test();"; "--DOWN--";
                "DROP TABLE test;"]%string).
Proof.
  apply prefix_ignored.
  repeat constructor; vm_compute; reflexivity.
Defined.

(** A file made of sections, each a separator line followed by lines of
    text, gives for each kind the lines of the sections of that kind, in
    the order of the file, with the white space around the whole
    removed: sections may come in any order, and a kind that comes again
    continues its text. *)
Theorem sections_parsed (sections : list (LoadKind * list string)) :
  Forall (fun s => Forall text_line (snd s)) sections ->
  parseFileContent (render sections)
  = (TrimSpace (unlines (section_lines LoadUp sections)),
     TrimSpace (unlines (section_lines LoadDown sections)),
     TrimSpace (unlines (section_lines LoadSnapshot sections))).
Proof.
  intro H. unfold parseFileContent, render.
  set (lines := flat_map (fun s => separator (fst s) :: snd s) sections).
  assert (Hl : Forall (fun l => fits l /\ dropCR l = l) lines).
  { subst lines. induction H as [|[k ls] secs Hs _ IH]; simpl; [constructor|].
    constructor; [split; [apply fits_separator | apply dropCR_separator]|].
    apply Forall_app. split; [|exact IH].
    eapply Forall_impl; [|exact Hs]. intros l (Hf & Hd & _). auto. }
  assert (Hscan : Scan (unlines lines) = lines).
  { rewrite Scan_unlines_all.
    - clear -Hl. induction Hl as [|l ls [_ Hd] _ IH]; simpl; congruence.
    - eapply Forall_impl; [|exact Hl]. intros l [Hf _]; exact Hf. }
  rewrite Hscan. subst lines.
  assert (Hsep : Forall (fun s => Forall (fun l => is_separator l = false)
                                    (snd s)) sections).
  { eapply Forall_impl; [|exact H]. intros s Hs.
    eapply Forall_impl; [|exact Hs]. intros l (_ & _ & Hn). exact Hn. }
  destruct (fold_sections _ Hsep Loc.outside no_text) as (E1 & E2 & E3).
  rewrite E1, E2, E3. reflexivity.
Qed.

Lemma sections_parsed_witness :
  parseFileContent
    (render [(LoadDown, ["DROP TABLE a;"; ""]%string);
             (LoadUp, [""; "CREATE TABLE a();"]%string);
             (LoadDown, ["DROP TABLE b;"]%string);
             (LoadUp, ["CREATE TABLE b();"]%string)])
  = (TrimSpace (unlines (section_lines LoadUp
       [(LoadDown, ["DROP TABLE a;"; ""]%string);
        (LoadUp, [""; "CREATE TABLE a();"]%string);
        (LoadDown, ["DROP TABLE b;"]%string);
        (LoadUp, ["CREATE TABLE b();"]%string)])),
     TrimSpace (unlines (section_lines LoadDown
       [(LoadDown, ["DROP TABLE a;"; ""]%string);
        (LoadUp, [""; "CREATE TABLE a();"]%string);
        (LoadDown, ["DROP TABLE b;"]%string);
        (LoadUp, ["CREATE TABLE b();"]%string)])),
     TrimSpace (unlines (section_lines LoadSnapshot
       [(LoadDown, ["DROP TABLE a;"; ""]%string);
        (LoadUp, [""; "CREATE TABLE a();"]%string);
        (LoadDown, ["DROP TABLE b;"]%string);
        (LoadUp, ["CREATE TABLE b();"]%string)]))).
Proof.
  apply sections_parsed.
  repeat constructor; vm_compute; reflexivity.
Defined.

(** Line ends of a carriage return and a newline give the same texts as
    line ends of a newline. *)
Theorem crlf_as_lf (ls : list string) :
  Forall (fun l => has_char LF l = false /\ dropCR l = l
                   /\ Z.of_nat (String.length l) + 1 < MaxScanTokenSize) ls ->
  parseFileContent
    (unlines (map (fun l => (l ++ String CR EmptyString)%string) ls))
  = parseFileContent (unlines ls).
Proof.
  intro H. unfold parseFileContent.
  rewrite !Scan_unlines_all.
  - rewrite map_map.
    replace (map (fun l => dropCR (l ++ String CR EmptyString)) ls)
      with (map dropCR ls); [reflexivity|].
    apply map_ext_in. intros l Hin.
    rewrite Forall_forall in H. destruct (H _ Hin) as (_ & Hd & _).
    rewrite dropCR_CR. exact Hd.
  - eapply Forall_impl; [|exact H]. intros l (Hn & _ & Hlen).
    split; [exact Hn | lia].
  - apply Forall_map. eapply Forall_impl; [|exact H].
    intros l (Hn & _ & Hlen). split.
    + rewrite has_char_app, Hn. reflexivity.
    + rewrite string_length_app. simpl. lia.
Qed.

Lemma crlf_as_lf_witness :
  parseFileContent
    (unlines (map (fun l => (l ++ String CR EmptyString)%string)
                ["--UP--"; "CREATE TABLE test();"; "--DOWN--";
                 "DROP TABLE test;"]%string))
  = parseFileContent
      (unlines ["--UP--"; "CREATE TABLE test();"; "--DOWN--";
                "DROP TABLE test;"]%string).
Proof.
  apply crlf_as_lf.
  repeat constructor; vm_compute; reflexivity.
Defined.

(** A line of [MaxScanTokenSize] bytes or more ends the parsing without
    an error: the texts are those of the lines before it, and the rest
    of the file is not looked at. *)
Theorem long_line_ends_parsing (pre : list string) (long rest : string) :
  Forall (fun l => has_char LF l = false) pre ->
  has_char LF long = false ->
  MaxScanTokenSize <= Z.of_nat (String.length long) ->
  parseFileContent (unlines pre ++ long ++ rest)
  = parseFileContent (unlines pre).
Proof.
  intros Hpre Hlf Hlen.
  assert (E2 : Scan (unlines pre) = scan_tokens pre).
  { unfold Scan. rewrite <- (string_app_nil_r (unlines pre)).
    rewrite (split_lines_unlines _ _ Hpre). simpl. rewrite app_nil_r.
    reflexivity. }
  assert (E1 : Scan (unlines pre ++ long ++ rest) = scan_tokens pre).
  { unfold Scan. rewrite (split_lines_unlines _ _ Hpre).
    assert (Hne : long <> EmptyString).
    { intros ->. unfold MaxScanTokenSize in Hlen. simpl in Hlen. lia. }
    destruct (split_lines_head long rest Hlf Hne) as (h & t & E).
    rewrite E. apply scan_tokens_cut.
    rewrite string_length_app. lia. }
  unfold parseFileContent. rewrite E1, E2. reflexivity.
Qed.

Lemma long_line_ends_parsing_witness :
  parseFileContent
    (unlines ["--UP--"; "CREATE TABLE a();"]%string
     ++ string_of_list_ascii (repeat "x"%char (Z.to_nat MaxScanTokenSize))
     ++ String LF "CREATE TABLE b();")
  = parseFileContent (unlines ["--UP--"; "CREATE TABLE a();"]%string).
Proof.
  apply long_line_ends_parsing.
  - repeat constructor.
  - vm_compute. reflexivity.
  - vm_compute. discriminate.
Defined.

Lemma no_separator_step (k : LoadKind) (st : Loc.t * Buffers) (l : string) :
  (l =? separator k)%string = false ->
  (match k with
   | LoadSnapshot => fst st <> Loc.snapshot /\ bSnapshot (snd st) = EmptyString
   | LoadUp => fst st <> Loc.up /\ bUp (snd st) = EmptyString
   | LoadDown => fst st <> Loc.down /\ bDown (snd st) = EmptyString
   end) ->
  let st' := scan_step st l in
  match k with
  | LoadSnapshot => fst st' <> Loc.snapshot /\ bSnapshot (snd st') = EmptyString
  | LoadUp => fst st' <> Loc.up /\ bUp (snd st') = EmptyString
  | LoadDown => fst st' <> Loc.down /\ bDown (snd st') = EmptyString
  end.
Proof.
  destruct st as [loc b]. unfold scan_step. intros Hl Hinv.
  destruct k; cbn [separator] in Hl; simpl in Hinv; destruct Hinv as [Hloc Hb];
    destruct (l =? sqlUpSeparator)%string eqn:E1; try discriminate;
    destruct (l =? sqlDownSeparator)%string eqn:E2; try discriminate;
    destruct (l =? sqlSnapshotSeparator)%string eqn:E3; try discriminate;
    simpl; try (split; [discriminate | assumption]);
    destruct loc; simpl; try (split; [discriminate | assumption]);
    congruence.
Qed.

Lemma no_separator_fold (k : LoadKind) (tokens : list string) :
  ~ In (separator k) tokens ->
  forall st,
    (match k with
     | LoadSnapshot => fst st <> Loc.snapshot /\ bSnapshot (snd st) = EmptyString
     | LoadUp => fst st <> Loc.up /\ bUp (snd st) = EmptyString
     | LoadDown => fst st <> Loc.down /\ bDown (snd st) = EmptyString
     end) ->
    let st' := fold_left scan_step tokens st in
    match k with
    | LoadSnapshot => bSnapshot (snd st') = EmptyString
    | LoadUp => bUp (snd st') = EmptyString
    | LoadDown => bDown (snd st') = EmptyString
    end.
Proof.
  induction tokens as [|l tokens IH]; intros Hn st Hinv.
  - destruct k; simpl; tauto.
  - cbn [fold_left]. apply IH.
    + intro Hin. apply Hn. right. exact Hin.
    + apply no_separator_step; [|exact Hinv].
      apply String.eqb_neq. intros ->. apply Hn. left. reflexivity.
Qed.

(** A text is empty unless its separator is a line of the file: without
    a line [--SNAPSHOT--] there is no snapshot, and likewise for the two
    other texts. *)
Theorem section_needs_separator (content : string) (k : LoadKind) :
  ~ In (separator k) (Scan content) ->
  match k, parseFileContent content with
  | LoadUp, (u, _, _) => u = EmptyString
  | LoadDown, (_, d, _) => d = EmptyString
  | LoadSnapshot, (_, _, s) => s = EmptyString
  end.
Proof.
  intro H. unfold parseFileContent.
  pose proof (no_separator_fold k (Scan content) H (Loc.outside, no_text)) as E.
  destruct k; cbv zeta in E; rewrite E; try reflexivity;
    simpl; split; (discriminate || reflexivity).
Qed.

Lemma section_needs_separator_witness :
  match LoadSnapshot, parseFileContent testdata_1 with
  | LoadUp, (u, _, _) => u = EmptyString
  | LoadDown, (_, d, _) => d = EmptyString
  | LoadSnapshot, (_, _, s) => s = EmptyString
  end.
Proof.
  apply (section_needs_separator testdata_1 LoadSnapshot).
  vm_compute. intuition discriminate.
Defined.

(** ** The white space around a text *)

Section Trim.
Variable sp2 : ascii -> ascii -> bool.
Variable sp3 : ascii -> ascii -> ascii -> bool.

Lemma trim_runes_stop (s : list ascii) :
  starts_with_space sp2 sp3 s = false -> trim_runes sp2 sp3 s = s.
Proof.
  destruct s as [|c1 [|c2 [|c3 r3]]]; simpl; intro H; auto;
    repeat (apply orb_false_iff in H; destruct H as [? H]);
    repeat match goal with E : _ = false |- _ => rewrite E; clear E end;
    try rewrite H; reflexivity.
Qed.

Lemma trim_runes_length (n : nat) :
  forall s, (List.length s <= n)%nat ->
    starts_with_space sp2 sp3 (trim_runes sp2 sp3 s) = false
    /\ exists pre, s = pre ++ trim_runes sp2 sp3 s.
Proof.
  induction n as [|n IH]; intros s Hn.
  - destruct s; [|simpl in Hn; lia]. split; [reflexivity | exists []; reflexivity].
  - destruct s as [|c1 r1]; [split; [reflexivity | exists []; reflexivity]|].
    simpl in Hn.
    destruct (asciiSpace c1) eqn:E1.
    { cbn [trim_runes]. rewrite E1.
      destruct (IH r1) as [Hs (pre & Hp)]; [lia|].
      split; [exact Hs|]. exists (c1 :: pre). simpl. congruence. }
    destruct r1 as [|c2 r2].
    { cbn [trim_runes]. rewrite E1. split; [|exists []; reflexivity].
      simpl. rewrite E1. reflexivity. }
    simpl in Hn.
    destruct (sp2 c1 c2) eqn:E2.
    { cbn [trim_runes]. rewrite E1, E2.
      destruct (IH r2) as [Hs (pre & Hp)]; [lia|].
      split; [exact Hs|]. exists (c1 :: c2 :: pre). simpl. congruence. }
    destruct r2 as [|c3 r3].
    { cbn [trim_runes]. rewrite E1, E2. split; [|exists []; reflexivity].
      simpl. rewrite E1, E2. reflexivity. }
    simpl in Hn.
    destruct (sp3 c1 c2 c3) eqn:E3.
    { cbn [trim_runes]. rewrite E1, E2, E3.
      destruct (IH r3) as [Hs (pre & Hp)]; [lia|].
      split; [exact Hs|]. exists (c1 :: c2 :: c3 :: pre). simpl. congruence. }
    cbn [trim_runes]. rewrite E1, E2, E3. split; [|exists []; reflexivity].
    simpl. rewrite E1, E2, E3. reflexivity.
Qed.

Lemma trim_runes_trimmed (s : list ascii) :
  starts_with_space sp2 sp3 (trim_runes sp2 sp3 s) = false.
Proof. apply (trim_runes_length (List.length s) s (Nat.le_refl _)). Qed.

Lemma trim_runes_suffix (s : list ascii) :
  exists pre, s = pre ++ trim_runes sp2 sp3 s.
Proof. apply (trim_runes_length (List.length s) s (Nat.le_refl _)). Qed.

Lemma trim_runes_idempotent (s : list ascii) :
  trim_runes sp2 sp3 (trim_runes sp2 sp3 s) = trim_runes sp2 sp3 s.
Proof. apply trim_runes_stop, trim_runes_trimmed. Qed.

Lemma starts_with_space_prefix (u v : list ascii) :
  starts_with_space sp2 sp3 (u ++ v) = false ->
  starts_with_space sp2 sp3 u = false.
Proof.
  destruct u as [|c1 [|c2 [|c3 r3]]]; simpl; auto.
  - destruct v as [|c2 [|c3 r3]]; simpl; intro H;
      repeat (apply orb_false_iff in H; destruct H as [? H]);
      rewrite ?orb_false_r; assumption.
  - destruct v as [|c3 r3]; simpl; intro H;
      repeat (apply orb_false_iff in H; destruct H as [? H]);
      repeat match goal with E : _ = false |- _ => rewrite E; clear E end;
      rewrite ?orb_false_r; auto.
Qed.

Lemma starts_with_space_head (c : ascii) (r : list ascii) :
  starts_with_space sp2 sp3 (c :: r) = false -> asciiSpace c = false.
Proof. simpl. intro H. apply orb_false_iff in H. tauto. Qed.
End Trim.

Lemma TrimRight_prefix (s : list ascii) :
  exists post, s = TrimRight s ++ post.
Proof.
  unfold TrimRight.
  destruct (trim_runes_suffix (fun c1 c2 => space2 c2 c1)
              (fun c1 c2 c3 => space3 c3 c2 c1) (rev s)) as (pre & Hp).
  exists (rev pre). rewrite <- rev_app_distr, <- Hp, rev_involutive.
  reflexivity.
Qed.

Lemma TrimLeft_TrimRight (s : list ascii) :
  TrimLeft (TrimRight (TrimLeft s)) = TrimRight (TrimLeft s).
Proof.
  apply trim_runes_stop.
  destruct (TrimRight_prefix (TrimLeft s)) as (post & Hp).
  apply (starts_with_space_prefix _ _ _ post). rewrite <- Hp.
  apply trim_runes_trimmed.
Qed.

Lemma TrimRight_idempotent (s : list ascii) :
  TrimRight (TrimRight s) = TrimRight s.
Proof.
  unfold TrimRight. rewrite rev_involutive, trim_runes_idempotent.
  reflexivity.
Qed.

Lemma TrimSpace_idempotent (s : string) : TrimSpace (TrimSpace s) = TrimSpace s.
Proof.
  unfold TrimSpace. rewrite list_ascii_of_string_of_list_ascii.
  rewrite TrimLeft_TrimRight, TrimRight_idempotent. reflexivity.
Qed.

Lemma list_ascii_of_string_app (a b : string) :
  list_ascii_of_string (a ++ b)
  = list_ascii_of_string a ++ list_ascii_of_string b.
Proof. induction a as [|c a IH]; simpl; [|rewrite IH]; reflexivity. Qed.

Lemma TrimSpace_first (s r : string) (c : ascii) :
  TrimSpace s = String c r -> asciiSpace c = false.
Proof.
  intro H. apply (f_equal list_ascii_of_string) in H.
  unfold TrimSpace in H. rewrite list_ascii_of_string_of_list_ascii in H.
  simpl in H.
  apply (starts_with_space_head space2 space3 c (list_ascii_of_string r)).
  rewrite <- H, <- TrimLeft_TrimRight. apply trim_runes_trimmed.
Qed.

Lemma TrimSpace_last (s r : string) (c : ascii) :
  TrimSpace s = (r ++ String c EmptyString)%string -> asciiSpace c = false.
Proof.
  intro H. apply (f_equal list_ascii_of_string) in H.
  unfold TrimSpace in H. rewrite list_ascii_of_string_of_list_ascii in H.
  rewrite list_ascii_of_string_app in H. simpl in H.
  apply (f_equal (@rev ascii)) in H. rewrite rev_app_distr in H. simpl in H.
  unfold TrimRight in H. rewrite rev_involutive in H.
  eapply starts_with_space_head. rewrite <- H. apply trim_runes_trimmed.
Qed.

(** The three texts have no white space around them: trimming one again
    changes nothing, and its first and its last byte are no white space
    of ASCII. *)
Theorem texts_trimmed (content : string) :
  let '(u, d, s) := parseFileContent content in
  Forall (fun t =>
            TrimSpace t = t
            /\ (forall c r, t = String c r -> asciiSpace c = false)
            /\ (forall c r, t = (r ++ String c EmptyString)%string ->
                            asciiSpace c = false))
         [u; d; s].
Proof.
  unfold parseFileContent.
  repeat constructor;
    try apply TrimSpace_idempotent;
    intros c r H;
    solve [ eapply TrimSpace_first; exact H
          | eapply TrimSpace_last; exact H ].
Qed.

(** ** Reading a file migration *)

Lemma read_isRead (fsys : FS) (m m1 : FileMigration.t) :
  FileMigration.read fsys m = (m1, None) -> FileMigration.isRead m1 = true.
Proof.
  unfold FileMigration.read. destruct (FileMigration.isRead m) eqn:E.
  - intro H. injection H as <-. exact E.
  - destruct (fsys (FileMigration.filepath m)) as [content|err];
      [|discriminate].
    destruct (parseFileContent content) as [[u d] s].
    intro H. injection H as <-. reflexivity.
Qed.

Lemma load_read (k : LoadKind) (fsys : FS) (m : FileMigration.t) :
  load k fsys m
  = match FileMigration.read fsys m with
    | (m', Some err) => (m', Err err)
    | (m', None) => (m', Ok (stored k m'))
    end.
Proof. destruct k; reflexivity. Qed.

Lemma load_cached (k : LoadKind) (fsys : FS) (m : FileMigration.t) :
  FileMigration.isRead m = true -> load k fsys m = (m, Ok (stored k m)).
Proof.
  intro H. rewrite load_read. unfold FileMigration.read. rewrite H.
  reflexivity.
Qed.

Lemma load_all_cached (calls : list (FS * LoadKind)) (m : FileMigration.t) :
  FileMigration.isRead m = true ->
  load_all calls m = map (fun c => Ok (stored (snd c) m)) calls.
Proof.
  intro H. induction calls as [|[fsys k] calls IH]; simpl; [reflexivity|].
  rewrite (load_cached _ _ _ H), IH. reflexivity.
Qed.

(** A file is read once.  After a call that read it, every later call of
    [Up], [Down] and [Snapshot] answers with the text kept from that
    reading and leaves the migration as it is, whatever the file system
    holds by then.  A call that could not open the file returns the
    error of [Open] and keeps nothing, so that the next call opens the
    file again. *)
Theorem file_read_once (fsys : FS) (m m1 : FileMigration.t)
    (r : option error) :
  FileMigration.read fsys m = (m1, r) ->
  match r with
  | None =>
      (forall calls,
          load_all calls m1 = map (fun c => Ok (stored (snd c) m1)) calls)
      /\ (forall fsys' k, fst (load k fsys' m1) = m1)
      /\ (FileMigration.isRead m = false ->
          exists content,
            fsys (FileMigration.filepath m) = Ok content
            /\ (stored LoadUp m1, stored LoadDown m1, stored LoadSnapshot m1)
               = parseFileContent content)
  | Some err =>
      m1 = m /\ FileMigration.isRead m = false
      /\ fsys (FileMigration.filepath m) = Err err
  end.
Proof.
  intro H. destruct r as [err|].
  - unfold FileMigration.read in H.
    destruct (FileMigration.isRead m); [discriminate|].
    destruct (fsys (FileMigration.filepath m)) as [content|e].
    + destruct (parseFileContent content) as [[u d] s]. discriminate.
    + injection H as <- <-. auto.
  - pose proof (read_isRead _ _ _ H) as Hr. split; [|split].
    + intro calls. apply load_all_cached. exact Hr.
    + intros fsys' k. rewrite (load_cached _ _ _ Hr). reflexivity.
    + intro Hm. unfold FileMigration.read in H. rewrite Hm in H.
      destruct (fsys (FileMigration.filepath m)) as [content|e];
        [|discriminate].
      exists content. split; [reflexivity|].
      destruct (parseFileContent content) as [[u d] s].
      injection H as <-. reflexivity.
Qed.

Lemma file_read_once_witness :
  load_all [((fun _ => Err (Message "file does not exist")) : FS, LoadDown);
            ((fun _ => Ok "--UP--"%string) : FS, LoadUp)]
    (fst (FileMigration.read (fun _ => Ok testdata_1)
            (newFileMigration
               {| filepath := "testdata/1_test.sql"; version := 1 |})))
  = map (fun c => Ok (stored (snd c)
           (fst (FileMigration.read (fun _ => Ok testdata_1)
                   (newFileMigration
                      {| filepath := "testdata/1_test.sql";
                         version := 1 |})))))
      [((fun _ => Err (Message "file does not exist")) : FS, LoadDown);
       ((fun _ => Ok "--UP--"%string) : FS, LoadUp)].
Proof.
  apply (proj1 (file_read_once (fun _ => Ok testdata_1)
                  (newFileMigration
                     {| filepath := "testdata/1_test.sql"; version := 1 |})
                  _ None eq_refl)).
Defined.

Lemma read_again (fsys : FS) (m m1 : FileMigration.t) (r : option error) :
  FileMigration.read fsys m = (m1, r) -> FileMigration.read fsys m1 = (m1, r).
Proof.
  intro H. destruct r as [err|].
  - assert (m1 = m); [|subst; exact H].
    unfold FileMigration.read in H.
    destruct (FileMigration.isRead m); [discriminate|].
    destruct (fsys (FileMigration.filepath m)) as [content|e].
    + destruct (parseFileContent content) as [[u d] s]. discriminate.
    + injection H as <- _. reflexivity.
  - unfold FileMigration.read at 1. rewrite (read_isRead _ _ _ H).
    reflexivity.
Qed.

Lemma load_all_same (fsys : FS) (ks : list LoadKind) :
  forall m,
    load_all (map (pair fsys) ks) m
    = map (fun k => snd (load k fsys m)) ks.
Proof.
  induction ks as [|k ks IH]; intro m; simpl; [reflexivity|].
  destruct (load k fsys m) as [m1 r] eqn:E. simpl. f_equal.
  rewrite IH. apply map_ext. intro k'.
  rewrite load_read in E. rewrite !load_read.
  destruct (FileMigration.read fsys m) as [m' r'] eqn:Er.
  assert (m1 = m') by (destruct r'; injection E as <- _; reflexivity).
  subst m1. rewrite (read_again _ _ _ _ Er). reflexivity.
Qed.

(** Against a file system that does not change, a file migration
    answers as a migration of the planner does: in any sequence of calls
    of [Up], [Down] and [Snapshot], each call returns what it would
    return as the first call. *)
Theorem file_as_migration (fsys : FS) (m : FileMigration.t)
    (ks : list LoadKind) :
  load_all (map (pair fsys) ks) m
  = map (fun k => payload k (fileAsMigration fsys m)) ks.
Proof.
  rewrite load_all_same. apply map_ext. intro k. destruct k; reflexivity.
Qed.
